(** * n8n-mcp-server: the workflow-graph mutation layer, the safe-update
      orchestrator, the update guard and the execution poller

    A shallow embedding of [src/utils/workflow-utils.ts],
    [src/tools/workflow/update.ts], [src/tools/workflow/base-node-handler.ts]
    and [src/tools/execution/execute.ts], with the properties the
    specification states about them, and of the handlers of the node and
    connection tools that are built on them, with what they do to a
    workflow.

    Conventions of the embedding.
    - A JavaScript object used as a dictionary is an insertion-ordered
      association list ([Obj.t]); [Object.entries] enumerates it in list
      order.  Node names and ids that are canonical array indices (which a
      JavaScript engine enumerates first) are outside the model.  A read
      [o[k]] follows the prototype chain: [addConnectionToWorkflow] and
      [mergeConnections], where such a read decides where an edge is
      written, tell the keys inherited from [Object.prototype] from the
      keys of the object ([Obj.inherits]).  The other reads are those of
      [removeConnectionFromWorkflow], where an inherited key reads as an
      absent one, which is what its chain of reads comes to with the
      built-in objects as the engine creates them, and the one of
      [cleanupCorruptedConnections], where the names of the nodes are
      taken not to be inherited keys.
    - A JavaScript [number] that is used as an index is an integer [Z];
      indexing an array with a negative number yields [undefined].
    - A function that mutates the workflow passed to it returns the mutated
      workflow next to its result.  The documents are produced by
      [JSON.parse], so no two places of a document share an object. *)

From Stdlib Require Import ZArith String List Lia.
From stdpp Require Import base tactics decidable option list strings pretty.

Local Open Scope Z_scope.
Local Open Scope string_scope.
Local Open Scope list_scope.

(** ** JavaScript objects as ordered dictionaries *)

Module Obj.

Abbreviation t V := (list (string * V)) (only parsing).

Section ops.
Context {V : Type}.

(** [o[k]] *)
Fixpoint get (k : string) (o : t V) : option V :=
  match o with
  | [] => None
  | (k', v) :: o' => if decide (k' = k) then Some v else get k o'
  end.

(** [o[k] = v]: an existing key keeps its place, a new key goes last. *)
Fixpoint put (k : string) (v : V) (o : t V) : t V :=
  match o with
  | [] => [(k, v)]
  | (k', v') :: o' =>
      if decide (k' = k) then (k, v) :: o' else (k', v') :: put k v o'
  end.

(** [delete o[k]] *)
Fixpoint remove (k : string) (o : t V) : t V :=
  match o with
  | [] => []
  | (k', v') :: o' =>
      if decide (k' = k) then remove k o' else (k', v') :: remove k o'
  end.

(** [Object.keys(o)] *)
Definition keys (o : t V) : list string := map fst o.

(** [Object.values(o)] *)
Definition values (o : t V) : list V := map snd o.

(** [k in o] as a boolean *)
Definition has (k : string) (o : t V) : bool :=
  match get k o with Some _ => true | None => false end.

(** [{ ...a, ...b }] *)
Definition spread (a b : t V) : t V :=
  fold_left (λ acc '(k, v), put k v acc) b a.
End ops.

(** The properties an object that [JSON.parse] or an object literal
    builds inherits from [Object.prototype].  The value of each of them
    is a built-in function, or [Object.prototype] itself for
    [__proto__]: every one is truthy. *)
Definition inheritedKeys : list string :=
  ["constructor"; "__defineGetter__"; "__defineSetter__"; "hasOwnProperty";
   "__lookupGetter__"; "__lookupSetter__"; "isPrototypeOf";
   "propertyIsEnumerable"; "toString"; "valueOf"; "__proto__";
   "toLocaleString"].

Section prototype.
Context {V : Type}.

(** Reading [o[k]] finds a built-in object of the engine: [k] is
    inherited and no key of [o] itself. *)
Definition inherits (k : string) (o : t V) : bool :=
  bool_decide (k ∈ inheritedKeys) && negb (has k o).

(** [o[k] = v] on an own object [o]: the write makes an own property
    or changes it, but for [__proto__] where [o] has no such key: that
    write reaches the setter [Object.prototype] has for it, which
    changes the prototype of [o] and none of its own properties. *)
Definition write (k : string) (v : V) (o : t V) : t V :=
  if bool_decide (k = "__proto__") && negb (has k o) then o
  else put k v o.
End prototype.

End Obj.

(** ** JavaScript values that are tested for truthiness *)

(** A string is truthy iff it is not empty. *)
Definition truthy (s : string) : bool :=
  match s with EmptyString => false | String _ _ => true end.

(** [a || b] on strings where [a] may be [undefined]. *)
Definition orElse (a : option string) (b : string) : string :=
  match a with
  | Some s => if truthy s then s else b
  | None => b
  end.

(** [a || b] on numbers where [a] may be [undefined]. *)
Definition orElseZ (a : option Z) (b : Z) : Z :=
  match a with
  | Some z => if (z =? 0)%Z then b else z
  | None => b
  end.

(** [arr[i]] for a number [i]: [undefined] outside [0 .. length-1]. *)
Definition at_index {A : Type} (arr : list A) (i : Z) : option A :=
  if decide (0 <= i) then arr !! Z.to_nat i else None.

(** A JavaScript [Set] of strings, in insertion order. *)
Module StrSet.
Abbreviation t := (list string) (only parsing).
Definition has (x : string) (s : t) : bool := bool_decide (x ∈ s).
Definition add (x : string) (s : t) : t := if has x s then s else s ++ [x].
(** [new Set(xs)] *)
Definition of_list (xs : list string) : t :=
  fold_left (λ s x, add x s) xs [].
End StrSet.

(** [xs.join(sep)] *)
Fixpoint join (sep : string) (xs : list string) : string :=
  match xs with
  | [] => ""
  | [x] => x
  | x :: rest => x +:+ sep +:+ join sep rest
  end.

(** ** src/types/index.ts *)

Record WorkflowNode := mkNode {
  node_id : string;
  node_name : string;
  node_type : string;
  typeVersion : Z;
  position : Z * Z;
  parameters : Obj.t string
}.

Record NodeConnection := mkConn {
  conn_node : string;
  conn_type : string;
  conn_index : Z
}.

Abbreviation ConnectionArrays := (list (list NodeConnection)) (only parsing).

Abbreviation WorkflowConnections :=
  (Obj.t (Obj.t ConnectionArrays)) (only parsing).

(** The fields the server owns ([id], [active]) can be deleted from a
    document before it is written back, hence the options; [settings] and
    the remaining top-level properties carry opaque serialised payloads. *)
Record Workflow := mkWorkflow {
  wf_id : option string;
  wf_name : string;
  active : option bool;
  nodes : list WorkflowNode;
  connections : WorkflowConnections;
  settings : option (Obj.t string);
  extra : Obj.t string
}.

Record ConnectionSpec := mkSpec {
  sourceNodeId : string;
  targetNodeId : string;
  sourceIndex : option Z;
  targetIndex : option Z;
  connectionType : option string
}.

Record NodeValidationResult := mkNodeValidation {
  nv_isValid : bool;
  nv_errors : list string;
  nv_nodeId : option string
}.

Record WorkflowValidationResult := mkValidation {
  isValid : bool;
  errors : list string;
  nodeErrors : list NodeValidationResult
}.

Definition set_nodes (w : Workflow) (ns : list WorkflowNode) : Workflow :=
  mkWorkflow (wf_id w) (wf_name w) (active w) ns (connections w)
             (settings w) (extra w).

Definition set_connections (w : Workflow) (c : WorkflowConnections) : Workflow :=
  mkWorkflow (wf_id w) (wf_name w) (active w) (nodes w) c
             (settings w) (extra w).

(** [Partial<WorkflowNode>]: a property is present ([Some]) or absent. *)
Record PartialNode := mkPartial {
  p_id : option string;
  p_name : option string;
  p_type : option string;
  p_typeVersion : option Z;
  p_position : option (Z * Z);
  p_parameters : option (Obj.t string)
}.

(** [Object.assign(node, updates)], and the spread [...updates] that ends
    an object literal: every property present in [updates] replaces the
    node's. *)
Definition assign (node : WorkflowNode) (updates : PartialNode)
  : WorkflowNode :=
  mkNode (default (node_id node) (p_id updates))
         (default (node_name node) (p_name updates))
         (default (node_type node) (p_type updates))
         (default (typeVersion node) (p_typeVersion updates))
         (default (position node) (p_position updates))
         (default (parameters node) (p_parameters updates)).

(** The result of a call that may throw: the value returned or the error
    thrown, with the workflow as the call left it.  [OnBuiltin] is the
    result of a call that, reading a key through the prototype chain, got
    hold of a built-in object of the engine and went on reading and
    writing that object: it left the workflow as given here, and whether
    it returned [true] or threw a [TypeError] is up to the properties the
    built-in object has in the engine at that moment. *)
Inductive outcome (A : Type) : Type :=
| Returned (a : A) (w : Workflow)
| Thrown (e : string) (w : Workflow)
| OnBuiltin (w : Workflow).
Arguments Returned {A} a w.
Arguments Thrown {A} e w.
Arguments OnBuiltin {A} w.

(** ** src/utils/workflow-utils.ts (name-addressed connections) *)

Module WorkflowUtils.

(** The [while] loop of [generateNodeId], entered with the candidate of
    [counter].  A turn that finds its candidate taken uses up one of the
    existing ids, whence the recursion on their number: the candidate
    left when [bound] is used up is free, so the loop returns it as well
    (see [generateLoop_fresh]). *)
Fixpoint generateLoop (bound : nat) (existingIds : StrSet.t)
    (prefix : string) (counter : nat) : string :=
  let newId := prefix +:+ pretty counter in
  match bound with
  | O => newId
  | S bound' =>
      if StrSet.has newId existingIds
      then generateLoop bound' existingIds prefix (S counter)
      else newId
  end.

(** [prefix] defaults to ['node']. *)
Definition generateNodeId (workflow : Workflow) (prefix : option string)
  : string :=
  generateLoop (length (nodes workflow))
               (StrSet.of_list (map node_id (nodes workflow)))
               (default "node" prefix) 1.

Definition findNodeByName (workflow : Workflow) (nodeName : string)
  : option WorkflowNode :=
  snd <$> list_find (λ n, node_name n = nodeName) (nodes workflow).

Definition findNodeById (workflow : Workflow) (nodeId : string)
  : option WorkflowNode :=
  snd <$> list_find (λ n, node_id n = nodeId) (nodes workflow).

Definition getNodeNameById (workflow : Workflow) (nodeId : string)
  : option string :=
  node_name <$> findNodeById workflow nodeId.

Definition getNodeIdByName (workflow : Workflow) (nodeName : string)
  : option string :=
  node_id <$> findNodeByName workflow nodeName.

Definition validateNodeExists (workflow : Workflow) (nodeId : string)
  : NodeValidationResult :=
  match findNodeById workflow nodeId with
  | None =>
      mkNodeValidation false
        ["Node with ID '" +:+ nodeId +:+ "' not found in workflow"]
        (Some nodeId)
  | Some _ => mkNodeValidation true [] (Some nodeId)
  end.

Definition validateNodesExist (workflow : Workflow) (nodeIds : list string)
  : WorkflowValidationResult :=
  let failed :=
    filter (λ v, nv_isValid v = false)
           (map (validateNodeExists workflow) nodeIds) in
  mkValidation (bool_decide (length failed = 0%nat))
               (concat (map nv_errors failed))
               failed.

(** [nodeId || generateNodeId(workflow)], then the object literal with
    its defaults and the spread of [nodeConfig] that ends it, then the
    [push]. *)
Definition addNodeToWorkflow (workflow : Workflow)
    (nodeConfig : PartialNode) (nodeId : option string)
  : WorkflowNode * Workflow :=
  let id :=
    match nodeId with
    | Some i => if truthy i then i else generateNodeId workflow None
    | None => generateNodeId workflow None
    end in
  let newNode :=
    assign (mkNode id
                   (orElse (p_name nodeConfig) id)
                   (orElse (p_type nodeConfig) "n8n-nodes-base.set")
                   (orElseZ (p_typeVersion nodeConfig) 1)
                   (default (0, 0)%Z (p_position nodeConfig))
                   (default [] (p_parameters nodeConfig)))
           nodeConfig in
  (newNode, set_nodes workflow (nodes workflow ++ [newNode])).

(** *** removeNodeFromWorkflow *)

(** First loop: every edge stored under the removed node's own key, in
    enumeration order.  The pushed record has no [targetIndex], and its
    [sourceIndex] is the edge's [index] field. *)
Definition outgoingSpecs (workflow : Workflow) (nodeId : string)
    (conns : Obj.t ConnectionArrays) : list ConnectionSpec :=
  flat_map (λ '(connectionType, connectionArrays),
    flat_map (λ connectionArray,
      map (λ connection,
             mkSpec nodeId
                    (orElse (getNodeIdByName workflow (conn_node connection))
                            (conn_node connection))
                    (Some (conn_index connection))
                    None
                    (Some connectionType))
          connectionArray)
      connectionArrays)
    conns.

(** [connectionArray[j].node === nodeNameToRemove], where the name may be
    [undefined]. *)
Definition targetsName (nodeNameToRemove : option string)
    (connection : NodeConnection) : bool :=
  bool_decide (Some (conn_node connection) = nodeNameToRemove).

(** The second loop nest, which clears the incoming edges.  [hit] is the
    test of the innermost [if] and [record] builds the [ConnectionSpec] it
    pushes; the state of each loop is the list [removedConnections] and the
    array or object the loop mutates in place. *)
Section incoming_loops.
Variable hit : NodeConnection → bool.
Variable record : string → string → nat → NodeConnection → ConnectionSpec.

(** [for (let j = connectionArray.length - 1; j >= 0; j--)]: the
    argument [j] counts the indices still to visit, the turn at hand
    visits index [j - 1]. *)
Fixpoint edgeLoop (sourceNodeName connectionType : string) (i j : nat)
    (st : list ConnectionSpec * list NodeConnection)
  : list ConnectionSpec * list NodeConnection :=
  match j with
  | O => st
  | S j' =>
      match snd st !! j' with
      | Some connection =>
          if hit connection
          then
            edgeLoop sourceNodeName connectionType i j'
              (fst st ++ [record sourceNodeName connectionType i connection],
               delete j' (snd st))
          else edgeLoop sourceNodeName connectionType i j' st
      | None => edgeLoop sourceNodeName connectionType i j' st
      end
  end.

(** [for (let i = connectionArrays.length - 1; i >= 0; i--)]: the slot
    at hand is scanned in place and spliced out when left empty. *)
Fixpoint slotLoop (sourceNodeName connectionType : string) (i : nat)
    (st : list ConnectionSpec * ConnectionArrays)
  : list ConnectionSpec * ConnectionArrays :=
  match i with
  | O => st
  | S i' =>
      match snd st !! i' with
      | Some connectionArray =>
          let r :=
            edgeLoop sourceNodeName connectionType i'
                     (length connectionArray) (fst st, connectionArray) in
          slotLoop sourceNodeName connectionType i'
            (fst r,
             if decide (length (snd r) = 0%nat)
             then delete i' (snd st)
             else <[i' := snd r]> (snd st))
      | None => slotLoop sourceNodeName connectionType i' st
      end
  end.

(** One turn of [for (const [connectionType, connectionArrays] of
    Object.entries(connections))]: the entry comes from the snapshot
    [Object.entries] took, the state holds the object being mutated. *)
Definition typeStep (sourceNodeName : string)
    (st : list ConnectionSpec * Obj.t ConnectionArrays)
    (entry : string * ConnectionArrays)
  : list ConnectionSpec * Obj.t ConnectionArrays :=
  let '(connectionType, connectionArrays) := entry in
  let r :=
    slotLoop sourceNodeName connectionType (length connectionArrays)
             (fst st, connectionArrays) in
  (fst r,
   if decide (length (snd r) = 0%nat)
   then Obj.remove connectionType (snd st)
   else Obj.put connectionType (snd r) (snd st)).

(** One turn of [for (const [sourceNodeName, connections] of
    Object.entries(workflow.connections))]. *)
Definition sourceStep (st : list ConnectionSpec * WorkflowConnections)
    (entry : string * Obj.t ConnectionArrays)
  : list ConnectionSpec * WorkflowConnections :=
  let '(sourceNodeName, connections) := entry in
  let r :=
    fold_left (typeStep sourceNodeName) connections (fst st, connections) in
  (fst r,
   if decide (length (Obj.keys (snd r)) = 0%nat)
   then Obj.remove sourceNodeName (snd st)
   else Obj.put sourceNodeName (snd r) (snd st)).

Definition incomingLoop (removedConnections : list ConnectionSpec)
    (conns : WorkflowConnections)
  : list ConnectionSpec * WorkflowConnections :=
  fold_left sourceStep conns (removedConnections, conns).
End incoming_loops.

(** The record pushed for an incoming edge. *)
Definition incomingSpec (workflow : Workflow) (nodeId : string)
    (sourceNodeName connectionType : string) (i : nat)
    (connection : NodeConnection) : ConnectionSpec :=
  mkSpec (orElse (getNodeIdByName workflow sourceNodeName) sourceNodeName)
         nodeId
         (Some (Z.of_nat i))
         (Some (conn_index connection))
         (Some connectionType).

Definition removeNodeFromWorkflow (workflow : Workflow) (nodeId : string)
  : list ConnectionSpec * Workflow :=
  match list_find (λ n, node_id n = nodeId) (nodes workflow) with
  | None => ([], workflow)
  | Some (nodeIndex, _) =>
      (* workflow.nodes.splice(nodeIndex, 1) *)
      let workflow1 := set_nodes workflow (delete nodeIndex (nodes workflow)) in
      (* looked up in the node list the splice has already shortened *)
      let nodeToRemove := findNodeById workflow1 nodeId in
      let nodeNameToRemove := node_name <$> nodeToRemove in
      let '(outgoing, conns1) :=
        match nodeNameToRemove with
        | Some nm =>
            if truthy nm then
              match Obj.get nm (connections workflow1) with
              | Some own =>
                  (outgoingSpecs workflow1 nodeId own,
                   Obj.remove nm (connections workflow1))
              | None => ([], connections workflow1)
              end
            else ([], connections workflow1)
        | None => ([], connections workflow1)
        end in
      let workflow2 := set_connections workflow1 conns1 in
      let r :=
        incomingLoop (targetsName nodeNameToRemove)
                     (incomingSpec workflow2 nodeId) outgoing conns1 in
      (fst r, set_connections workflow2 (snd r))
  end.

(** *** updateNodeInWorkflow *)

(** The node found is the element of [workflow.nodes] itself, which
    [Object.assign] changes in place. *)
Definition updateNodeInWorkflow (workflow : Workflow) (nodeId : string)
    (updates : PartialNode) : option WorkflowNode * Workflow :=
  match list_find (λ n, node_id n = nodeId) (nodes workflow) with
  | None => (None, workflow)
  | Some (index, node) =>
      (Some (assign node updates),
       set_nodes workflow (<[index := assign node updates]> (nodes workflow)))
  end.

(** *** addConnectionToWorkflow *)

Definition sameEdge (targetNodeName : string) (targetIndex : Z)
    (connectionType : string) (conn : NodeConnection) : bool :=
  bool_decide (conn_node conn = targetNodeName)
  && bool_decide (conn_index conn = targetIndex)
  && bool_decide (conn_type conn = connectionType).

(** [while (arr.length <= sourceIndex) arr.push([])] *)
Definition padSlots (arr : ConnectionArrays) (sourceIndex : Z)
  : ConnectionArrays :=
  arr ++ replicate (Z.to_nat (sourceIndex + 1 - Z.of_nat (length arr))) [].

(** [workflow.connections[sourceNodeName]] and
    [workflow.connections[sourceNodeName][connectionType]] are read
    through the prototype chain.  A source name that is inherited and
    no key of the connections gives a built-in object, which is truthy:
    no entry is made for the source, and the type, the slots and the
    edge are looked up and stored on that object.  A connection type
    that is inherited and no key of the entry of the source gives a
    built-in object where the slots are expected.  With the built-in
    objects as the engine creates them, the second makes the call throw
    a [TypeError], and the first makes it return [true] with the edge
    stored on the built-in object, unless that object has a property
    named like the connection type.  The text of the [TypeError] that
    the read of an undefined slot throws is the one of V8. *)
Definition addConnectionToWorkflow (workflow : Workflow)
    (connection : ConnectionSpec) : outcome bool :=
  let sourceNodeId := sourceNodeId connection in
  let targetNodeId := targetNodeId connection in
  let sourceIndex := default 0 (sourceIndex connection) in
  let targetIndex := default 0 (targetIndex connection) in
  let connectionType := default "main" (connectionType connection) in
  let validation :=
    validateNodesExist workflow [sourceNodeId; targetNodeId] in
  if negb (isValid validation) then Returned false workflow else
  match getNodeNameById workflow sourceNodeId,
        getNodeNameById workflow targetNodeId with
  | Some sourceNodeName, Some targetNodeName =>
      if negb (truthy sourceNodeName) || negb (truthy targetNodeName)
      then Returned false workflow
      else if Obj.inherits sourceNodeName (connections workflow)
      then OnBuiltin workflow
      else
        let byType :=
          default [] (Obj.get sourceNodeName (connections workflow)) in
        if Obj.inherits connectionType byType
        then
          OnBuiltin (set_connections workflow
                       (Obj.put sourceNodeName byType
                                (connections workflow)))
        else
        let slots :=
          padSlots (default [] (Obj.get connectionType byType)) sourceIndex in
        let store (s : ConnectionArrays) : Workflow :=
          set_connections workflow
            (Obj.put sourceNodeName (Obj.put connectionType s byType)
                     (connections workflow)) in
        match at_index slots sourceIndex with
        | None =>
            Thrown "TypeError: Cannot read properties of undefined (reading 'find')"
                   (store slots)
        | Some connectionArray =>
            let connectionArray' :=
              if existsb (sameEdge targetNodeName targetIndex connectionType)
                         connectionArray
              then connectionArray
              else connectionArray
                     ++ [mkConn targetNodeName connectionType targetIndex] in
            Returned true
              (store (<[Z.to_nat sourceIndex := connectionArray']> slots))
        end
  | _, _ => Returned false workflow
  end.

(** *** removeConnectionFromWorkflow *)

Definition removeConnectionFromWorkflow (workflow : Workflow)
    (connection : ConnectionSpec) : bool * Workflow :=
  let sourceIndex := default 0 (sourceIndex connection) in
  let targetIndex := default 0 (targetIndex connection) in
  let connectionType := default "main" (connectionType connection) in
  match getNodeNameById workflow (sourceNodeId connection),
        getNodeNameById workflow (targetNodeId connection) with
  | Some sourceNodeName, Some targetNodeName =>
      if negb (truthy sourceNodeName) || negb (truthy targetNodeName)
      then (false, workflow)
      else
        match Obj.get sourceNodeName (connections workflow) with
        | None => (false, workflow)
        | Some byType =>
        match Obj.get connectionType byType with
        | None => (false, workflow)
        | Some slots =>
        match at_index slots sourceIndex with
        | None => (false, workflow)
        | Some connectionArray =>
        match list_find
                (λ c, sameEdge targetNodeName targetIndex connectionType c
                      = true)
                connectionArray with
        | None => (false, workflow)
        | Some (connectionIndex, _) =>
            let connectionArray' := delete connectionIndex connectionArray in
            let slots' :=
              if decide (length connectionArray' = 0%nat)
              then delete (Z.to_nat sourceIndex) slots
              else <[Z.to_nat sourceIndex := connectionArray']> slots in
            let byType' :=
              if decide (length slots' = 0%nat)
              then Obj.remove connectionType byType
              else Obj.put connectionType slots' byType in
            let conns' :=
              if decide (length (Obj.keys byType') = 0%nat)
              then Obj.remove sourceNodeName (connections workflow)
              else Obj.put sourceNodeName byType' (connections workflow) in
            (true, set_connections workflow conns')
        end end end end
  | _, _ => (false, workflow)
  end.

(** *** cleanupCorruptedConnections *)

Record Fix := mkFix {
  oldKey : string;
  newKey : string;
  fix_connections : Obj.t ConnectionArrays
}.

(** First loop: the keys that are a node's id and no node's name. *)
Definition connectionsToFix (workflow : Workflow) : list Fix :=
  omap (λ '(connectionKey, conns),
          match findNodeById workflow connectionKey,
                findNodeByName workflow connectionKey with
          | Some nodeById, None =>
              Some (mkFix connectionKey (node_name nodeById) conns)
          | _, _ => None
          end)
       (connections workflow).

(** The innermost merge loop, [i] from [0] to [connectionArrays.length - 1]:
    a slot the target lacks is assigned (it is then the slot right after the
    target's last one), a slot it has is extended. *)
Definition mergeSlots (target incoming : ConnectionArrays) : ConnectionArrays :=
  fold_left (λ tgt '(i, arr),
               match tgt !! i with
               | None => tgt ++ [arr]
               | Some have => <[i := have ++ arr]> tgt
               end)
            (imap pair incoming) target.

Definition mergeTypes (target incoming : Obj.t ConnectionArrays)
  : Obj.t ConnectionArrays :=
  fold_left (λ tgt '(connectionType, connectionArrays),
               match Obj.get connectionType tgt with
               | None => Obj.put connectionType connectionArrays tgt
               | Some have =>
                   Obj.put connectionType (mergeSlots have connectionArrays) tgt
               end)
            incoming target.

Definition applyFix (conns : WorkflowConnections) (fix_ : Fix)
  : WorkflowConnections :=
  let conns1 := Obj.remove (oldKey fix_) conns in
  match Obj.get (newKey fix_) conns1 with
  | None => Obj.put (newKey fix_) (fix_connections fix_) conns1
  | Some have =>
      Obj.put (newKey fix_) (mergeTypes have (fix_connections fix_)) conns1
  end.

(** [fixedCount] is incremented once per fix, in either branch. *)
Definition cleanupCorruptedConnections (workflow : Workflow)
  : nat * Workflow :=
  let fixes := connectionsToFix workflow in
  (length fixes,
   set_connections workflow (fold_left applyFix fixes (connections workflow))).

(** *** validateWorkflowIntegrity *)

(** The loop over the nodes: the two sets seen so far and the errors. *)
Definition scanNode (st : StrSet.t * StrSet.t * list string)
    (node : WorkflowNode) : StrSet.t * StrSet.t * list string :=
  let '(nodeIds, nodeNames, errs) := st in
  let errs1 :=
    if StrSet.has (node_id node) nodeIds
    then errs ++ ["Duplicate node ID found: " +:+ node_id node]
    else errs in
  let errs2 :=
    if StrSet.has (node_name node) nodeNames
    then errs1 ++ ["Duplicate node name found: " +:+ node_name node]
    else errs1 in
  (StrSet.add (node_id node) nodeIds,
   StrSet.add (node_name node) nodeNames,
   errs2).

Definition scanNodes (ns : list WorkflowNode)
  : StrSet.t * StrSet.t * list string :=
  fold_left scanNode ns ([], [], []).

(** The errors of one top-level connections entry. *)
Definition sourceErrors (nodeNames : StrSet.t)
    (entry : string * Obj.t ConnectionArrays) : list string :=
  let '(sourceNodeName, conns) := entry in
  if negb (StrSet.has sourceNodeName nodeNames)
  then ["Connection source node '" +:+ sourceNodeName +:+ "' does not exist"]
  else
    flat_map (λ '(_, connectionArrays),
      flat_map (λ connectionArray,
        flat_map (λ connection,
          if negb (StrSet.has (conn_node connection) nodeNames)
          then ["Connection target node '" +:+ conn_node connection
                +:+ "' does not exist"]
          else [])
          connectionArray)
        connectionArrays)
      conns.

Definition validateWorkflowIntegrity (workflow : Workflow)
  : WorkflowValidationResult :=
  let '(_, nodeNames, nodeErrs) := scanNodes (nodes workflow) in
  let errs :=
    nodeErrs ++ flat_map (sourceErrors nodeNames) (connections workflow) in
  mkValidation (bool_decide (length errs = 0%nat)) errs [].

End WorkflowUtils.

(** ** Errors and the remote n8n API *)

(** What the handlers throw: an [N8nApiError] with its message, or any other
    error, kept as the text [`${error}`] renders. *)
Inductive error : Type :=
| N8nApiError (message : string)
| OtherError (rendered : string).

(** Two steps in a row, the first of which may throw. *)
Definition and_then {A B : Type} (r : error + A) (k : A → error + B)
  : error + B :=
  match r with
  | inl e => inl e
  | inr a => k a
  end.

(** A string argument of a tool call that passes the test [if (!arg)]: it
    is present and not empty. *)
Definition required (arg : option string) : option string :=
  match arg with
  | Some s => if truthy s then Some s else None
  | None => None
  end.

(** The [apiService] of a handler, over the state [R] of the remote n8n
    instance and the documents [D] it stores.  Reading a workflow does not
    change the remote state; the three writing verbs may. *)
Record ApiService (R D : Type) := mkApi {
  api_getWorkflow : string → R → error + D;
  api_updateWorkflow : string → D → R → (error + D) * R;
  api_activateWorkflow : string → R → (error + D) * R;
  api_deactivateWorkflow : string → R → (error + D) * R
}.
Arguments mkApi {R D}.
Arguments api_getWorkflow {R D}.
Arguments api_updateWorkflow {R D}.
Arguments api_activateWorkflow {R D}.
Arguments api_deactivateWorkflow {R D}.

(** The requests a handler has sent, in order. *)
Inductive ApiCall (D : Type) : Type :=
| CallGet (id : string)
| CallUpdate (id : string) (body : D)
| CallActivate (id : string)
| CallDeactivate (id : string).
Arguments CallGet {D}.
Arguments CallUpdate {D}.
Arguments CallActivate {D}.
Arguments CallDeactivate {D}.

Record World (R D : Type) := mkWorld {
  remote : R;
  calls : list (ApiCall D)
}.
Arguments mkWorld {R D}.
Arguments remote {R D}.
Arguments calls {R D}.

(** Handlers run in a state-and-exception monad over the world. *)
Definition M (R D A : Type) : Type := World R D → (error + A) * World R D.

Section monad.
Context {R D : Type}.

Definition ret {A} (a : A) : M R D A := λ w, (inr a, w).

Definition throw {A} (e : error) : M R D A := λ w, (inl e, w).

Definition bind {A B} (m : M R D A) (k : A → M R D B) : M R D B :=
  λ w, match m w with
       | (inl e, w') => (inl e, w')
       | (inr a, w') => k a w'
       end.

(** [try { m } catch (error) { h(error) }] *)
Definition try_catch {A} (m : M R D A) (h : error → M R D A) : M R D A :=
  λ w, match m w with
       | (inl e, w') => h e w'
       | (inr a, w') => (inr a, w')
       end.

Definition lift {A} (r : error + A) : M R D A := λ w, (r, w).

Definition getWorkflow (api : ApiService R D) (id : string) : M R D D :=
  λ w, (api_getWorkflow api id (remote w),
        mkWorld (remote w) (calls w ++ [CallGet id])).

Definition updateWorkflow (api : ApiService R D) (id : string) (body : D)
  : M R D D :=
  λ w, let r := api_updateWorkflow api id body (remote w) in
       (fst r, mkWorld (snd r) (calls w ++ [CallUpdate id body])).

Definition activateWorkflow (api : ApiService R D) (id : string) : M R D D :=
  λ w, let r := api_activateWorkflow api id (remote w) in
       (fst r, mkWorld (snd r) (calls w ++ [CallActivate id])).

Definition deactivateWorkflow (api : ApiService R D) (id : string)
  : M R D D :=
  λ w, let r := api_deactivateWorkflow api id (remote w) in
       (fst r, mkWorld (snd r) (calls w ++ [CallDeactivate id])).
End monad.

Notation "'let!' x ':=' m 'in' k" := (bind m (λ x, k))
  (at level 10, x name, m at level 100, k at level 200).

(** ** src/tools/workflow/base-node-handler.ts *)

Module BaseNodeHandler.

Definition readOnlyFields : list string :=
  ["pinData"; "versionId"; "staticData"; "meta"; "shared"; "createdAt";
   "updatedAt"; "triggerCount"; "isArchived"; "tags"].

(** [id] and [active] are fields of the record; the other read-only
    properties live in [extra]. *)
Definition cleanWorkflowForUpdate (workflow : Workflow) : Workflow :=
  mkWorkflow None (wf_name workflow) None (nodes workflow)
    (connections workflow)
    ((λ s, Obj.remove "callerPolicy" (Obj.remove "callerIds" s))
       <$> settings workflow)
    (fold_left (λ o k, Obj.remove k o) readOnlyFields (extra workflow)).

(** The [workflowUpdater] mutates the working copy it is given and may
    throw: a function from the copy to the mutated copy or an error.  The
    deep copy of line 69 is the identity on immutable values. *)
Definition updateWorkflowSafely {R : Type} (api : ApiService R Workflow)
    (workflowId : string)
    (workflowUpdater : Workflow → error + Workflow)
    (validateIntegrity : bool) : M R Workflow Workflow :=
  let! currentWorkflow := getWorkflow api workflowId in
  let workflowCopy := currentWorkflow in
  try_catch
    (let! workflowCopy' := lift (workflowUpdater workflowCopy) in
     let! checked := (if validateIntegrity then
            let validation :=
              WorkflowUtils.validateWorkflowIntegrity workflowCopy' in
            if negb (isValid validation) then
              throw (N8nApiError
                       ("Workflow integrity validation failed: "
                        +:+ join ", " (errors validation)))
            else ret tt
          else ret tt) in
     let cleanedWorkflow := cleanWorkflowForUpdate workflowCopy' in
     let! updatedWorkflow := updateWorkflow api workflowId cleanedWorkflow in
     ret updatedWorkflow)
    (λ e, match e with
          | N8nApiError _ => throw e
          | OtherError text =>
              throw (N8nApiError ("Failed to update workflow: " +:+ text))
          end).

(** The two checks of the class throw what the utilities report. *)
Definition validateNodeExists (workflow : Workflow) (nodeId : string)
  : error + unit :=
  let validation := WorkflowUtils.validateNodeExists workflow nodeId in
  if negb (nv_isValid validation)
  then inl (N8nApiError (join ", " (nv_errors validation)))
  else inr tt.

Definition validateNodesExist (workflow : Workflow) (nodeIds : list string)
  : error + unit :=
  let validation := WorkflowUtils.validateNodesExist workflow nodeIds in
  if negb (isValid validation)
  then inl (N8nApiError (join ", " (errors validation)))
  else inr tt.

End BaseNodeHandler.

(** ** src/tools/workflow/delete-node.ts *)

Module DeleteNodeHandler.

(** The mutation the handler hands to [updateWorkflowSafely]: it throws
    when the node is missing ([BaseNodeHandler.validateNodeExists]) and
    removes the node otherwise. *)
Definition workflowUpdater (nodeId : string) (workflow : Workflow)
  : error + Workflow :=
  let validation := WorkflowUtils.validateNodeExists workflow nodeId in
  if negb (nv_isValid validation)
  then inl (N8nApiError (join ", " (nv_errors validation)))
  else inr (snd (WorkflowUtils.removeNodeFromWorkflow workflow nodeId)).

(** The handler up to the workflow the API returns. *)
Definition execute {R : Type} (api : ApiService R Workflow)
    (workflowId nodeId : option string) : M R Workflow Workflow :=
  match required workflowId with
  | None => throw (N8nApiError "Missing required parameter: workflowId")
  | Some workflowId =>
  match required nodeId with
  | None => throw (N8nApiError "Missing required parameter: nodeId")
  | Some nodeId =>
      BaseNodeHandler.updateWorkflowSafely api workflowId
        (workflowUpdater nodeId) true
  end end.

End DeleteNodeHandler.

(** ** src/tools/workflow/update.ts *)

(** Values of type [any]. *)
#[local] Unset Elimination Schemes.
Inductive json : Type :=
| JNull
| JBool (b : bool)
| JNum (z : Z)
| JStr (s : string)
| JArr (items : list json)
| JObj (fields : list (string * json)).
#[local] Set Elimination Schemes.

(** The characters a Rocq string cannot hold literally. *)
Definition newline : string := String (Ascii.ascii_of_nat 10) EmptyString.
Definition dquote : string := String (Ascii.ascii_of_nat 34) EmptyString.

Module UpdateWorkflow.

(** Truthiness of a value that may be [undefined]. *)
Definition js_truthy (v : option json) : bool :=
  match v with
  | None | Some JNull => false
  | Some (JBool b) => b
  | Some (JNum z) => negb (z =? 0)%Z
  | Some (JStr s) => truthy s
  | Some (JArr _) | Some (JObj _) => true
  end.

(** [a === b], also the comparison a [Set] uses: primitives by value; two
    objects or arrays of a parsed document are never the same reference. *)
Definition same_value (a b : option json) : bool :=
  match a, b with
  | None, None => true
  | Some JNull, Some JNull => true
  | Some (JBool x), Some (JBool y) => bool_decide (x = y)
  | Some (JNum x), Some (JNum y) => bool_decide (x = y)
  | Some (JStr x), Some (JStr y) => bool_decide (x = y)
  | _, _ => false
  end.

(** [Array.isArray(v)] *)
Definition isArray (v : json) : bool :=
  match v with JArr _ => true | _ => false end.

(** A node as the tool receives it: a record of arbitrary properties. *)
Abbreviation AnyNode := (Obj.t json) (only parsing).

(** [node.id] *)
Definition idOf (node : AnyNode) : option json := Obj.get "id" node.

(** [{ ...a, ...b }] *)
Definition spread (a b : AnyNode) : AnyNode :=
  fold_left (λ acc '(k, v), Obj.put k v acc) b a.

(** The document as this handler sees it ([Record<string, any>]). *)
Record AnyWorkflow := mkAny {
  aw_id : option string;
  aw_name : option string;
  aw_active : option bool;
  aw_nodes : list AnyNode;
  aw_connections : Obj.t (Obj.t json);
  aw_settings : option (Obj.t json);
  aw_extra : Obj.t json
}.

Definition readOnlyFields : list string :=
  ["pinData"; "versionId"; "staticData"; "meta"; "shared"; "createdAt";
   "updatedAt"; "triggerCount"; "isArchived"; "tags"].

Definition cleanWorkflowForUpdate (workflow : AnyWorkflow) : AnyWorkflow :=
  mkAny None (aw_name workflow) None (aw_nodes workflow)
    (aw_connections workflow)
    ((λ s, Obj.remove "callerPolicy" (Obj.remove "callerIds" s))
       <$> aw_settings workflow)
    (fold_left (λ o k, Obj.remove k o) readOnlyFields (aw_extra workflow)).

Record UpdateValidation := mkUpdateValidation {
  uv_isValid : bool;
  uv_warnings : list string;
  uv_errors : list string
}.

(** The two-tier check of one cardinality; [what] is ["nodes"] or
    ["connections"].  [newCount < currentCount / 2] is a comparison of
    real numbers, hence [2 * newCount < currentCount]. *)
Definition countCheck (critical warning : nat → nat → string)
    (updateMode : string) (currentCount newCount : nat)
  : list string * list string :=
  if bool_decide (updateMode = "replace") then
    if bool_decide (0 < currentCount)%nat && bool_decide (newCount = 0%nat)
    then ([critical currentCount newCount], [])
    else if bool_decide (0 < currentCount)%nat
            && bool_decide (2 * newCount < currentCount)%nat
    then ([], [warning currentCount newCount])
    else ([], [])
  else ([], []).

Definition nodesCritical (currentNodeCount newNodeCount : nat) : string :=
  "CRITICAL: Attempting to delete all " +:+ pretty currentNodeCount
  +:+ " nodes! This would destroy the entire workflow.".

Definition nodesWarning (currentNodeCount newNodeCount : nat) : string :=
  "WARNING: Replacing " +:+ pretty currentNodeCount +:+ " nodes with only "
  +:+ pretty newNodeCount +:+ " nodes. This will delete "
  +:+ pretty (Z.of_nat currentNodeCount - Z.of_nat newNodeCount)
  +:+ " existing nodes.".

Definition connectionsCritical (currentConnectionCount newConnectionCount : nat)
  : string :=
  "CRITICAL: Attempting to delete all " +:+ pretty currentConnectionCount
  +:+ " connections! This would disconnect the entire workflow.".

Definition connectionsWarning (currentConnectionCount newConnectionCount : nat)
  : string :=
  "WARNING: Replacing " +:+ pretty currentConnectionCount
  +:+ " connections with only " +:+ pretty newConnectionCount
  +:+ " connections. This will delete "
  +:+ pretty (Z.of_nat currentConnectionCount - Z.of_nat newConnectionCount)
  +:+ " existing connections.".

(** [updates.nodes] and [updates.connections] are [undefined] ([None]) or
    the array of node objects and the connections object the tool's schema
    asks for, each source of which maps connection types to values. *)
Definition validateWorkflowUpdate (currentWorkflow : AnyWorkflow)
    (nodes : option (list AnyNode))
    (connections : option (Obj.t (Obj.t json)))
    (updateMode : string) : UpdateValidation :=
  let fromNodes :=
    match nodes with
    | Some ns =>
        countCheck nodesCritical nodesWarning updateMode
                   (length (aw_nodes currentWorkflow)) (length ns)
    | None => ([], [])
    end in
  let fromConnections :=
    match connections with
    | Some cs =>
        countCheck connectionsCritical connectionsWarning updateMode
                   (length (Obj.keys (aw_connections currentWorkflow)))
                   (length (Obj.keys cs))
    | None => ([], [])
    end in
  let errs := fst fromNodes ++ fst fromConnections in
  let warns := snd fromNodes ++ snd fromConnections in
  mkUpdateValidation (bool_decide (length errs = 0%nat)) warns errs.

(** *** mergeNodes *)

(** A JavaScript [Set] of values, in insertion order. *)
Definition idSet_has (x : option json) (s : list (option json)) : bool :=
  existsb (same_value x) s.

Definition idSet_add (x : option json) (s : list (option json))
  : list (option json) :=
  if idSet_has x s then s else s ++ [x].

(** One turn of the loop over [newNodes]. *)
Definition mergeNode (st : list AnyNode * list (option json))
    (newNode : AnyNode) : list AnyNode * list (option json) :=
  let '(merged, existingIds) := st in
  if js_truthy (idOf newNode) && idSet_has (idOf newNode) existingIds then
    match list_find (λ node, same_value (idOf node) (idOf newNode) = true)
                    merged with
    | Some (index, old) => (<[index := spread old newNode]> merged, existingIds)
    | None => (merged, existingIds)
    end
  else
    (merged ++ [newNode],
     if js_truthy (idOf newNode)
     then idSet_add (idOf newNode) existingIds
     else existingIds).

Definition mergeNodes (currentNodes newNodes : list AnyNode) : list AnyNode :=
  let existingIds :=
    fold_left (λ s n, idSet_add (idOf n) s) currentNodes [] in
  fst (fold_left mergeNode newNodes (currentNodes, existingIds)).

(** *** mergeConnections *)

(** [merged[sourceNode][connectionType] = connectionArrays], for a
    source that is a key of [merged]. *)
Definition assignType (sourceNode connectionType : string)
    (connectionArrays : json) (merged : Obj.t (Obj.t json))
  : Obj.t (Obj.t json) :=
  Obj.put sourceNode
    (Obj.write connectionType connectionArrays
                (default [] (Obj.get sourceNode merged)))
    merged.

(** One turn of the loop over the entries of [newConnections].  The value
    of an entry is an object here, so the test of line 143 succeeds.
    [merged[sourceNode]] is read through the prototype chain: for a
    source that is inherited and no key of [merged] it is a built-in
    object, which is truthy, so that no entry is made and the arrays are
    assigned to properties of that built-in object; [merged] keeps no
    trace of them.  (Such an assignment throws where the built-in object
    has the property read-only; the model has no result for that.) *)
Definition mergeSource (merged : Obj.t (Obj.t json))
    (entry : string * Obj.t json) : Obj.t (Obj.t json) :=
  let '(sourceNode, conns) := entry in
  if Obj.inherits sourceNode merged then merged else
  let merged1 :=
    match Obj.get sourceNode merged with
    | Some _ => merged
    | None => Obj.put sourceNode [] merged
    end in
  fold_left (λ m '(connectionType, connectionArrays),
               if isArray connectionArrays
               then assignType sourceNode connectionType connectionArrays m
               else m)
            conns merged1.

Definition mergeConnections (currentConnections : Obj.t (Obj.t json))
    (newConnections : Obj.t (Obj.t json)) : Obj.t (Obj.t json) :=
  fold_left mergeSource newConnections currentConnections.

(** *** UpdateWorkflowHandler.execute *)

Record UpdateArgs := mkArgs {
  arg_workflowId : option string;
  arg_name : option string;
  arg_nodes : option (list AnyNode);
  arg_connections : option (Obj.t (Obj.t json));
  arg_active : option bool;
  arg_tags : option (list string);
  arg_updateMode : option string;
  arg_force : option bool
}.

Definition blockedMessage (errs : list string) : string :=
  join newline
    (["Workflow update blocked for safety:"] ++ errs ++
     [""; "If you really want to perform this operation, use updateMode="
          +:+ dquote +:+ "replace" +:+ dquote +:+ " with force=true.";
      "Consider using the granular CRUD operations instead (add_node, delete_node, etc.)"]).

Definition warningMessage (warns : list string) : string :=
  join newline
    (["Workflow update has safety warnings:"] ++ warns ++
     [""; "Add force=true to proceed anyway, or use updateMode="
          +:+ dquote +:+ "merge" +:+ dquote +:+ " for safer updates.";
      "Consider using the granular CRUD operations instead (add_node, delete_node, etc.)"]).

(** Lines 239-257: the update applied to the cleaned document. *)
Definition applyUpdates (cleanedWorkflow : AnyWorkflow) (args : UpdateArgs)
    (updateMode : string) : AnyWorkflow :=
  let name' :=
    match arg_name args with
    | Some n => Some n
    | None => aw_name cleanedWorkflow
    end in
  let nodes' :=
    match arg_nodes args with
    | Some ns =>
        if bool_decide (updateMode = "merge")
        then mergeNodes (aw_nodes cleanedWorkflow) ns
        else ns
    | None => aw_nodes cleanedWorkflow
    end in
  let connections' :=
    match arg_connections args with
    | Some cs =>
        if bool_decide (updateMode = "merge")
        then mergeConnections (aw_connections cleanedWorkflow) cs
        else cs
    | None => aw_connections cleanedWorkflow
    end in
  mkAny (aw_id cleanedWorkflow) name' (aw_active cleanedWorkflow) nodes'
        connections' (aw_settings cleanedWorkflow) (aw_extra cleanedWorkflow).

(** The handler up to the workflow it reports; the wording of the success
    report ([formatSuccess]) is not part of the model.  [errorText] is the
    text [`${error}`] gives for an error caught from the API. *)
Definition execute {R : Type} (api : ApiService R AnyWorkflow)
    (errorText : error → string) (args : UpdateArgs)
  : M R AnyWorkflow AnyWorkflow :=
  let updateMode := default "merge" (arg_updateMode args) in
  let force := default false (arg_force args) in
  match arg_workflowId args with
  | None => throw (N8nApiError "Missing required parameter: workflowId")
  | Some workflowId =>
  if negb (truthy workflowId)
  then throw (N8nApiError "Missing required parameter: workflowId")
  else if negb (bool_decide (updateMode = "merge"))
          && negb (bool_decide (updateMode = "replace"))
  then throw (N8nApiError
                ("updateMode must be either " +:+ dquote +:+ "merge"
                 +:+ dquote +:+ " or " +:+ dquote +:+ "replace" +:+ dquote))
  else
    let! currentWorkflow := getWorkflow api workflowId in
    let validation :=
      validateWorkflowUpdate currentWorkflow (arg_nodes args)
                             (arg_connections args) updateMode in
    if negb (uv_isValid validation)
    then throw (N8nApiError (blockedMessage (uv_errors validation)))
    else if bool_decide (0 < length (uv_warnings validation))%nat
            && negb force
    then throw (N8nApiError (warningMessage (uv_warnings validation)))
    else
      let cleanedWorkflow :=
        applyUpdates (cleanWorkflowForUpdate currentWorkflow) args updateMode in
      try_catch
        (let! updatedWorkflow :=
           updateWorkflow api workflowId cleanedWorkflow in
         match arg_active args with
         | Some a =>
             if bool_decide (Some a = aw_active currentWorkflow)
             then ret updatedWorkflow
             else if a then activateWorkflow api workflowId
                  else deactivateWorkflow api workflowId
         | None => ret updatedWorkflow
         end)
        (λ e, throw (N8nApiError
                       ("Workflow update failed: " +:+ errorText e
                        +:+ ". Original workflow remains unchanged.")))
  end.

End UpdateWorkflow.


(** ** The handlers of the node and connection tools

    Each handler is modelled up to the workflow the API returns; the wording
    of the report it then formats is not part of the model.  The arguments
    of a call have the types the tool's schema declares, and an argument
    left out is [None]. *)

(** The arguments of [add_connection] and [remove_connection]. *)
Record ConnectionArgs := mkConnectionArgs {
  ca_workflowId : option string;
  ca_sourceNodeId : option string;
  ca_targetNodeId : option string;
  ca_sourceIndex : option Z;
  ca_targetIndex : option Z;
  ca_connectionType : option string
}.

(** The [ConnectionSpec] both handlers build, with the defaults of the
    destructuring filled in. *)
Definition connectionOf (args : ConnectionArgs)
    (sourceNodeId targetNodeId : string) : ConnectionSpec :=
  mkSpec sourceNodeId targetNodeId
         (Some (default 0%Z (ca_sourceIndex args)))
         (Some (default 0%Z (ca_targetIndex args)))
         (Some (default "main" (ca_connectionType args))).

(** *** src/tools/workflow/add-connection.ts *)

Module AddConnectionHandler.

(** A [TypeError] of the utility is not an [N8nApiError].  [onBuiltin]
    is what the engine makes of a call of the utility that goes on on a
    built-in object: [None] when the call returns [true], and the text
    [`${error}`] gives for the [TypeError] when it throws. *)
Definition workflowUpdater (onBuiltin : option string)
    (connection : ConnectionSpec) (workflow : Workflow)
  : error + Workflow :=
  and_then
    (BaseNodeHandler.validateNodesExist workflow
       [sourceNodeId connection; targetNodeId connection])
    (λ _,
       match WorkflowUtils.addConnectionToWorkflow workflow connection with
       | Returned true workflow' => inr workflow'
       | Returned false _ =>
           inl (N8nApiError
                  ("Failed to add connection from "
                   +:+ sourceNodeId connection +:+ " to "
                   +:+ targetNodeId connection))
       | Thrown e _ => inl (OtherError e)
       | OnBuiltin workflow' =>
           match onBuiltin with
           | None => inr workflow'
           | Some e => inl (OtherError e)
           end
       end).

Definition execute {R : Type} (api : ApiService R Workflow)
    (onBuiltin : option string) (args : ConnectionArgs)
  : M R Workflow Workflow :=
  match required (ca_workflowId args) with
  | None => throw (N8nApiError "Missing required parameter: workflowId")
  | Some workflowId =>
  match required (ca_sourceNodeId args) with
  | None => throw (N8nApiError "Missing required parameter: sourceNodeId")
  | Some sourceNodeId =>
  match required (ca_targetNodeId args) with
  | None => throw (N8nApiError "Missing required parameter: targetNodeId")
  | Some targetNodeId =>
      if bool_decide (sourceNodeId = targetNodeId)
      then throw (N8nApiError
                    "Cannot create connection: source and target nodes cannot be the same")
      else
        BaseNodeHandler.updateWorkflowSafely api workflowId
          (workflowUpdater onBuiltin
                           (connectionOf args sourceNodeId targetNodeId))
          true
  end end end.

End AddConnectionHandler.

(** *** src/tools/workflow/remove-connection.ts *)

Module RemoveConnectionHandler.

Definition notFound (connection : ConnectionSpec) : string :=
  "Connection not found: " +:+ sourceNodeId connection +:+ "["
  +:+ pretty (default 0%Z (sourceIndex connection)) +:+ "] → "
  +:+ targetNodeId connection +:+ "["
  +:+ pretty (default 0%Z (targetIndex connection)) +:+ "] ("
  +:+ default "main" (connectionType connection) +:+ ")".

Definition workflowUpdater (connection : ConnectionSpec)
    (workflow : Workflow) : error + Workflow :=
  and_then
    (BaseNodeHandler.validateNodesExist workflow
       [sourceNodeId connection; targetNodeId connection])
    (λ _,
       match WorkflowUtils.removeConnectionFromWorkflow workflow
               connection with
       | (true, workflow') => inr workflow'
       | (false, _) => inl (N8nApiError (notFound connection))
       end).

Definition execute {R : Type} (api : ApiService R Workflow)
    (args : ConnectionArgs) : M R Workflow Workflow :=
  match required (ca_workflowId args) with
  | None => throw (N8nApiError "Missing required parameter: workflowId")
  | Some workflowId =>
  match required (ca_sourceNodeId args) with
  | None => throw (N8nApiError "Missing required parameter: sourceNodeId")
  | Some sourceNodeId =>
  match required (ca_targetNodeId args) with
  | None => throw (N8nApiError "Missing required parameter: targetNodeId")
  | Some targetNodeId =>
      BaseNodeHandler.updateWorkflowSafely api workflowId
        (workflowUpdater (connectionOf args sourceNodeId targetNodeId))
        true
  end end end.

End RemoveConnectionHandler.

(** *** src/tools/workflow/update-node-name.ts *)

Module UpdateNodeNameHandler.

Definition workflowUpdater (nodeId newName : string) (workflow : Workflow)
  : error + Workflow :=
  and_then (BaseNodeHandler.validateNodeExists workflow nodeId)
    (λ _,
       match WorkflowUtils.updateNodeInWorkflow workflow nodeId
               (mkPartial None (Some newName) None None None None) with
       | (Some _, workflow') => inr workflow'
       | (None, _) =>
           inl (N8nApiError ("Failed to update node " +:+ nodeId))
       end).

Definition execute {R : Type} (api : ApiService R Workflow)
    (workflowId nodeId newName : option string) : M R Workflow Workflow :=
  match required workflowId with
  | None => throw (N8nApiError "Missing required parameter: workflowId")
  | Some workflowId =>
  match required nodeId with
  | None => throw (N8nApiError "Missing required parameter: nodeId")
  | Some nodeId =>
  match required newName with
  | None =>
      throw (N8nApiError "Missing or invalid required parameter: newName")
  | Some newName =>
      BaseNodeHandler.updateWorkflowSafely api workflowId
        (workflowUpdater nodeId newName) true
  end end end.

End UpdateNodeNameHandler.

(** *** src/tools/workflow/move-node.ts *)

Module MoveNodeHandler.

Definition workflowUpdater (nodeId : string) (newPosition : Z * Z)
    (workflow : Workflow) : error + Workflow :=
  and_then (BaseNodeHandler.validateNodeExists workflow nodeId)
    (λ _,
       match WorkflowUtils.updateNodeInWorkflow workflow nodeId
               (mkPartial None None None None (Some newPosition) None) with
       | (Some _, workflow') => inr workflow'
       | (None, _) =>
           inl (N8nApiError ("Failed to update node " +:+ nodeId))
       end).

(** [newPosition] is any value: it must be an array of two numbers. *)
Definition execute {R : Type} (api : ApiService R Workflow)
    (workflowId nodeId : option string) (newPosition : option json)
  : M R Workflow Workflow :=
  match required workflowId with
  | None => throw (N8nApiError "Missing required parameter: workflowId")
  | Some workflowId =>
  match required nodeId with
  | None => throw (N8nApiError "Missing required parameter: nodeId")
  | Some nodeId =>
  match newPosition with
  | Some (JArr [x; y]) =>
      match x, y with
      | JNum x, JNum y =>
          BaseNodeHandler.updateWorkflowSafely api workflowId
            (workflowUpdater nodeId (x, y)) true
      | _, _ =>
          throw (N8nApiError
                   "Invalid newPosition: coordinates must be numbers")
      end
  | _ =>
      throw (N8nApiError
               "Invalid newPosition: must be an array of [x, y] coordinates")
  end end end.

End MoveNodeHandler.

(** *** src/tools/workflow/update-node-parameters.ts *)

Module UpdateNodeParametersHandler.

(** [params] is the argument [parameters] of the call. *)
Definition workflowUpdater (nodeId : string) (params : Obj.t string)
    (mergeParameters : bool) (workflow : Workflow) : error + Workflow :=
  and_then (BaseNodeHandler.validateNodeExists workflow nodeId)
    (λ _,
       match WorkflowUtils.findNodeById workflow nodeId with
       | None => inl (N8nApiError ("Node " +:+ nodeId +:+ " not found"))
       | Some currentNode =>
           let newParameters :=
             if mergeParameters
             then Obj.spread (parameters currentNode) params
             else params in
           match WorkflowUtils.updateNodeInWorkflow workflow nodeId
                   (mkPartial None None None None None
                              (Some newParameters)) with
           | (Some _, workflow') => inr workflow'
           | (None, _) =>
               inl (N8nApiError ("Failed to update node " +:+ nodeId))
           end
       end).

Definition execute {R : Type} (api : ApiService R Workflow)
    (workflowId nodeId : option string)
    (params : option (Obj.t string)) (mergeParameters : option bool)
  : M R Workflow Workflow :=
  match required workflowId with
  | None => throw (N8nApiError "Missing required parameter: workflowId")
  | Some workflowId =>
  match required nodeId with
  | None => throw (N8nApiError "Missing required parameter: nodeId")
  | Some nodeId =>
  match params with
  | None =>
      throw (N8nApiError
               "Missing or invalid required parameter: parameters")
  | Some params =>
      BaseNodeHandler.updateWorkflowSafely api workflowId
        (workflowUpdater nodeId params (default true mergeParameters))
        true
  end end end.

End UpdateNodeParametersHandler.

(** *** src/tools/workflow/add-node.ts *)

Module AddNodeHandler.

(** [{ ...nodeConfig, position: position || nodeConfig.position || [0, 0],
      parameters: nodeConfig.parameters || {} }] *)
Definition nodeToAdd (nodeConfig : PartialNode) (position : option (Z * Z))
  : PartialNode :=
  mkPartial (p_id nodeConfig) (p_name nodeConfig) (p_type nodeConfig)
            (p_typeVersion nodeConfig)
            (Some (match position with
                   | Some p => p
                   | None => default (0, 0)%Z (p_position nodeConfig)
                   end))
            (Some (default [] (p_parameters nodeConfig))).

Definition workflowUpdater (nodeConfig : PartialNode)
    (position : option (Z * Z)) (workflow : Workflow) : error + Workflow :=
  inr (WorkflowUtils.addNodeToWorkflow workflow
         (nodeToAdd nodeConfig position) None).2.

Definition execute {R : Type} (api : ApiService R Workflow)
    (workflowId : option string) (nodeConfig : option PartialNode)
    (position : option (Z * Z)) : M R Workflow Workflow :=
  match required workflowId with
  | None => throw (N8nApiError "Missing required parameter: workflowId")
  | Some workflowId =>
  match nodeConfig with
  | None =>
      throw (N8nApiError
               "Missing or invalid required parameter: nodeConfig")
  | Some nodeConfig =>
  match required (p_type nodeConfig) with
  | None =>
      throw (N8nApiError "Missing required field in nodeConfig: type")
  | Some _ =>
      BaseNodeHandler.updateWorkflowSafely api workflowId
        (workflowUpdater nodeConfig position) true
  end end end.

End AddNodeHandler.

(** *** src/tools/workflow/update-multiple-nodes.ts *)

Module UpdateMultipleNodesHandler.

(** One entry of [Object.entries(updates)]. *)
Inductive FieldUpdate : Type :=
| SetId (value : string)
| SetName (value : string)
| SetType (value : string)
| SetTypeVersion (value : Z)
| SetPosition (value : Z * Z)
| SetParameters (value : Obj.t string).

(** [{ [field]: value }] *)
Definition single (update : FieldUpdate) : PartialNode :=
  match update with
  | SetId v => mkPartial (Some v) None None None None None
  | SetName v => mkPartial None (Some v) None None None None
  | SetType v => mkPartial None None (Some v) None None None
  | SetTypeVersion v => mkPartial None None None (Some v) None None
  | SetPosition v => mkPartial None None None None (Some v) None
  | SetParameters v => mkPartial None None None None None (Some v)
  end.

Record NodeUpdate := mkNodeUpdate {
  nu_nodeId : option string;
  nu_updates : option (list FieldUpdate)
}.

(** The loop that validates the update objects, [i] being the index of
    the head of [nodeUpdates]: the first fault found, or the updates with
    the node id and the fields every one of them has. *)
Fixpoint checkUpdates (i : nat) (nodeUpdates : list NodeUpdate)
  : error + list (string * list FieldUpdate) :=
  match nodeUpdates with
  | [] => inr []
  | update :: rest =>
      match required (nu_nodeId update), nu_updates update with
      | None, _ =>
          inl (N8nApiError ("Invalid nodeUpdate at index " +:+ pretty i
                            +:+ ": missing nodeId"))
      | Some _, None =>
          inl (N8nApiError ("Invalid nodeUpdate at index " +:+ pretty i
                            +:+ ": missing or invalid updates object"))
      | Some nodeId, Some updates =>
          and_then (checkUpdates (S i) rest)
                   (λ checked, inr ((nodeId, updates) :: checked))
      end
  end.

(** One turn of the loop over the fields of an update.  [currentIndex] is
    where [currentNode] sits in [workflow.nodes]: its parameters are read
    as they are by now. *)
Definition applyField (nodeId : string) (currentIndex : nat)
    (workflow : Workflow) (field : FieldUpdate) : Workflow :=
  match field with
  | SetParameters value =>
      let newParameters :=
        Obj.spread
          (default [] (parameters <$> nodes workflow !! currentIndex))
          value in
      (WorkflowUtils.updateNodeInWorkflow workflow nodeId
         (single (SetParameters newParameters))).2
  | _ => (WorkflowUtils.updateNodeInWorkflow workflow nodeId
            (single field)).2
  end.

(** One turn of the loop over [nodeUpdates]. *)
Definition applyUpdate (workflow : Workflow)
    (update : string * list FieldUpdate) : error + Workflow :=
  let '(nodeId, updates) := update in
  match list_find (λ n, node_id n = nodeId) (nodes workflow) with
  | None => inl (N8nApiError ("Node " +:+ nodeId +:+ " not found"))
  | Some (currentIndex, _) =>
      inr (fold_left (applyField nodeId currentIndex) updates workflow)
  end.

Definition workflowUpdater (nodeUpdates : list (string * list FieldUpdate))
    (workflow : Workflow) : error + Workflow :=
  and_then
    (BaseNodeHandler.validateNodesExist workflow (map fst nodeUpdates))
    (λ _,
       fold_left (λ acc update, and_then acc (λ w, applyUpdate w update))
                 nodeUpdates (inr workflow)).

Definition execute {R : Type} (api : ApiService R Workflow)
    (workflowId : option string) (nodeUpdates : option (list NodeUpdate))
  : M R Workflow Workflow :=
  match required workflowId with
  | None => throw (N8nApiError "Missing required parameter: workflowId")
  | Some workflowId =>
  match nodeUpdates with
  | None | Some [] =>
      throw (N8nApiError
               "Missing or invalid required parameter: nodeUpdates (must be a non-empty array)")
  | Some nodeUpdates =>
      match checkUpdates 0 nodeUpdates with
      | inl fault => throw fault
      | inr checked =>
          BaseNodeHandler.updateWorkflowSafely api workflowId
            (workflowUpdater checked) true
      end
  end end.

End UpdateMultipleNodesHandler.

(** ** src/tools/execution/execute.ts *)

Module ExecuteWorkflow.

(** An execution as the API reports it.  Instants ([startedAt],
    [stoppedAt], [Date.now()]) are milliseconds since the epoch; [ex_data]
    is the opaque payload and [ex_errorMessage] the text found at
    [data?.resultData?.error?.message]. *)
Record Execution := mkExecution {
  ex_workflowId : option string;
  finished : option bool;
  ex_status : option string;
  startedAt : Z;
  stoppedAt : option Z;
  ex_data : option string;
  ex_errorMessage : option string
}.

Record PollResult := mkPollResult {
  r_executionId : string;
  r_workflowId : option string;
  r_status : string;
  r_startTime : Z;
  r_endTime : Z;
  r_duration : Z;
  r_data : option string;
  r_error : option string
}.

(** The surroundings of the poll loop.  [getExecution n id t] is the
    answer to the [n]-th status request, sent at instant [t], with the
    instant at which the answer arrives; [setTimeout t d] is the instant
    at which a timer of [d] milliseconds set at [t] fires.  The clock is
    read by [Date.now()] and advances only across an [await]. *)
Record Env := mkEnv {
  getExecution : nat → string → Z → (error + Execution) * Z;
  setTimeout : Z → Z → Z
}.

Definition timeoutMs (timeoutSeconds : Z) : Z := timeoutSeconds * 1000.

(** [execution.finished !== undefined && execution.finished !== false] *)
Definition completed (execution : Execution) : bool :=
  match finished execution with
  | Some true => true
  | Some false | None => false
  end.

Definition completedResult (executionId : string) (startTime now : Z)
    (execution : Execution) : PollResult :=
  let status :=
    orElse (ex_status execution)
           (if completed execution then "success" else "error") in
  mkPollResult executionId
    (ex_workflowId execution)
    status
    (startedAt execution)
    (default now (stoppedAt execution))
    (match stoppedAt execution with
     | Some stop => stop - startedAt execution
     | None => now - startTime
     end)
    (ex_data execution)
    (if bool_decide (ex_status execution = Some "error")
     then ex_errorMessage execution else None).

Definition timeoutResult (executionId : string) (timeoutSeconds : Z)
    (startTime now : Z) : PollResult :=
  mkPollResult executionId None "timeout" startTime now
    (timeoutMs timeoutSeconds) None
    (Some ("Execution timed out after " +:+ pretty timeoutSeconds
           +:+ " seconds")).

(** The [while] loop; [None] when the fuel runs out before it ends. *)
Fixpoint pollLoop (fuel : nat) (env : Env) (executionId : string)
    (timeoutSeconds startTime now pollInterval : Z) (pollCount : nat)
  : option (error + PollResult) :=
  match fuel with
  | O => None
  | S fuel' =>
      if bool_decide (now - startTime < timeoutMs timeoutSeconds)%Z then
        match getExecution env pollCount executionId now with
        | (inl e, _) => Some (inl e)
        | (inr execution, now1) =>
            if completed execution
            then Some (inr (completedResult executionId startTime now1
                                            execution))
            else
              (* elapsedSeconds = (Date.now() - startTime) / 1000 *)
              let pollInterval' :=
                if bool_decide (90 * 1000 < now1 - startTime)%Z then 10000%Z
                else if bool_decide (30 * 1000 < now1 - startTime)%Z
                     then 5000%Z
                     else pollInterval in
              let now2 := setTimeout env now1 pollInterval' in
              pollLoop fuel' env executionId timeoutSeconds startTime now2
                       pollInterval' (S pollCount)
        end
      else Some (inr (timeoutResult executionId timeoutSeconds startTime now))
  end.

(** [now] is the instant of the call, which is also [startTime]. *)
Definition pollExecutionCompletion (fuel : nat) (env : Env)
    (executionId : string) (timeoutSeconds : Z) (now : Z)
  : option (error + PollResult) :=
  pollLoop fuel env executionId timeoutSeconds now now 2000 0.

(** *** executeWorkflow and executeWorkflowAsync *)

(** What a [ToolCallResult] of the handler carries.  The text of its
    one content entry is the JSON of a value, kept here as the value:
    the record of an execution that was started, with the instant it
    is stamped with, or the result of the polling; or it is the message
    of a failure. *)
Inductive Report : Type :=
| Started (executionId : string) (startTime : Z) (message : string)
| Polled (result : PollResult)
| Failure (text : string).

Record ToolCallResult := mkToolCallResult {
  content : Report;
  isError : option bool
}.

(** [apiService.executeWorkflow(workflowId, inputData)], called at an
    instant: the id of the execution it started, or the error it threw,
    and the instant of the answer. *)
Abbreviation Starter :=
  (string → option string → Z → (error + string) * Z) (only parsing).

(** The [catch] block of [executeWorkflow]; [errorMessage] stands for
    [error instanceof Error ? error.message : 'Unknown error']. *)
Definition failure (text : string) : ToolCallResult :=
  mkToolCallResult (Failure ("Error executing workflow: " +:+ text))
                   (Some true).

Definition executeWorkflow (fuel : nat) (env : Env) (start : Starter)
    (errorMessage : error → string)
    (workflowId inputData : option string)
    (waitForCompletion : option bool) (timeout : option Z) (now : Z)
  : option ToolCallResult :=
  match required workflowId with
  | None => Some (failure "Workflow ID is required")
  | Some workflowId =>
      match start workflowId inputData now with
      | (inl e, _) => Some (failure (errorMessage e))
      | (inr executionId, now1) =>
          if negb (default true waitForCompletion)
          then
            Some (mkToolCallResult
                    (Started executionId now1
                             ("Workflow execution " +:+ executionId
                              +:+ " started successfully"))
                    None)
          else
            match pollExecutionCompletion fuel env executionId
                    (default 300%Z timeout) now1 with
            | None => None
            | Some (inl e) => Some (failure (errorMessage e))
            | Some (inr result) =>
                Some (mkToolCallResult (Polled result) None)
            end
      end
  end.

Definition executeWorkflowAsync (start : Starter)
    (errorMessage : error → string)
    (workflowId inputData : option string) (now : Z) : ToolCallResult :=
  match required workflowId with
  | None =>
      mkToolCallResult
        (Failure ("Error executing workflow async: "
                  +:+ "Workflow ID is required"))
        (Some true)
  | Some workflowId =>
      match start workflowId inputData now with
      | (inl e, _) =>
          mkToolCallResult
            (Failure ("Error executing workflow async: "
                      +:+ errorMessage e))
            (Some true)
      | (inr executionId, now1) =>
          mkToolCallResult
            (Started executionId now1
                     ("Async workflow execution " +:+ executionId
                      +:+ " started successfully"))
            None
      end
  end.

End ExecuteWorkflow.

(** ** src/utils/workflow-utils.ts, the copy that addresses connections by id *)

(** The repository also holds an earlier copy of the utilities, in which the
    connections are keyed by node id; only its node removal differs in a way
    the properties below depend on.  Its loops are those of the later copy,
    with the node id where that one has the node name. *)
Module LegacyWorkflowUtils.

Definition outgoingSpecs (nodeId : string) (conns : Obj.t ConnectionArrays)
  : list ConnectionSpec :=
  flat_map (λ '(connectionType, connectionArrays),
    flat_map (λ connectionArray,
      map (λ connection,
             mkSpec nodeId (conn_node connection)
                    (Some (conn_index connection)) None (Some connectionType))
          connectionArray)
      connectionArrays)
    conns.

(** The record pushed for an incoming edge. *)
Definition incomingSpec (nodeId sourceNodeId connectionType : string)
    (i : nat) (connection : NodeConnection) : ConnectionSpec :=
  mkSpec sourceNodeId nodeId (Some (Z.of_nat i))
         (Some (conn_index connection)) (Some connectionType).

Definition removeNodeFromWorkflow (workflow : Workflow) (nodeId : string)
  : list ConnectionSpec * Workflow :=
  match list_find (λ n, node_id n = nodeId) (nodes workflow) with
  | None => ([], workflow)
  | Some (nodeIndex, _) =>
      let workflow1 := set_nodes workflow (delete nodeIndex (nodes workflow)) in
      let '(outgoing, conns1) :=
        match Obj.get nodeId (connections workflow1) with
        | Some own =>
            (outgoingSpecs nodeId own,
             Obj.remove nodeId (connections workflow1))
        | None => ([], connections workflow1)
        end in
      let r :=
        WorkflowUtils.incomingLoop
          (λ connection, bool_decide (conn_node connection = nodeId))
          (incomingSpec nodeId) outgoing conns1 in
      (fst r, set_connections workflow1 (snd r))
  end.

End LegacyWorkflowUtils.

(** * The vocabulary of the properties *)

(** The slot a specification addresses, empty when the path is missing. *)
Definition slotAt (w : Workflow) (sourceNodeName connectionType : string)
    (i : Z) : list NodeConnection :=
  default []
    (byType ← Obj.get sourceNodeName (connections w);
     slots ← Obj.get connectionType byType;
     at_index slots i).

(** How many edges of a slot a specification's edge matches. *)
Definition matching (tn : string) (ti : Z) (ty : string)
    (slot : list NodeConnection) : nat :=
  length (filter (λ c, WorkflowUtils.sameEdge tn ti ty c = true) slot).

(** The slot list a specification addresses, empty when there is none. *)
Definition addressedSlots (w : Workflow) (c : ConnectionSpec)
  : ConnectionArrays :=
  default []
    (sn ← WorkflowUtils.getNodeNameById w (sourceNodeId c);
     byType ← Obj.get sn (connections w);
     Obj.get (default "main" (connectionType c)) byType).

(** No source with an empty map of types, no type with an empty list of
    slots, no empty slot. *)
Definition slotsOk (slots : ConnectionArrays) : Prop :=
  slots ≠ [] ∧ Forall (λ slot, slot ≠ []) slots.

Definition typesOk (byType : Obj.t ConnectionArrays) : Prop :=
  byType ≠ [] ∧ Forall (λ e, slotsOk e.2) byType.

Definition noEmptyLeaves (conns : WorkflowConnections) : Prop :=
  Forall (λ e, typesOk e.2) conns.

(** A connections key that is some node's id and no node's name. *)
Definition corruptedKey (w : Workflow) (k : string) : Prop :=
  is_Some (WorkflowUtils.findNodeById w k)
  ∧ WorkflowUtils.findNodeByName w k = None.

(** The handler threw [e] after fetching the workflow and sent nothing else. *)
Definition blockedWith {R D A : Type} (res : (error + A) * World R D)
    (world : World R D) (workflowId : string) (e : error) : Prop :=
  res = (inl e, mkWorld (remote world) (calls world ++ [CallGet workflowId])).

(** The handler went on to send the update. *)
Definition sentUpdate {R D A : Type} (res : (error + A) * World R D)
    (world : World R D) (workflowId : string) : Prop :=
  ∃ body rest,
    calls res.2
    = calls world ++ [CallGet workflowId; CallUpdate workflowId body] ++ rest.

(** The update names the node: some incoming node carries a truthy id equal
    to the node's. *)
Definition mentions (newNodes : list UpdateWorkflow.AnyNode)
    (node : UpdateWorkflow.AnyNode) : Prop :=
  ∃ m, m ∈ newNodes ∧ UpdateWorkflow.js_truthy (UpdateWorkflow.idOf m) = true
       ∧ UpdateWorkflow.same_value (UpdateWorkflow.idOf node)
                                   (UpdateWorkflow.idOf m) = true.

(** Every status request sent before the timeout has elapsed is answered,
    not before it was sent, by a record that is not finished. *)
Definition neverFinished (env : ExecuteWorkflow.Env) (executionId : string)
    (timeoutSeconds startTime : Z) : Prop :=
  ∀ n t, (t - startTime < ExecuteWorkflow.timeoutMs timeoutSeconds)%Z →
         ∃ execution t',
           ExecuteWorkflow.getExecution env n executionId t
           = (inr execution, t')
           ∧ ExecuteWorkflow.completed execution = false ∧ (t ≤ t')%Z.

(** A timer does not fire early. *)
Definition timersOnTime (env : ExecuteWorkflow.Env) : Prop :=
  ∀ t d, (t + d ≤ ExecuteWorkflow.setTimeout env t d)%Z.

(** ** Sample documents and surroundings *)

Definition docOf (ns : list WorkflowNode) (conns : WorkflowConnections)
  : Workflow :=
  mkWorkflow (Some "wf1") "Test Workflow" (Some false) ns conns None [].

Definition twoNodes (nameA nameB : string) : list WorkflowNode :=
  [mkNode "a" nameA "n8n-nodes-base.start" 1 (0, 0)%Z [];
   mkNode "b" nameB "n8n-nodes-base.set" 1 (200, 0)%Z []].

Definition specAB : ConnectionSpec := mkSpec "a" "b" None None None.

Definition threeSlots : WorkflowConnections :=
  [("A", [("main", [[mkConn "B" "main" 0];
                    [mkConn "B" "main" 1];
                    [mkConn "B" "main" 2]])])].

Definition chainNodes : list WorkflowNode :=
  [mkNode "a" "A" "n8n-nodes-base.start" 1 (0, 0)%Z [];
   mkNode "b" "B" "n8n-nodes-base.httpRequest" 1 (200, 0)%Z [];
   mkNode "c" "C" "n8n-nodes-base.set" 1 (400, 0)%Z []].

(** Three nodes chained by single edges, A → B → C. *)
Definition chain : Workflow :=
  docOf chainNodes
        [("A", [("main", [[mkConn "B" "main" 0]])]);
         ("B", [("main", [[mkConn "C" "main" 0]])])].

(** The fixture of the unit tests: ids are [node1] and [node2], the names
    differ from the ids, and the connections are keyed by id. *)
Definition testFixture : Workflow :=
  mkWorkflow (Some "workflow-123") "Test Workflow" (Some false)
    [mkNode "node1" "Start Node" "n8n-nodes-base.start" 1 (100, 200)%Z [];
     mkNode "node2" "HTTP Request" "n8n-nodes-base.httpRequest" 1
            (300, 200)%Z [("url", "https://api.example.com");
                          ("method", "GET")]]
    [("node1", [("main", [[mkConn "node2" "main" 0]])])]
    None
    [("createdAt", "2025-01-01T00:00:00.000Z");
     ("updatedAt", "2025-01-01T00:00:00.000Z")].

(** A remote that stores one workflow and accepts every request. *)
Definition singleStore : ApiService Workflow Workflow :=
  mkApi (λ _ r, inr r) (λ _ body _, (inr body, body))
        (λ _ r, (inr r, r)) (λ _ r, (inr r, r)).

(** A mutator that files a connection under a name no node has. *)
Definition addGhostSource (w : Workflow) : error + Workflow :=
  inr (set_connections w
         (Obj.put "ghost" [("main", [[mkConn "B" "main" 0]])]
                  (connections w))).

Definition tenNodes : list UpdateWorkflow.AnyNode :=
  (λ i : nat, [("id", JStr ("n" +:+ pretty i)); ("name", JStr "Step")])
    <$> seq 1 10.

Definition tenNodeWorkflow : UpdateWorkflow.AnyWorkflow :=
  UpdateWorkflow.mkAny (Some "wf1") (Some "Ten steps") (Some false)
                       tenNodes [] None [].

Definition anyStore
  : ApiService UpdateWorkflow.AnyWorkflow UpdateWorkflow.AnyWorkflow :=
  mkApi (λ _ r, inr r) (λ _ body _, (inr body, body))
        (λ _ r, (inr r, r)) (λ _ r, (inr r, r)).

Definition renderError (e : error) : string :=
  match e with
  | N8nApiError m => "Error: " +:+ m
  | OtherError text => text
  end.

Definition wipeArgs : UpdateWorkflow.UpdateArgs :=
  UpdateWorkflow.mkArgs (Some "wf1") None (Some []) None None None
                        (Some "replace") (Some true).

Definition runningExecution : ExecuteWorkflow.Execution :=
  ExecuteWorkflow.mkExecution (Some "wf1") (Some false) (Some "running") 0
                              None None None.

(** Every request takes 100 ms and reports a running execution; timers fire
    on time. *)
Definition slowRun : ExecuteWorkflow.Env :=
  ExecuteWorkflow.mkEnv (λ _ _ t, (inr runningExecution, t + 100)%Z)
                        (λ t d, (t + d)%Z).

(** ** The vocabulary of the properties of the node tools *)

(** The names of the nodes, in document order. *)
Definition namesOf (w : Workflow) : list string := map node_name (nodes w).

(** The ids of the nodes, in document order. *)
Definition idsOf (w : Workflow) : list string := map node_id (nodes w).

(** Every key of an entry of the connections and every target under it is
    the name of a node. *)
Definition namesResolve (names : list string)
    (entry : string * Obj.t ConnectionArrays) : Prop :=
  entry.1 ∈ names
  ∧ Forall (λ byType : string * ConnectionArrays,
              Forall (Forall (λ c, conn_node c ∈ names)) byType.2)
           entry.2.

(** No two nodes share an id, no two share a name, and the connections
    mention names of nodes only. *)
Definition wellFormed (w : Workflow) : Prop :=
  NoDup (idsOf w) ∧ NoDup (namesOf w)
  ∧ Forall (namesResolve (namesOf w)) (connections w).

(** The requests a handler sent, after those sent before it ran. *)
Definition sent {R D A : Type} (res : (error + A) * World R D)
    (world : World R D) (requests : list (ApiCall D)) : Prop :=
  calls res.2 = calls world ++ requests.

(** What the [catch] block of [updateWorkflowSafely] rethrows. *)
Definition rethrown (e : error) : error :=
  match e with
  | N8nApiError _ => e
  | OtherError text => N8nApiError ("Failed to update workflow: " +:+ text)
  end.

(** The world once the workflow was fetched and nothing else was sent. *)
Definition fetched {R D : Type} (workflowId : string) (world : World R D)
  : World R D :=
  mkWorld (remote world) (calls world ++ [CallGet workflowId]).

(** The names the connections mention, as keys and as targets of edges. *)
Definition mentionedNames (conns : WorkflowConnections) : list string :=
  flat_map (λ '(sourceNodeName, byType),
              sourceNodeName
              :: flat_map (λ '(_, slots), flat_map (map conn_node) slots)
                          byType)
           conns.

(** No object of the connections has a key twice, as in every object that
    [JSON.parse] builds. *)
Definition keysDistinct (conns : WorkflowConnections) : Prop :=
  NoDup (Obj.keys conns) ∧ Forall (λ e, NoDup (Obj.keys e.2)) conns.

(** A field update that sets neither the id nor the name of a node. *)
Definition keepsIdentity (field : UpdateMultipleNodesHandler.FieldUpdate)
  : Prop :=
  match field with
  | UpdateMultipleNodesHandler.SetId _
  | UpdateMultipleNodesHandler.SetName _ => False
  | _ => True
  end.

(** The error [validateNodeExists] reports for an id. *)
Definition nodeNotFound (nodeId : string) : string :=
  "Node with ID '" +:+ nodeId +:+ "' not found in workflow".

(** What an update that leaves ids and names alone keeps of a workflow. *)
Definition sameIdentity (w' w : Workflow) : Prop :=
  idsOf w' = idsOf w ∧ namesOf w' = namesOf w
  ∧ connections w' = connections w.

(** What [update_workflow] throws when a request fails after its checks. *)
Definition updateFailed (errorText : error → string) (e : error) : error :=
  N8nApiError ("Workflow update failed: " +:+ errorText e
               +:+ ". Original workflow remains unchanged.").

(** The request that switches a workflow on or off. *)
Definition toggleCall {D : Type} (wanted : bool) (workflowId : string)
  : ApiCall D :=
  if wanted then CallActivate workflowId else CallDeactivate workflowId.

(** The answer of the API to that request. *)
Definition toggleAnswer {R D : Type} (api : ApiService R D) (wanted : bool)
    (workflowId : string) (r : R) : (error + D) * R :=
  if wanted then api_activateWorkflow api workflowId r
  else api_deactivateWorkflow api workflowId r.

(** [conns[source]?.[connectionType]] *)
Definition typeAt (conns : Obj.t (Obj.t json)) (source connectionType : string)
  : option json :=
  byType ← Obj.get source conns; Obj.get connectionType byType.

(** The id of a node is a string that is not empty. *)
Definition hasStringId (node : UpdateWorkflow.AnyNode) : Prop :=
  ∃ s, UpdateWorkflow.idOf node = Some (JStr s) ∧ truthy s = true.

(** The answer to a status request does not arrive before the request was
    sent. *)
Definition answersNotEarly (env : ExecuteWorkflow.Env) : Prop :=
  ∀ n executionId t, (t ≤ (ExecuteWorkflow.getExecution env n executionId t).2)%Z.

(** What the loops over the incoming edges are meant to leave, for a test
    [hit] of the edges to take out: the slots without those edges and
    without the slots left empty, the types without those left without
    slots, the sources without those left without types. *)
Section pruned.
Variable hit : NodeConnection → bool.

Definition pruneSlots (slots : ConnectionArrays) : ConnectionArrays :=
  filter (λ slot, slot ≠ []) (map (filter (λ c, hit c = false)) slots).

Definition pruneTypes (byType : Obj.t ConnectionArrays)
  : Obj.t ConnectionArrays :=
  omap (λ '(connectionType, slots),
          match pruneSlots slots with
          | [] => None
          | kept => Some (connectionType, kept)
          end)
       byType.

Definition pruneSources (conns : WorkflowConnections)
  : WorkflowConnections :=
  omap (λ '(sourceNodeName, byType),
          match pruneTypes byType with
          | [] => None
          | kept => Some (sourceNodeName, kept)
          end)
       conns.
End pruned.

(** Every edge of the connections, in the order of the sources, of their
    types and of their slots. *)
Definition edgesOf (conns : WorkflowConnections) : list NodeConnection :=
  flat_map (λ entry, flat_map (λ typed, concat typed.2) entry.2) conns.

(** The two tiers of the guard of a replace-mode update, on the size a
    list has now and the size it would get. *)
Definition emptiesOut (sizes : nat * nat) : Prop :=
  (0 < sizes.1)%nat ∧ sizes.2 = 0%nat.

Definition halves (sizes : nat * nat) : Prop :=
  (0 < sizes.2)%nat ∧ (2 * sizes.2 < sizes.1)%nat.

(** The sizes the guard compares: those of the node lists when the call
    carries nodes, then those of the sources of the connections when it
    carries connections. *)
Definition guardedSizes (current : UpdateWorkflow.AnyWorkflow)
    (args : UpdateWorkflow.UpdateArgs) : list (nat * nat) :=
  match UpdateWorkflow.arg_nodes args with
  | Some ns => [(length (UpdateWorkflow.aw_nodes current), length ns)]
  | None => []
  end
  ++ match UpdateWorkflow.arg_connections args with
     | Some cs =>
         [(length (Obj.keys (UpdateWorkflow.aw_connections current)),
           length (Obj.keys cs))]
     | None => []
     end.

(** ** Further sample documents and surroundings *)

(** The remote holds the chain, and nothing was sent yet. *)
Definition chainWorld : World Workflow Workflow := mkWorld chain [].

(** The three nodes of the chain with no connection between them. *)
Definition loose : Workflow := docOf chainNodes [].

Definition looseWorld : World Workflow Workflow := mkWorld loose [].

Definition nodeB : WorkflowNode :=
  mkNode "b" "B" "n8n-nodes-base.httpRequest" 1 (200, 0)%Z [].

(** A mutator that throws something that is no [N8nApiError]. *)
Definition failingUpdater (w : Workflow) : error + Workflow :=
  inl (OtherError "TypeError: boom").

(** The arguments of a connection from [a] to [c] of a workflow. *)
Definition argsAC (sourceIndex : option Z) : ConnectionArgs :=
  mkConnectionArgs (Some "wf1") (Some "a") (Some "c") sourceIndex None None.

(** The arguments of the connection from [a] to [b]. *)
Definition argsAB : ConnectionArgs :=
  mkConnectionArgs (Some "wf1") (Some "a") (Some "b") None None None.

(** A node configuration that gives a type only. *)
Definition codeNode : PartialNode :=
  mkPartial None None (Some "n8n-nodes-base.code") None None None.

(** Two of the ten nodes, renamed, and one new node. *)
Definition someNodes : list UpdateWorkflow.AnyNode :=
  [[("id", JStr "n1"); ("name", JStr "First")];
   [("id", JStr "n11"); ("name", JStr "Extra")]].


(** The same update, with the workflow to be switched on. *)
Definition activateArgs : UpdateWorkflow.UpdateArgs :=
  UpdateWorkflow.mkArgs (Some "wf1") None (Some someNodes) None (Some true)
                        None None None.

(** A remote that stores what it is sent and refuses to activate. *)
Definition noActivation
  : ApiService UpdateWorkflow.AnyWorkflow UpdateWorkflow.AnyWorkflow :=
  mkApi (λ _ r, inr r) (λ _ body _, (inr body, body))
        (λ _ r, (inl (OtherError "Error: Request failed with status code 400"),
                 r))
        (λ _ r, (inr r, r)).

(** A replace-mode update that keeps four of the ten nodes. *)
Definition shrinkArgs (force : option bool) : UpdateWorkflow.UpdateArgs :=
  UpdateWorkflow.mkArgs (Some "wf1") None (Some (take 4 tenNodes)) None None
                        None (Some "replace") force.

(** Connections of two sources, as an update carries them. *)
Definition currentLinks : Obj.t (Obj.t json) :=
  [("A", [("main", JArr [JArr [JStr "B"]]); ("error", JArr [JArr [JStr "C"]])]);
   ("B", [("main", JArr [JArr [JStr "C"]])])].

Definition newLinks : Obj.t (Obj.t json) :=
  [("A", [("main", JArr [JArr [JStr "C"]]); ("error", JStr "none")])].

(** The third status request finds the execution finished; every request
    takes 100 ms and timers fire on time. *)
Definition finishedExecution : ExecuteWorkflow.Execution :=
  ExecuteWorkflow.mkExecution (Some "wf1") (Some true) (Some "success") 0
                              (Some 4300%Z) (Some "{}") None.

Definition quickRun : ExecuteWorkflow.Env :=
  ExecuteWorkflow.mkEnv
    (λ n _ t, (inr (if bool_decide (n < 2)%nat then runningExecution
                    else finishedExecution), t + 100)%Z)
    (λ t d, (t + d)%Z).

(** An API that starts every execution at once, under one id. *)
Definition startsAtOnce (workflowId : string) (inputData : option string)
    (now : Z) : (error + string) * Z :=
  (inr "exec-1", now).

(** A key that reads the same through the prototype chain as among the
    keys of an object: it is none of the properties of
    [Object.prototype]. *)
Definition plainKey (k : string) : Prop := k ∉ Obj.inheritedKeys.

(** The sources of an update of the connections and the types under them
    are plain keys. *)
Definition plainKeys (newConnections : Obj.t (Obj.t json)) : Prop :=
  Forall (λ e, plainKey e.1 ∧ Forall (λ typed, plainKey typed.1) e.2)
         newConnections.

(** What one field update makes of a node: new parameters are merged into
    those the node has, every other field gets the new value. *)
Definition applyOne (node : WorkflowNode)
    (field : UpdateMultipleNodesHandler.FieldUpdate) : WorkflowNode :=
  match field with
  | UpdateMultipleNodesHandler.SetParameters value =>
      assign node
        (UpdateMultipleNodesHandler.single
           (UpdateMultipleNodesHandler.SetParameters
              (Obj.spread (parameters node) value)))
  | _ => assign node (UpdateMultipleNodesHandler.single field)
  end.

(** The field updates addressed to a node id, in the order of the list of
    updates. *)
Definition fieldsFor (nodeId : string)
    (updates : list (string * list UpdateMultipleNodesHandler.FieldUpdate))
  : list UpdateMultipleNodesHandler.FieldUpdate :=
  flat_map (λ update, if decide (update.1 = nodeId) then update.2 else [])
           updates.

(** A node after the field updates addressed to its id. *)
Definition updatedNode
    (updates : list (string * list UpdateMultipleNodesHandler.FieldUpdate))
    (node : WorkflowNode) : WorkflowNode :=
  fold_left applyOne (fieldsFor (node_id node) updates) node.

(** An update of node [b] of the chain: a new position, then a parameter. *)
Definition moveAndSet
  : list (string * list UpdateMultipleNodesHandler.FieldUpdate) :=
  [("b", [UpdateMultipleNodesHandler.SetPosition (1, 2)%Z;
          UpdateMultipleNodesHandler.SetParameters [("url", "http://x")]])].

Definition moveAndSetArgs : list UpdateMultipleNodesHandler.NodeUpdate :=
  (λ update, UpdateMultipleNodesHandler.mkNodeUpdate (Some update.1)
                                                     (Some update.2))
    <$> moveAndSet.

(** * Properties *)

(** ** Ordered dictionaries *)

Section obj_facts.
Context {V : Type}.
Implicit Types (o : Obj.t V) (k : string) (v : V).

Lemma get_put_eq k v o : Obj.get k (Obj.put k v o) = Some v.
Proof.
  induction o as [|[k' v'] o IH]; simpl.
  - by rewrite decide_True.
  - destruct (decide (k' = k)) as [->|Hne]; simpl.
    + by rewrite decide_True.
    + by rewrite decide_False.
Qed.

Lemma get_put_ne k k' v o :
  k ≠ k' → Obj.get k' (Obj.put k v o) = Obj.get k' o.
Proof.
  intros Hne. induction o as [|[k0 v0] o IH]; simpl.
  - by rewrite decide_False.
  - destruct (decide (k0 = k)) as [->|Hne0]; simpl.
    + by rewrite !decide_False.
    + destruct (decide (k0 = k')); [done|apply IH].
Qed.

Lemma put_put_eq k v v' o : Obj.put k v (Obj.put k v' o) = Obj.put k v o.
Proof.
  induction o as [|[k0 v0] o IH]; simpl.
  - by rewrite decide_True.
  - destruct (decide (k0 = k)) as [->|Hne]; simpl.
    + by rewrite decide_True.
    + rewrite decide_False by done. by rewrite IH.
Qed.

Lemma get_remove_eq k o : Obj.get k (Obj.remove k o) = None.
Proof.
  induction o as [|[k0 v0] o IH]; simpl; [done|].
  destruct (decide (k0 = k)) as [->|Hne]; simpl; [done|].
  by rewrite decide_False.
Qed.

Lemma get_remove_ne k k' o :
  k ≠ k' → Obj.get k' (Obj.remove k o) = Obj.get k' o.
Proof.
  intros Hne. induction o as [|[k0 v0] o IH]; simpl; [done|].
  destruct (decide (k0 = k)) as [->|Hne0]; simpl.
  - by rewrite decide_False.
  - destruct (decide (k0 = k')); [done|apply IH].
Qed.

Lemma get_Some_elem k v o : Obj.get k o = Some v → (k, v) ∈ o.
Proof.
  induction o as [|[k0 v0] o IH]; simpl; [done|].
  destruct (decide (k0 = k)) as [->|Hne].
  - intros [= ->]. left.
  - intros H. right. by apply IH.
Qed.

Lemma get_None_keys k o : Obj.get k o = None ↔ k ∉ Obj.keys o.
Proof.
  unfold Obj.keys. induction o as [|[k0 v0] o IH]; simpl.
  - split; [intros _; apply not_elem_of_nil|done].
  - destruct (decide (k0 = k)) as [->|Hne].
    + split; [done|]. intros H. exfalso. apply H. left.
    + rewrite IH, not_elem_of_cons. split; [by intros ?|by intros [_ ?]].
Qed.

Lemma elem_put k v o e :
  e ∈ Obj.put k v o → e = (k, v) ∨ e ∈ o.
Proof.
  induction o as [|[k0 v0] o IH]; simpl.
  - rewrite list_elem_of_singleton. by left.
  - destruct (decide (k0 = k)) as [->|Hne].
    + rewrite !elem_of_cons. intros [->|He]; [by left|by right; right].
    + rewrite !elem_of_cons. intros [->|He]; [by right; left|].
      destruct (IH He) as [->|?]; [by left|by right; right].
Qed.

Lemma elem_remove k o e : e ∈ Obj.remove k o → e ∈ o ∧ e.1 ≠ k.
Proof.
  induction o as [|[k0 v0] o IH]; simpl.
  - by rewrite elem_of_nil.
  - destruct (decide (k0 = k)) as [->|Hne].
    + intros H. destruct (IH H). split; [by right|done].
    + rewrite !elem_of_cons. intros [->|H]; [by split; [left|]|].
      destruct (IH H). split; [by right|done].
Qed.

Lemma put_nonempty k v o : Obj.put k v o ≠ [].
Proof. destruct o as [|[k0 v0] o]; simpl; [done|]. by case_decide. Qed.
End obj_facts.

(** ** Keys read through the prototype chain *)

Section prototype_facts.
Context {V : Type}.
Implicit Types o : Obj.t V.

Lemma inherits_plain k o : plainKey k → Obj.inherits k o = false.
Proof.
  intros Hk. unfold Obj.inherits. by rewrite bool_decide_eq_false_2.
Qed.



Lemma write_put k v o : k ≠ "__proto__" → Obj.write k v o = Obj.put k v o.
Proof.
  intros Hk. unfold Obj.write. by rewrite bool_decide_eq_false_2.
Qed.

Lemma write_plain k v o : plainKey k → Obj.write k v o = Obj.put k v o.
Proof.
  intros Hk. apply write_put. intros ->. apply Hk. compute_done.
Qed.
End prototype_facts.

(** ** addConnectionToWorkflow *)

Section add_connection.
Import WorkflowUtils.

Lemma findNodeById_set_connections w conns i :
  findNodeById (set_connections w conns) i = findNodeById w i.
Proof. reflexivity. Qed.


Lemma validateNodesExist_pair w a b :
  is_Some (findNodeById w a) → is_Some (findNodeById w b) →
  isValid (validateNodesExist w [a; b]) = true.
Proof.
  intros [na Ha] [nb Hb]. unfold validateNodesExist, validateNodeExists.
  simpl. rewrite Ha, Hb. done.
Qed.

Lemma padSlots_length arr i :
  (Z.of_nat (length (padSlots arr i)) = Z.max (Z.of_nat (length arr)) (i + 1))%Z.
Proof. unfold padSlots. rewrite length_app, length_replicate. lia. Qed.

Lemma padSlots_long arr i :
  (i < Z.of_nat (length arr))%Z → padSlots arr i = arr.
Proof.
  intros H. unfold padSlots.
  replace (Z.to_nat (i + 1 - Z.of_nat (length arr))) with 0%nat by lia.
  apply app_nil_r.
Qed.

Lemma at_index_Some {A} (arr : list A) i x :
  at_index arr i = Some x ↔ (0 ≤ i)%Z ∧ arr !! Z.to_nat i = Some x.
Proof.
  unfold at_index. case_decide; split.
  - by intros ?.
  - by intros [_ ?].
  - done.
  - by intros [? _].
Qed.

Lemma at_index_padSlots arr i :
  (0 ≤ i)%Z → is_Some (at_index (padSlots arr i) i).
Proof.
  intros Hi. unfold at_index. rewrite decide_True by done.
  apply lookup_lt_is_Some. pose proof (padSlots_length arr i). lia.
Qed.

Lemma existsb_matching tn ti ty slot :
  existsb (sameEdge tn ti ty) slot = true ↔ (0 < matching tn ti ty slot)%nat.
Proof.
  unfold matching. induction slot as [|e slot IH]; cbn [existsb].
  - rewrite filter_nil. simpl. split; [done|lia].
  - rewrite filter_cons. destruct (sameEdge tn ti ty e) eqn:He.
    + rewrite decide_True by done. simpl. split; [lia|done].
    + rewrite decide_False by done. apply IH.
Qed.

Lemma sameEdge_new tn ti ty : sameEdge tn ti ty (mkConn tn ty ti) = true.
Proof.
  unfold sameEdge. simpl. by rewrite !bool_decide_eq_true_2.
Qed.

(** What a successful call leaves in the document. *)
Lemma add_success w c sn tn :
  getNodeNameById w (sourceNodeId c) = Some sn →
  getNodeNameById w (targetNodeId c) = Some tn →
  truthy sn = true → truthy tn = true →
  (0 ≤ default 0 (sourceIndex c))%Z →
  let i := default 0%Z (sourceIndex c) in
  let ti := default 0%Z (targetIndex c) in
  let ty := default "main" (connectionType c) in
  let byType := default [] (Obj.get sn (connections w)) in
  let slots := padSlots (default [] (Obj.get ty byType)) i in
  Obj.inherits sn (connections w) = false →
  Obj.inherits ty byType = false →
  ∃ slot,
    at_index slots i = Some slot ∧
    addConnectionToWorkflow w c =
      Returned true
        (set_connections w
           (Obj.put sn
              (Obj.put ty
                 (<[Z.to_nat i :=
                      if existsb (sameEdge tn ti ty) slot then slot
                      else slot ++ [mkConn tn ty ti]]> slots)
                 byType)
              (connections w))).
Proof.
  intros Hs Ht Hsn Htn Hi i ti ty byType slots Hown Hown'.
  destruct (at_index_padSlots (default [] (Obj.get ty byType)) i Hi)
    as [slot Hslot].
  exists slot. split; [done|].
  unfold addConnectionToWorkflow.
  rewrite validateNodesExist_pair.
  2,3: unfold getNodeNameById in *;
       match goal with
       | H : _ <$> ?x = Some _ |- is_Some ?x => destruct x; [eauto|done]
       end.
  cbn [negb]. rewrite Hs, Ht, Hsn, Htn. cbn [negb orb].
  subst i ti ty byType slots. by rewrite Hown, Hown', Hslot.
Qed.

End add_connection.

Section add_connection_claims.
Import WorkflowUtils.

Lemma at_index_padSlots_inv arr i slot :
  at_index (padSlots arr i) i = Some slot →
  slot = default [] (at_index arr i).
Proof.
  intros [Hi H]%at_index_Some. unfold at_index, padSlots in *.
  rewrite decide_True by done.
  destruct (decide (Z.to_nat i < length arr)%nat) as [Hlt|Hge].
  - rewrite lookup_app_l in H by done. by rewrite H.
  - rewrite lookup_app_r in H by lia.
    apply lookup_replicate in H as [-> _].
    by rewrite lookup_ge_None_2 by lia.
Qed.



(** ** C6 *)




(** Nor does the slot hold exactly one matching edge when the document
    came with the edge stored twice. *)
Lemma addConnection_keeps_duplicates :
  let e := mkConn "B" "main" 0 in
  let w := docOf (twoNodes "A" "B") [("A", [("main", [[e; e]])])] in
  addConnectionToWorkflow w specAB = Returned true w
  ∧ matching "B" 0 "main" (slotAt w "A" "main" 0) = 2%nat.
Proof. by vm_compute. Qed.

(** Nor is an edge stored in the document when the source node is named
    like a property of [Object.prototype]: the call finds the built-in
    object under that name and goes on there, and the document stays as
    it was.  With a connection type of such a name the source gets its
    entry, and what the call finds under the type is a built-in object
    again. *)
Lemma addConnection_inherited_name :
  let w := docOf (twoNodes "constructor" "B") [] in
  addConnectionToWorkflow w specAB = OnBuiltin w
  ∧ addConnectionToWorkflow (docOf (twoNodes "A" "B") [])
      (mkSpec "a" "b" None None (Some "toString"))
    = OnBuiltin (docOf (twoNodes "A" "B") [("A", [])]).
Proof. by vm_compute. Qed.

(** A negative source index makes the call throw. *)
Lemma addConnection_negative_index :
  ∃ e w1,
    addConnectionToWorkflow (docOf (twoNodes "A" "B") [])
                            (mkSpec "a" "b" (Some (-1)%Z) None None)
    = Thrown e w1.
Proof. by vm_compute; eauto. Qed.
End add_connection_claims.

(** ** removeConnectionFromWorkflow *)

Section remove_connection.
Import WorkflowUtils.

Lemma list_find_singleton_match {A} (P : A → Prop) `{∀ x, Decision (P x)}
    (x : A) :
  P x → list_find P [x] = Some (0%nat, x).
Proof. intros HP. cbn. by rewrite decide_True. Qed.

(** ** C10 *)

(** C10.  When the slot list of the addressed source and type has at least
    two slots and the addressed slot holds just the edge to remove,
    [removeConnectionFromWorkflow] returns [true] and splices that slot out
    of the list: every slot that stood at an index [k] above it is
    afterwards found at index [k - 1]. *)
Theorem removeConnection_shifts_slots (w : Workflow) (c : ConnectionSpec)
    (sn tn : string) (byType : Obj.t ConnectionArrays)
    (slots : ConnectionArrays) (e : NodeConnection) :
  let s := default 0%Z (sourceIndex c) in
  let ti := default 0%Z (targetIndex c) in
  let ty := default "main" (connectionType c) in
  getNodeNameById w (sourceNodeId c) = Some sn →
  getNodeNameById w (targetNodeId c) = Some tn →
  truthy sn = true → truthy tn = true →
  Obj.get sn (connections w) = Some byType →
  Obj.get ty byType = Some slots →
  (2 ≤ length slots)%nat →
  at_index slots s = Some [e] →
  sameEdge tn ti ty e = true →
  ∃ w1 byType1 slots1,
    removeConnectionFromWorkflow w c = (true, w1) ∧
    Obj.get sn (connections w1) = Some byType1 ∧
    Obj.get ty byType1 = Some slots1 ∧
    slots1 = delete (Z.to_nat s) slots ∧
    length slots1 = (length slots - 1)%nat ∧
    (∀ k, (k < s)%Z → at_index slots1 k = at_index slots k) ∧
    (∀ k, (s < k)%Z → at_index slots1 (k - 1) = at_index slots k).
Proof.
  intros s ti ty Hs Ht Hsn Htn Hby Hslots Hlen Hslot He.
  apply at_index_Some in Hslot as Hslot'. destruct Hslot' as [Hs0 Hlk].
  assert (Hlt : (Z.to_nat s < length slots)%nat)
    by (eapply lookup_lt_Some; eauto).
  assert (Hdel : length (delete (Z.to_nat s) slots) = (length slots - 1)%nat).
  { rewrite length_delete by eauto. lia. }
  eexists _, (Obj.put ty (delete (Z.to_nat s) slots) byType), _.
  split; [|split; [|split; [|split; [reflexivity|split; [|split]]]]].
  - unfold removeConnectionFromWorkflow.
    rewrite Hs, Ht, Hsn, Htn. cbn [negb orb].
    rewrite Hby. fold ty. rewrite Hslots. fold s. rewrite Hslot.
    fold ti. rewrite (list_find_singleton_match _ e) by done.
    cbn [delete list_delete length].
    rewrite (decide_True (P := (0%nat = 0%nat))) by done.
    rewrite (decide_False (P := length (delete (Z.to_nat s) slots) = 0%nat))
      by (rewrite Hdel; lia).
    rewrite decide_False; [reflexivity|].
    unfold Obj.keys. rewrite length_map.
    pose proof (put_nonempty ty (delete (Z.to_nat s) slots) byType).
    destruct (Obj.put _ _ byType); [done|simpl; lia].
  - cbn [connections set_connections]. apply get_put_eq.
  - apply get_put_eq.
  - exact Hdel.
  - intros k Hk. unfold at_index. case_decide; [|done].
    apply list_lookup_delete_lt. lia.
  - intros k Hk. unfold at_index.
    rewrite !decide_True by lia.
    replace (Z.to_nat k) with (S (Z.to_nat (k - 1))) by lia.
    apply list_lookup_delete_ge. lia.
Qed.

Lemma removeConnection_shifts_slots_witness :
  ∃ w1 byType1 slots1,
    removeConnectionFromWorkflow (docOf (twoNodes "A" "B") threeSlots)
                                 specAB = (true, w1) ∧
    Obj.get "A" (connections w1) = Some byType1 ∧
    Obj.get "main" byType1 = Some slots1 ∧
    slots1 = [[mkConn "B" "main" 1]; [mkConn "B" "main" 2]] ∧
    length slots1 = 2%nat ∧
    (∀ k, (k < 0)%Z →
       at_index slots1 k
       = at_index [[mkConn "B" "main" 0]; [mkConn "B" "main" 1];
                   [mkConn "B" "main" 2]] k) ∧
    (∀ k, (0 < k)%Z →
       at_index slots1 (k - 1)
       = at_index [[mkConn "B" "main" 0]; [mkConn "B" "main" 1];
                   [mkConn "B" "main" 2]] k).
Proof.
  apply (removeConnection_shifts_slots
           (docOf (twoNodes "A" "B") threeSlots) specAB "A" "B"
           [("main", [[mkConn "B" "main" 0]; [mkConn "B" "main" 1];
                      [mkConn "B" "main" 2]])]
           [[mkConn "B" "main" 0]; [mkConn "B" "main" 1];
            [mkConn "B" "main" 2]]
           (mkConn "B" "main" 0));
    [reflexivity | reflexivity | reflexivity | reflexivity | reflexivity
    | reflexivity | simpl; lia | reflexivity | reflexivity].
Defined.
End remove_connection.

(** ** No empty leaves in the connections *)

Section no_empty_leaves.
Import WorkflowUtils.

Lemma Forall_put {V} (P : string * V → Prop) k v (o : Obj.t V) :
  P (k, v) → Forall P o → Forall P (Obj.put k v o).
Proof.
  intros Hk Ho. apply Forall_forall. intros e [->|He]%elem_put; [done|].
  by eapply Forall_forall in Ho.
Qed.

Lemma Forall_remove {V} (P : string * V → Prop) k (o : Obj.t V) :
  Forall P o → Forall P (Obj.remove k o).
Proof.
  intros Ho. apply Forall_forall. intros e [He _]%elem_remove.
  by eapply Forall_forall in Ho.
Qed.

Lemma typesOk_get conns sn byType :
  noEmptyLeaves conns → Obj.get sn conns = Some byType → typesOk byType.
Proof.
  intros Hc Hg%get_Some_elem. by eapply Forall_forall in Hc; [|done].
Qed.

Lemma slotsOk_get (byType : Obj.t ConnectionArrays) ty slots :
  Forall (λ e, slotsOk e.2) byType → Obj.get ty byType = Some slots →
  slotsOk slots.
Proof.
  intros Hc Hg%get_Some_elem. by eapply Forall_forall in Hc; [|done].
Qed.

(** *** removeConnectionFromWorkflow keeps the connections pruned *)
Lemma removeConnection_noEmptyLeaves w c :
  noEmptyLeaves (connections w) →
  noEmptyLeaves (connections (removeConnectionFromWorkflow w c).2).
Proof.
  intros Hw. unfold removeConnectionFromWorkflow.
  destruct (getNodeNameById w (sourceNodeId c)) as [sn|]; [|done].
  destruct (getNodeNameById w (targetNodeId c)) as [tn|]; [|done].
  destruct (negb (truthy sn) || negb (truthy tn)); [done|].
  destruct (Obj.get sn (connections w)) as [byType|] eqn:Hby; [|done].
  destruct (Obj.get _ byType) as [slots|] eqn:Hsl; [|done].
  destruct (at_index slots _) as [slot|] eqn:Hslot; [|done].
  destruct (list_find _ slot) as [[j e]|] eqn:Hfind; [|done].
  cbn [snd connections set_connections].
  pose proof (typesOk_get _ _ _ Hw Hby) as [_ Hty].
  pose proof (slotsOk_get _ _ _ Hty Hsl) as [_ Hslots].
  set (slot' := delete j slot).
  set (slots' := if decide (length slot' = 0%nat) then _ else _).
  set (byType' := if decide (length slots' = 0%nat) then _ else _).
  assert (Hslots' : Forall (λ s, s ≠ []) slots').
  { subst slots'. case_decide as Hl.
    - rewrite delete_take_drop. apply Forall_app. split.
      + by apply Forall_take.
      + by apply Forall_drop.
    - apply Forall_insert; [done|]. by intros ->. }
  assert (HbyType' : Forall (λ e, slotsOk e.2) byType').
  { subst byType'. case_decide as Hl.
    - by apply Forall_remove.
    - apply Forall_put; [|done]. split; [|done].
      cbn. intros E. apply Hl. by rewrite E. }
  case_decide as Hk.
  - by apply Forall_remove.
  - apply Forall_put; [|done]. split; [|done].
    cbn. intros E. apply Hk. by rewrite E.
Qed.

(** *** removeNodeFromWorkflow keeps the connections pruned *)

Section incoming_loops_pruned.
Context (hit : NodeConnection → bool)
        (record : string → string → nat → NodeConnection → ConnectionSpec).

(** The slots the [i] loop has visited are not empty. *)
Lemma slotLoop_visited sn ty i (st : list ConnectionSpec * ConnectionArrays) :
  (∀ k s, (i ≤ k)%nat → st.2 !! k = Some s → s ≠ []) →
  Forall (λ s, s ≠ []) (slotLoop hit record sn ty i st).2.
Proof.
  revert st. induction i as [|i IH]; intros [removed arrs] Hk;
    cbn [slotLoop snd fst].
  - apply Forall_lookup. intros k s Hs. eapply (Hk k); [lia|done].
  - destruct (arrs !! i) as [slot|] eqn:Hi.
    + apply IH. cbn [snd]. intros k s Hik. case_decide as Hlen.
      * rewrite list_lookup_delete_ge by lia. intros Hs.
        eapply (Hk (S k)); [lia|done].
      * destruct (decide (k = i)) as [->|Hne].
        -- rewrite list_lookup_insert_eq
             by (eapply lookup_lt_Some; eauto).
           intros [= <-] E. apply Hlen. by rewrite E.
        -- rewrite list_lookup_insert_ne by done. intros Hs.
           eapply (Hk k); [lia|done].
    + apply IH. cbn [snd]. intros k s Hik Hs.
      destruct (decide (k = i)) as [->|Hne]; [congruence|].
      eapply (Hk k); [lia|done].
Qed.

Lemma slotLoop_pruned sn ty removed (arrs : ConnectionArrays) :
  Forall (λ s, s ≠ [])
         (slotLoop hit record sn ty (length arrs) (removed, arrs)).2.
Proof.
  apply slotLoop_visited. cbn [snd]. intros k s Hk Hs.
  apply lookup_lt_Some in Hs. lia.
Qed.

Lemma typeStep_pruned sn st entry :
  Forall (λ e, slotsOk e.2) st.2 →
  Forall (λ e, slotsOk e.2) (typeStep hit record sn st entry).2.
Proof.
  destruct entry as [ty arrs]. unfold typeStep. cbn [snd]. intros H.
  case_decide as Hlen.
  - by apply Forall_remove.
  - apply Forall_put; [|done]. split.
    + cbn [snd]. intros E. apply Hlen. by rewrite E.
    + apply slotLoop_pruned.
Qed.

Lemma typeLoop_pruned sn entries st :
  Forall (λ e, slotsOk e.2) st.2 →
  Forall (λ e, slotsOk e.2) (fold_left (typeStep hit record sn) entries st).2.
Proof.
  revert st. induction entries as [|e entries IH]; intros st H; [done|].
  cbn [fold_left]. apply IH. by apply typeStep_pruned.
Qed.

Lemma sourceStep_pruned st entry :
  noEmptyLeaves st.2 → typesOk entry.2 →
  noEmptyLeaves (sourceStep hit record st entry).2.
Proof.
  destruct entry as [sn byType]. unfold sourceStep. cbn [snd].
  intros Hst [_ Hentry]. case_decide as Hlen.
  - by apply Forall_remove.
  - apply Forall_put; [|done]. split.
    + cbn [snd]. intros E. apply Hlen. by rewrite E.
    + by apply typeLoop_pruned.
Qed.

Lemma sourceLoop_pruned entries st :
  noEmptyLeaves st.2 → Forall (λ e, typesOk e.2) entries →
  noEmptyLeaves (fold_left (sourceStep hit record) entries st).2.
Proof.
  revert st. induction entries as [|e entries IH]; intros st Hst He;
    [done|].
  apply Forall_cons in He as [He Hes]. cbn [fold_left].
  apply IH; [|done]. by apply sourceStep_pruned.
Qed.

Lemma incomingLoop_pruned removed conns :
  noEmptyLeaves conns →
  noEmptyLeaves (incomingLoop hit record removed conns).2.
Proof. intros H. unfold incomingLoop. by apply sourceLoop_pruned. Qed.
End incoming_loops_pruned.

Lemma removeNode_noEmptyLeaves w nodeId :
  noEmptyLeaves (connections w) →
  noEmptyLeaves (connections (removeNodeFromWorkflow w nodeId).2).
Proof.
  intros Hw. unfold removeNodeFromWorkflow.
  destruct (list_find _ (nodes w)) as [[nodeIndex n]|]; [|done].
  cbn [connections set_nodes].
  match goal with
  | |- context [let '(outgoing, conns1) := ?x in _] =>
      assert (Hx : noEmptyLeaves x.2);
      [|destruct x as [outgoing conns1]]
  end.
  { destruct (node_name <$> _) as [nm|]; [|done].
    destruct (truthy nm); [|done].
    destruct (Obj.get nm (connections w)); [|done].
    cbn [snd]. by apply Forall_remove. }
  cbn [snd connections set_connections]. by apply incomingLoop_pruned.
Qed.

(** *** addConnectionToWorkflow, within the slots that exist *)

Lemma addConnection_noEmptyLeaves w c b w1 :
  noEmptyLeaves (connections w) →
  addConnectionToWorkflow w c = Returned b w1 →
  (default 0 (sourceIndex c) ≤ Z.of_nat (length (addressedSlots w c)))%Z →
  noEmptyLeaves (connections w1).
Proof.
  intros Hw. unfold addConnectionToWorkflow, addressedSlots.
  destruct (negb (isValid _)); [by intros [= _ <-]|].
  destruct (getNodeNameById w (sourceNodeId c)) as [sn|];
    [|by intros [= _ <-]].
  destruct (getNodeNameById w (targetNodeId c)) as [tn|];
    [|by intros [= _ <-]].
  destruct (negb (truthy sn) || negb (truthy tn)); [by intros [= _ <-]|].
  cbn [mbind option_bind].
  set (i := default 0%Z (sourceIndex c)).
  set (ti := default 0%Z (targetIndex c)).
  set (ty := default "main" (connectionType c)).
  destruct (Obj.inherits sn (connections w)); [done|].
  set (byType := default [] (Obj.get sn (connections w))).
  destruct (Obj.inherits ty byType); [done|].
  set (arr := default [] (Obj.get ty byType)).
  destruct (at_index (padSlots arr i) i) as [slot|] eqn:Hslot; [|done].
  intros [= _ <-] Hi. cbn [connections set_connections].
  assert (HbyType : Forall (λ e, slotsOk e.2) byType).
  { subst byType. destruct (Obj.get sn (connections w)) eqn:E; cbn.
    - by eapply typesOk_get.
    - constructor. }
  assert (Harr : Forall (λ s, s ≠ []) arr).
  { subst arr. destruct (Obj.get ty byType) eqn:E; cbn.
    - by eapply slotsOk_get.
    - constructor. }
  assert (Hi' : (i ≤ Z.of_nat (length arr))%Z).
  { subst arr byType. destruct (Obj.get sn (connections w)); cbn in *;
      [done|]. simpl in Hi. lia. }
  apply at_index_Some in Hslot as [Hi0 Hlk].
  set (slot' := if existsb _ slot then slot else _).
  assert (Hslot' : slot' ≠ []).
  { subst slot'. destruct (existsb _ slot) eqn:E.
    - intros ->. done.
    - by destruct slot. }
  apply Forall_put; [|done]. split; [apply put_nonempty|].
  apply Forall_put; [|done]. split.
  { cbn [snd]. intros E. apply (f_equal length) in E.
    rewrite length_insert in E. apply lookup_lt_Some in Hlk.
    simpl in E. lia. }
  cbn [snd]. unfold padSlots in *.
  destruct (decide (i < Z.of_nat (length arr))%Z).
  - replace (Z.to_nat (i + 1 - Z.of_nat (length arr))) with 0%nat by lia.
    cbn [replicate]. rewrite app_nil_r. by apply Forall_insert.
  - replace (Z.to_nat (i + 1 - Z.of_nat (length arr))) with 1%nat by lia.
    cbn [replicate].
    replace (Z.to_nat i) with (length arr + 0)%nat by lia.
    rewrite insert_app_r. cbn. apply Forall_app. split; [done|].
    by constructor.
Qed.
End no_empty_leaves.

Section no_empty_leaves_claim.
Import WorkflowUtils.

(** ** C9 *)

(** C9, as amended.  On a document whose connections hold no empty slot,
    no type without slots and no source without types,
    [removeConnectionFromWorkflow] and [removeNodeFromWorkflow] leave
    connections of the same kind, and so does a call of
    [addConnectionToWorkflow] that returns, provided its source index is
    at most the number of slots the addressed source and type already
    have (a larger index is reached by padding with empty slots). *)
Theorem mutations_keep_connections_pruned (w : Workflow)
    (c : ConnectionSpec) (nodeId : string) :
  noEmptyLeaves (connections w) →
  noEmptyLeaves (connections (removeConnectionFromWorkflow w c).2)
  ∧ noEmptyLeaves (connections (removeNodeFromWorkflow w nodeId).2)
  ∧ (∀ b w1,
       addConnectionToWorkflow w c = Returned b w1 →
       (default 0 (sourceIndex c) ≤ Z.of_nat (length (addressedSlots w c)))%Z →
       noEmptyLeaves (connections w1)).
Proof.
  intros Hw. split; [by apply removeConnection_noEmptyLeaves|].
  split; [by apply removeNode_noEmptyLeaves|].
  intros b w1 Hadd Hi. by eapply addConnection_noEmptyLeaves.
Qed.

Lemma mutations_keep_connections_pruned_witness :
  noEmptyLeaves
    (connections
       (removeConnectionFromWorkflow (docOf (twoNodes "A" "B") threeSlots)
                                     specAB).2)
  ∧ noEmptyLeaves
      (connections
         (removeNodeFromWorkflow (docOf (twoNodes "A" "B") threeSlots)
                                 "b").2)
  ∧ (∀ b w1,
       addConnectionToWorkflow (docOf (twoNodes "A" "B") threeSlots) specAB
       = Returned b w1 →
       (default 0 (sourceIndex specAB)
        ≤ Z.of_nat (length (addressedSlots
                              (docOf (twoNodes "A" "B") threeSlots) specAB)))%Z →
       noEmptyLeaves (connections w1)).
Proof.
  apply (mutations_keep_connections_pruned
           (docOf (twoNodes "A" "B") threeSlots) specAB "b").
  unfold noEmptyLeaves, typesOk, slotsOk. simpl.
  repeat (constructor; simpl; try done).
Defined.

(** C9 as the specification words it fails for [addConnectionToWorkflow]:
    connecting output 1 of a node that has no connection yet succeeds and
    pads the slot list with an empty slot 0. *)
Lemma addConnection_pads_with_empty_slots :
  let w := docOf (twoNodes "A" "B") [] in
  let w1 := docOf (twoNodes "A" "B")
                  [("A", [("main", [[]; [mkConn "B" "main" 0]])])] in
  noEmptyLeaves (connections w)
  ∧ addConnectionToWorkflow w (mkSpec "a" "b" (Some 1%Z) None None)
    = Returned true w1
  ∧ slotAt w1 "A" "main" 0 = []
  ∧ ¬ noEmptyLeaves (connections w1).
Proof.
  cbn zeta. split; [constructor|]. split; [reflexivity|].
  split; [reflexivity|]. intros Hbad.
  apply Forall_cons in Hbad as [[_ Hty] _].
  apply Forall_cons in Hty as [[_ Hsl] _].
  by apply Forall_cons in Hsl as [Hsl _].
Qed.
End no_empty_leaves_claim.

(** ** cleanupCorruptedConnections *)

Section cleanup.
Import WorkflowUtils.

Lemma keys_put {V} k v (o : Obj.t V) k' :
  k' ∈ Obj.keys (Obj.put k v o) → k' = k ∨ k' ∈ Obj.keys o.
Proof.
  unfold Obj.keys. intros ([k0 v0] & -> & Hin)%list_elem_of_fmap.
  apply elem_put in Hin as [[= -> ->]|Hin]; [by left|right].
  apply list_elem_of_fmap. by exists (k0, v0).
Qed.

Lemma keys_remove {V} k (o : Obj.t V) k' :
  k' ∈ Obj.keys (Obj.remove k o) → k' ∈ Obj.keys o ∧ k' ≠ k.
Proof.
  unfold Obj.keys. intros ([k0 v0] & -> & Hin)%list_elem_of_fmap.
  apply elem_remove in Hin as [Hin Hne]. split; [|done].
  apply list_elem_of_fmap. by exists (k0, v0).
Qed.

Lemma keys_applyFix conns f k :
  k ∈ Obj.keys (applyFix conns f) →
  k = newKey f ∨ (k ∈ Obj.keys conns ∧ k ≠ oldKey f).
Proof.
  unfold applyFix.
  destruct (Obj.get (newKey f) (Obj.remove (oldKey f) conns));
    intros [->|Hin%keys_remove]%keys_put; auto.
Qed.

Lemma findNodeByName_of_node w n :
  n ∈ nodes w → is_Some (findNodeByName w (node_name n)).
Proof.
  intros Hin. unfold findNodeByName.
  destruct (list_find (λ n0, node_name n0 = node_name n) (nodes w))
    as [[i m]|] eqn:E; [by eexists|].
  exfalso. eapply list_find_None in E.
  eapply Forall_forall in E; [|exact Hin]. by apply E.
Qed.

Lemma findNodeById_elem w i n :
  findNodeById w i = Some n → n ∈ nodes w.
Proof.
  unfold findNodeById.
  destruct (list_find _ (nodes w)) as [[j m]|] eqn:E; [|done].
  intros [= <-]. apply list_find_Some in E as (Hlk & _).
  by eapply list_elem_of_lookup_2.
Qed.

Lemma connectionsToFix_spec w f :
  f ∈ connectionsToFix w →
  corruptedKey w (oldKey f) ∧ ¬ corruptedKey w (newKey f).
Proof.
  unfold connectionsToFix.
  intros ([k c] & Hin & Hf)%list_elem_of_omap.
  destruct (findNodeById w k) as [n|] eqn:Hid; [|done].
  destruct (findNodeByName w k) eqn:Hname; [done|].
  injection Hf as <-. cbn. split.
  - split; [by rewrite Hid|done].
  - intros [_ Hnone]. apply findNodeById_elem in Hid.
    apply findNodeByName_of_node in Hid as [m Hm]. congruence.
Qed.

Lemma connectionsToFix_complete w k :
  k ∈ Obj.keys (connections w) → corruptedKey w k →
  k ∈ map oldKey (connectionsToFix w).
Proof.
  unfold Obj.keys, connectionsToFix.
  intros ([k0 c] & -> & Hin)%list_elem_of_fmap [[n Hid] Hname].
  apply list_elem_of_fmap. exists (mkFix k0 (node_name n) c).
  split; [done|]. apply list_elem_of_omap. exists (k0, c).
  split; [done|]. cbn in *. by rewrite Hid, Hname.
Qed.

(** The fixes leave no corrupted key behind. *)
Lemma applyFixes_clean w fixes conns :
  (∀ f, f ∈ fixes → ¬ corruptedKey w (newKey f)) →
  (∀ k, k ∈ Obj.keys conns → corruptedKey w k → k ∈ map oldKey fixes) →
  ∀ k, k ∈ Obj.keys (fold_left applyFix fixes conns) → ¬ corruptedKey w k.
Proof.
  revert conns. induction fixes as [|f fixes IH]; intros conns Hnew Hold k.
  - cbn. intros Hk Hc. specialize (Hold k Hk Hc). by apply elem_of_nil in Hold.
  - cbn. apply IH.
    + intros f' Hf'. apply Hnew. by right.
    + intros k' [->|[Hk' Hne]]%keys_applyFix Hc.
      * exfalso. apply (Hnew f); [by left|done].
      * specialize (Hold k' Hk' Hc). cbn in Hold.
        apply elem_of_cons in Hold as [->|Hold]; done.
Qed.

Lemma no_fix_needed w (l : WorkflowConnections) :
  (∀ k, k ∈ Obj.keys l → ¬ corruptedKey w k) →
  omap (λ '(connectionKey, conns),
          match findNodeById w connectionKey,
                findNodeByName w connectionKey with
          | Some nodeById, None =>
              Some (mkFix connectionKey (node_name nodeById) conns)
          | _, _ => None
          end) l = [].
Proof.
  induction l as [|[k c] l IH]; intros Hk; [done|].
  cbn. rewrite IH by (intros k' Hk'; apply Hk; by right).
  assert (Hnc : ¬ corruptedKey w k) by (apply Hk; by left).
  destruct (findNodeById w k) eqn:Hid; [|done].
  destruct (findNodeByName w k) eqn:Hname; [done|].
  exfalso. apply Hnc. split; [by rewrite Hid|done].
Qed.

Lemma connectionsToFix_nil w conns :
  (∀ k, k ∈ Obj.keys conns → ¬ corruptedKey w k) →
  connectionsToFix (set_connections w conns) = [].
Proof. intros Hk. exact (no_fix_needed w conns Hk). Qed.

(** ** C7 *)

(** C7.  Running [cleanupCorruptedConnections] on the document a first run
    produced returns 0 and leaves that document as it is. *)
Theorem cleanup_idempotent (w : Workflow) :
  cleanupCorruptedConnections (cleanupCorruptedConnections w).2
  = (0%nat, (cleanupCorruptedConnections w).2).
Proof.
  unfold cleanupCorruptedConnections at 2 3. cbn [snd].
  set (conns1 := fold_left applyFix (connectionsToFix w) (connections w)).
  unfold cleanupCorruptedConnections.
  rewrite connectionsToFix_nil; [done|].
  intros k Hk. eapply applyFixes_clean; [| |exact Hk].
  - intros f Hf. by apply connectionsToFix_spec.
  - intros k'. apply connectionsToFix_complete.
Qed.
End cleanup.

(** ** Integrity across the mutations *)

Section integrity.
Import WorkflowUtils.

Lemma flat_map_nil {A B} (f : A → list B) (l : list A) :
  flat_map f l = [] ↔ Forall (λ x, f x = []) l.
Proof.
  induction l as [|x l IH]; cbn.
  - split; [constructor|done].
  - rewrite Forall_cons, <- IH. split.
    + by intros [? ?]%app_eq_nil.
    + by intros [-> ->].
Qed.

Lemma StrSet_has_add x y s :
  StrSet.has x s = true → StrSet.has x (StrSet.add y s) = true.
Proof.
  unfold StrSet.add, StrSet.has. rewrite !bool_decide_eq_true.
  intros Hin. case_bool_decide; [done|]. apply elem_of_app. by left.
Qed.

Lemma StrSet_has_add_eq x s : StrSet.has x (StrSet.add x s) = true.
Proof.
  unfold StrSet.add. destruct (StrSet.has x s) eqn:E; [done|].
  unfold StrSet.has. rewrite bool_decide_eq_true.
  apply elem_of_app. right. left.
Qed.

Lemma scanNodes_names_mono ns st x :
  StrSet.has x st.1.2 = true →
  StrSet.has x (fold_left scanNode ns st).1.2 = true.
Proof.
  revert st. induction ns as [|m ns IH]; intros [[ids names] errs]; cbn;
    [done|].
  intros H. apply IH. cbn. by apply StrSet_has_add.
Qed.

Lemma scanNodes_names ns st n :
  n ∈ ns → StrSet.has (node_name n) (fold_left scanNode ns st).1.2 = true.
Proof.
  revert st. induction ns as [|m ns IH]; intros [[ids names] errs];
    [by intros ?%elem_of_nil|].
  intros [->|Hin]%elem_of_cons; cbn.
  - apply scanNodes_names_mono. cbn. apply StrSet_has_add_eq.
  - by apply IH.
Qed.

(** The errors [validateWorkflowIntegrity] reports, split in two. *)
Lemma validateWorkflowIntegrity_valid w :
  isValid (validateWorkflowIntegrity w) = true ↔
  (scanNodes (nodes w)).2 = []
  ∧ Forall (λ e, sourceErrors (scanNodes (nodes w)).1.2 e = [])
           (connections w).
Proof.
  unfold validateWorkflowIntegrity.
  destruct (scanNodes (nodes w)) as [[ids names] errs]. cbn.
  rewrite bool_decide_eq_true, length_zero_iff_nil, <- flat_map_nil.
  split; [by intros [? ?]%app_eq_nil|by intros [-> ->]].
Qed.

Lemma edgeErrors_nil (names : list string) (slot : list NodeConnection) :
  flat_map (λ connection,
              if negb (StrSet.has (conn_node connection) names)
              then ["Connection target node '" +:+ conn_node connection
                    +:+ "' does not exist"]
              else []) slot = []
  ↔ Forall (λ c, StrSet.has (conn_node c) names = true) slot.
Proof.
  rewrite flat_map_nil. apply Forall_iff. intros c.
  destruct (StrSet.has (conn_node c) names); cbn; split; done.
Qed.

(** An entry is free of errors when its key and all its targets are names
    of nodes. *)
Lemma sourceErrors_nil names sn (byType : Obj.t ConnectionArrays) :
  sourceErrors names (sn, byType) = [] ↔
  StrSet.has sn names = true
  ∧ Forall (λ e, Forall (Forall (λ c, StrSet.has (conn_node c) names = true))
                        e.2) byType.
Proof.
  unfold sourceErrors. destruct (StrSet.has sn names); cbn [negb].
  - rewrite flat_map_nil. split.
    + intros H. split; [done|]. eapply Forall_impl; [exact H|].
      intros [ty slots] Hs. cbn. apply flat_map_nil in Hs.
      eapply Forall_impl; [exact Hs|]. intros slot. apply edgeErrors_nil.
    + intros [_ H]. eapply Forall_impl; [exact H|].
      intros [ty slots] Hs. cbn in *. apply flat_map_nil.
      eapply Forall_impl; [exact Hs|]. intros slot. apply edgeErrors_nil.
  - split; [done|]. by intros [? _].
Qed.

(** Adding a connection mentions no name that is not a node's. *)
Lemma addConnection_valid (w : Workflow) (c : ConnectionSpec)
    (w1 : Workflow) :
  isValid (validateWorkflowIntegrity w) = true →
  addConnectionToWorkflow w c = Returned true w1 →
  isValid (validateWorkflowIntegrity w1) = true.
Proof.
  intros [Hnodes Hconns]%validateWorkflowIntegrity_valid.
  unfold addConnectionToWorkflow.
  destruct (negb (isValid _)); [done|].
  destruct (getNodeNameById w (sourceNodeId c)) as [sn|] eqn:Hs; [|done].
  destruct (getNodeNameById w (targetNodeId c)) as [tn|] eqn:Ht; [|done].
  destruct (negb (truthy sn) || negb (truthy tn)); [done|].
  set (i := default 0%Z (sourceIndex c)).
  set (ti := default 0%Z (targetIndex c)).
  set (ty := default "main" (connectionType c)).
  destruct (Obj.inherits sn (connections w)); [done|].
  set (byType := default [] (Obj.get sn (connections w))).
  destruct (Obj.inherits ty byType); [done|].
  set (arr := default [] (Obj.get ty byType)).
  destruct (at_index (padSlots arr i) i) as [slot|] eqn:Hslot; [|done].
  intros [= <-]. apply validateWorkflowIntegrity_valid.
  cbn [nodes connections set_connections]. split; [done|].
  set (names := (scanNodes (nodes w)).1.2) in *.
  assert (Hname : ∀ nodeId nm, getNodeNameById w nodeId = Some nm →
                               StrSet.has nm names = true).
  { intros nodeId nm. unfold getNodeNameById.
    destruct (findNodeById w nodeId) as [n|] eqn:E; [|done].
    intros [= <-]. apply findNodeById_elem in E.
    by apply scanNodes_names. }
  assert (HbyType : Forall (λ e, Forall (Forall (λ c, StrSet.has (conn_node c)
                              names = true)) e.2) byType).
  { subst byType. destruct (Obj.get sn (connections w)) as [bt|] eqn:E;
      cbn; [|constructor].
    apply get_Some_elem in E. eapply Forall_forall in Hconns; [|exact E].
    by apply sourceErrors_nil in Hconns as [_ ?]. }
  assert (Harr : Forall (Forall (λ c, StrSet.has (conn_node c) names = true))
                        arr).
  { subst arr. destruct (Obj.get ty byType) as [a|] eqn:E;
      cbn; [|constructor].
    apply get_Some_elem in E. by eapply Forall_forall in HbyType; [|exact E]. }
  assert (Hpad : Forall (Forall (λ c, StrSet.has (conn_node c) names = true))
                        (padSlots arr i)).
  { unfold padSlots. apply Forall_app. split; [done|].
    apply Forall_replicate. constructor. }
  apply at_index_Some in Hslot as [_ Hlk].
  apply Forall_put; [|done]. apply sourceErrors_nil.
  split; [by eapply Hname|].
  apply Forall_put; [|done]. cbn [snd].
  apply Forall_insert; [done|].
  assert (Hsl : Forall (λ c, StrSet.has (conn_node c) names = true) slot)
    by (by eapply Forall_lookup_1 in Hpad).
  destruct (existsb _ slot); [done|].
  apply Forall_app. split; [done|]. constructor; [|constructor].
  cbn. by eapply Hname.
Qed.

(** X1. After a call of [addConnectionToWorkflow] that returned [true], a
    document that passed [validateWorkflowIntegrity] passes it still. *)
Theorem addConnection_keeps_integrity (w : Workflow) (c : ConnectionSpec)
    (w1 : Workflow) :
  isValid (validateWorkflowIntegrity w) = true →
  addConnectionToWorkflow w c = Returned true w1 →
  isValid (validateWorkflowIntegrity w1) = true.
Proof. apply addConnection_valid. Qed.

Lemma addConnection_keeps_integrity_witness :
  isValid
    (validateWorkflowIntegrity
       (docOf chainNodes
          [("A", [("main", [[mkConn "B" "main" 0; mkConn "C" "main" 0]])]);
           ("B", [("main", [[mkConn "C" "main" 0]])])]))
  = true.
Proof.
  apply (addConnection_keeps_integrity chain
           (mkSpec "a" "c" None None None)); reflexivity.
Defined.

(** ** C1 *)

(** C1 fails for [removeNodeFromWorkflow].  The chain A → B → C passes
    [validateWorkflowIntegrity]; after B is removed the validation reports
    the edge into B and B's own entry as dangling, because the function
    left them in the connections. *)
Theorem removeNode_leaves_dangling_connections :
  isValid (validateWorkflowIntegrity chain) = true
  ∧ validateWorkflowIntegrity (removeNodeFromWorkflow chain "b").2
    = mkValidation false
        ["Connection target node 'B' does not exist";
         "Connection source node 'B' does not exist"] [].
Proof. split; reflexivity. Qed.

(** ** C2 *)

(** C2 fails.  Removing B from the chain A → B → C returns no connection
    at all, B is gone from the nodes, and the connections are what they
    were: A still points at B, and B's own entry is still there. *)
Theorem removeNode_returns_no_connection :
  removeNodeFromWorkflow chain "b"
  = ([], set_nodes chain
           [mkNode "a" "A" "n8n-nodes-base.start" 1 (0, 0)%Z [];
            mkNode "c" "C" "n8n-nodes-base.set" 1 (400, 0)%Z []])
  ∧ connections (removeNodeFromWorkflow chain "b").2 = connections chain.
Proof. split; reflexivity. Qed.
End integrity.

(** ** The lookup after the splice *)

Section remove_node_defect.
Import WorkflowUtils.

Lemma targetsName_None c : targetsName None c = false.
Proof. unfold targetsName. by apply bool_decide_eq_false_2. Qed.

Section incoming_loops_idle.
Context (hit : NodeConnection → bool)
        (record : string → string → nat → NodeConnection → ConnectionSpec)
        (Hidle : ∀ c, hit c = false).

(** Loops whose test never succeeds push nothing. *)
Lemma edgeLoop_idle sn ty i j st : edgeLoop hit record sn ty i j st = st.
Proof.
  induction j as [|j IH]; [done|]. cbn [edgeLoop].
  destruct (st.2 !! j) as [c|]; [|done]. by rewrite Hidle.
Qed.

Lemma slotLoop_idle sn ty i st :
  (slotLoop hit record sn ty i st).1 = st.1.
Proof.
  revert st. induction i as [|i IH]; intros st; [done|]. cbn [slotLoop].
  destruct (st.2 !! i) as [slot|]; [|done].
  rewrite IH. cbn [fst]. by rewrite edgeLoop_idle.
Qed.

Lemma typeLoop_idle sn entries st :
  (fold_left (typeStep hit record sn) entries st).1 = st.1.
Proof.
  revert st. induction entries as [|[ty arrs] entries IH]; intros st;
    [done|].
  cbn [fold_left]. rewrite IH. unfold typeStep. cbn [fst].
  apply slotLoop_idle.
Qed.

Lemma sourceLoop_idle entries st :
  (fold_left (sourceStep hit record) entries st).1 = st.1.
Proof.
  revert st. induction entries as [|[sn byType] entries IH]; intros st;
    [done|].
  cbn [fold_left]. rewrite IH. unfold sourceStep. cbn [fst].
  apply typeLoop_idle.
Qed.
End incoming_loops_idle.

(** Once the only node with an id is spliced out, no node has that id. *)
Lemma find_after_splice (ns : list WorkflowNode) nodeId i n :
  NoDup (map node_id ns) →
  list_find (λ m, node_id m = nodeId) ns = Some (i, n) →
  list_find (λ m, node_id m = nodeId) (delete i ns) = None.
Proof.
  intros Hnd (Hi & Hid & _)%list_find_Some.
  apply list_find_None, Forall_forall.
  intros m (j & Hj)%list_elem_of_lookup_1 Hm.
  rewrite list_lookup_delete in Hj.
  set (j' := if decide (j < i)%nat then j else S j) in *.
  assert (j' ≠ i) by (subst j'; case_decide; lia).
  assert (map node_id ns !! i = Some nodeId)
    by (by rewrite list_lookup_fmap, Hi; cbn; rewrite Hid).
  assert (map node_id ns !! j' = Some nodeId)
    by (by rewrite list_lookup_fmap, Hj; cbn; rewrite Hm).
  by eapply (NoDup_lookup _ i j') in Hnd.
Qed.

(** On every document whose node ids are distinct, [removeNodeFromWorkflow]
    looks the removed node up after the splice, finds nothing, and returns
    the empty list whatever edges touched the node. *)
Lemma removeNode_unique_ids (w : Workflow) (nodeId : string) :
  NoDup (map node_id (nodes w)) →
  (removeNodeFromWorkflow w nodeId).1 = [].
Proof.
  intros Hnd. unfold removeNodeFromWorkflow.
  destruct (list_find _ (nodes w)) as [[i n]|] eqn:Hfind; [|done].
  unfold findNodeById. cbn [nodes set_nodes].
  rewrite (find_after_splice _ _ _ _ Hnd Hfind). cbn.
  unfold incomingLoop. apply sourceLoop_idle, targetsName_None.
Qed.
End remove_node_defect.

(** ** Node removal against the unit tests and in the earlier copy *)

Section remove_node_copies.

(** The unit test "should remove nodes and clean up connections" expects
    one removed connection, from [node1] to [node2]; the name-addressed
    function returns none on the test's fixture. *)
Lemma removeNode_on_test_fixture :
  (WorkflowUtils.removeNodeFromWorkflow testFixture "node1").1 = [].
Proof. reflexivity. Qed.

(** The id-addressed copy meets that test: its fixture keys the
    connections by id. *)
Lemma legacy_removeNode_on_test_fixture :
  LegacyWorkflowUtils.removeNodeFromWorkflow testFixture "node1"
  = ([mkSpec "node1" "node2" (Some 0%Z) None (Some "main")],
     set_connections
       (set_nodes testFixture
          [mkNode "node2" "HTTP Request" "n8n-nodes-base.httpRequest" 1
                  (300, 200)%Z [("url", "https://api.example.com");
                                ("method", "GET")]])
       []).
Proof. reflexivity. Qed.

(** On connections keyed by name, as the remote service stores them, the
    id-addressed copy finds nothing to remove either. *)
Lemma legacy_removeNode_on_chain :
  LegacyWorkflowUtils.removeNodeFromWorkflow chain "b"
  = ([], set_nodes chain
           [mkNode "a" "A" "n8n-nodes-base.start" 1 (0, 0)%Z [];
            mkNode "c" "C" "n8n-nodes-base.set" 1 (400, 0)%Z []]).
Proof. reflexivity. Qed.

(** In both copies the record pushed for an outgoing edge carries the
    edge's input index as its [sourceIndex] and no [targetIndex]: an edge
    from output 0 to input 5 is reported as leaving output 5. *)
Lemma outgoing_record_carries_input_index :
  let edges := [("main", [[mkConn "node2" "main" 5]])] in
  LegacyWorkflowUtils.outgoingSpecs "node1" edges
  = [mkSpec "node1" "node2" (Some 5%Z) None (Some "main")]
  ∧ WorkflowUtils.outgoingSpecs testFixture "node1" edges
    = [mkSpec "node1" "node2" (Some 5%Z) None (Some "main")].
Proof. split; reflexivity. Qed.

(** The loops themselves do remove edges when they are given a name: in a
    document where a second node shares the id of the removed one, the
    lookup after the splice finds that second node, and the edges to and
    from its name are collected and pruned. *)
Lemma removeNode_with_shared_id :
  let w :=
    docOf
      [mkNode "a" "A" "n8n-nodes-base.start" 1 (0, 0)%Z [];
       mkNode "b" "B" "n8n-nodes-base.set" 1 (200, 0)%Z [];
       mkNode "b" "B2" "n8n-nodes-base.set" 1 (400, 0)%Z [];
       mkNode "c" "C" "n8n-nodes-base.set" 1 (600, 0)%Z []]
      [("A", [("main", [[mkConn "B2" "main" 0; mkConn "C" "main" 1;
                         mkConn "B2" "main" 2];
                        [mkConn "B2" "main" 3]]);
              ("aux", [[mkConn "B2" "aux" 0]])]);
       ("B2", [("main", [[mkConn "C" "main" 7]])]);
       ("C", [("main", [[mkConn "B2" "main" 9]])])] in
  (WorkflowUtils.removeNodeFromWorkflow w "b").1
  = [mkSpec "b" "c" (Some 7%Z) None (Some "main");
     mkSpec "a" "b" (Some 1%Z) (Some 3%Z) (Some "main");
     mkSpec "a" "b" (Some 0%Z) (Some 2%Z) (Some "main");
     mkSpec "a" "b" (Some 0%Z) (Some 0%Z) (Some "main");
     mkSpec "a" "b" (Some 0%Z) (Some 0%Z) (Some "aux");
     mkSpec "c" "b" (Some 0%Z) (Some 9%Z) (Some "main")]
  ∧ connections (WorkflowUtils.removeNodeFromWorkflow w "b").2
    = [("A", [("main", [[mkConn "C" "main" 1]])])].
Proof. split; reflexivity. Qed.
End remove_node_copies.

(** ** updateWorkflowSafely *)

Section safe_update.
Import WorkflowUtils BaseNodeHandler.

(** ** C4 *)

(** C4.  When the workflow is fetched, the mutator returns and the mutated
    copy fails [validateWorkflowIntegrity], [updateWorkflowSafely] with
    [validateIntegrity = true] throws an [N8nApiError] whose message lists
    every error of the validation, the only request sent is the fetch, and
    the remote state is the one the call started from. *)
Theorem updateWorkflowSafely_rejects_invalid {R : Type}
    (api : ApiService R Workflow) (workflowId : string)
    (workflowUpdater : Workflow → error + Workflow)
    (world : World R Workflow) (current mutated : Workflow) :
  api_getWorkflow api workflowId (remote world) = inr current →
  workflowUpdater current = inr mutated →
  isValid (validateWorkflowIntegrity mutated) = false →
  updateWorkflowSafely api workflowId workflowUpdater true world
  = (inl (N8nApiError
            ("Workflow integrity validation failed: "
             +:+ join ", " (errors (validateWorkflowIntegrity mutated)))),
     mkWorld (remote world) (calls world ++ [CallGet workflowId])).
Proof.
  intros Hget Hupd Hinvalid.
  unfold updateWorkflowSafely, bind, try_catch, getWorkflow, lift, throw.
  cbn [remote calls]. rewrite Hget, Hupd, Hinvalid. reflexivity.
Qed.

Lemma updateWorkflowSafely_rejects_invalid_witness :
  let doc := docOf (twoNodes "A" "B") [] in
  let world := mkWorld doc [] in
  updateWorkflowSafely singleStore "wf1" addGhostSource true world
  = (inl (N8nApiError
            ("Workflow integrity validation failed: "
             +:+ "Connection source node 'ghost' does not exist")),
     mkWorld doc [CallGet "wf1"]).
Proof.
  cbn zeta.
  apply (updateWorkflowSafely_rejects_invalid singleStore "wf1"
           addGhostSource (mkWorld (docOf (twoNodes "A" "B") []) [])
           (docOf (twoNodes "A" "B") [])
           (set_connections (docOf (twoNodes "A" "B") [])
              [("ghost", [("main", [[mkConn "B" "main" 0]])])]));
    reflexivity.
Defined.

(** What the defect of [removeNodeFromWorkflow] costs: the [delete_node]
    tool, which removes the node inside [updateWorkflowSafely], is turned
    down by the integrity check whenever the node had connections, and the
    remote workflow keeps the node. *)
Lemma delete_node_is_rejected :
  updateWorkflowSafely singleStore "wf1"
                       (DeleteNodeHandler.workflowUpdater "b") true
                       (mkWorld chain [])
  = (inl (N8nApiError
            ("Workflow integrity validation failed: "
             +:+ "Connection target node 'B' does not exist, "
             +:+ "Connection source node 'B' does not exist")),
     mkWorld chain [CallGet "wf1"]).
Proof. reflexivity. Qed.
End safe_update.

(** ** The update guard of update_workflow *)

Section update_guard.
Import UpdateWorkflow.

Context {R : Type} (api : ApiService R AnyWorkflow)
        (errorText : error → string).

Lemma execute_after_fetch args workflowId world current :
  arg_workflowId args = Some workflowId → truthy workflowId = true →
  arg_updateMode args = Some "replace" →
  api_getWorkflow api workflowId (remote world) = inr current →
  let validation :=
    validateWorkflowUpdate current (arg_nodes args) (arg_connections args)
                           "replace" in
  let world1 :=
    mkWorld (remote world) (calls world ++ [CallGet workflowId]) in
  (uv_isValid validation = false →
   execute api errorText args world
   = (inl (N8nApiError (blockedMessage (uv_errors validation))), world1))
  ∧ (uv_isValid validation = true →
     uv_warnings validation ≠ [] → default false (arg_force args) = false →
     execute api errorText args world
     = (inl (N8nApiError (warningMessage (uv_warnings validation))), world1))
  ∧ (uv_isValid validation = true →
     uv_warnings validation = [] ∨ arg_force args = Some true →
     sentUpdate (execute api errorText args world) world workflowId).
Proof.
  intros Hid Htruthy Hmode Hget validation world1.
  assert (Hexec :
    execute api errorText args world
    = (if negb (uv_isValid validation)
       then throw (N8nApiError (blockedMessage (uv_errors validation)))
       else if bool_decide (0 < length (uv_warnings validation))%nat
               && negb (default false (arg_force args))
       then throw (N8nApiError (warningMessage (uv_warnings validation)))
       else
         try_catch
           (let! updatedWorkflow :=
              updateWorkflow api workflowId
                (applyUpdates (cleanWorkflowForUpdate current) args "replace") in
            match arg_active args with
            | Some a =>
                if bool_decide (Some a = aw_active current)
                then ret updatedWorkflow
                else if a then activateWorkflow api workflowId
                     else deactivateWorkflow api workflowId
            | None => ret updatedWorkflow
            end)
           (λ e, throw (N8nApiError
                          ("Workflow update failed: " +:+ errorText e
                           +:+ ". Original workflow remains unchanged."))))
        world1).
  { unfold execute. rewrite Hid, Htruthy, Hmode. cbn [negb from_option id].
    rewrite (bool_decide_eq_false_2 ("replace" = "merge")) by done.
    rewrite (bool_decide_eq_true_2 ("replace" = "replace")) by done.
    cbn [negb andb].
    unfold bind at 1. unfold getWorkflow at 1. by rewrite Hget. }
  rewrite Hexec. clear Hexec.
  split; [|split].
  - intros ->. reflexivity.
  - intros -> Hw ->. cbn [negb andb].
    rewrite bool_decide_eq_true_2; [reflexivity|].
    destruct (uv_warnings validation); [done|simpl; lia].
  - intros -> Hpass. cbn [negb].
    assert (bool_decide (0 < length (uv_warnings validation))%nat
            && negb (default false (arg_force args)) = false) as ->.
    { destruct Hpass as [->| ->]; [done|]. cbn. by rewrite andb_false_r. }
    unfold try_catch, bind at 1, updateWorkflow at 1.
    set (body := applyUpdates _ _ _).
    destruct (api_updateWorkflow api workflowId body (remote world1))
      as [[e|updated] r'] eqn:Hupd; cbn [fst snd].
    + exists body, []. unfold throw. cbn. by rewrite <- app_assoc.
    + destruct (arg_active args) as [a|].
      * case_bool_decide.
        -- exists body, []. unfold ret. cbn. by rewrite <- app_assoc.
        -- destruct a.
           ++ exists body, [CallActivate workflowId].
              unfold activateWorkflow. cbn.
              destruct (api_activateWorkflow _ _ _) as [[?|?] ?];
                cbn; by rewrite <- !app_assoc.
           ++ exists body, [CallDeactivate workflowId].
              unfold deactivateWorkflow. cbn.
              destruct (api_deactivateWorkflow _ _ _) as [[?|?] ?];
                cbn; by rewrite <- !app_assoc.
      * exists body, []. unfold ret. cbn. by rewrite <- app_assoc.
Qed.

Lemma countCheck_replace critical warning current new :
  countCheck critical warning "replace" current new
  = if bool_decide (0 < current)%nat && bool_decide (new = 0%nat)
    then ([critical current new], [])
    else if bool_decide (0 < current)%nat
            && bool_decide (2 * new < current)%nat
         then ([], [warning current new])
         else ([], []).
Proof. reflexivity. Qed.

(** The two tiers of the rule, for any counts. *)
Lemma countCheck_tiers critical warning current new :
  ((0 < current)%nat → new = 0%nat →
   countCheck critical warning "replace" current new
   = ([critical current new], []))
  ∧ ((0 < new)%nat → (2 * new < current)%nat →
     countCheck critical warning "replace" current new
     = ([], [warning current new]))
  ∧ ((current ≤ 2 * new)%nat →
     countCheck critical warning "replace" current new = ([], [])).
Proof.
  rewrite countCheck_replace. repeat split.
  - intros H0 ->. rewrite !bool_decide_eq_true_2 by (done || lia). done.
  - intros H0 H1. rewrite (bool_decide_eq_true_2 (0 < current)%nat) by lia.
    rewrite (bool_decide_eq_false_2 (new = 0%nat)) by lia.
    rewrite bool_decide_eq_true_2 by lia. done.
  - intros H0. destruct (bool_decide (0 < current)%nat) eqn:E; [|done].
    apply bool_decide_eq_true_1 in E.
    rewrite (bool_decide_eq_false_2 (new = 0%nat)) by lia.
    rewrite bool_decide_eq_false_2 by lia. done.
Qed.

Lemma isValid_errors current nodes conns mode :
  uv_isValid (validateWorkflowUpdate current nodes conns mode) = true
  ↔ uv_errors (validateWorkflowUpdate current nodes conns mode) = [].
Proof.
  unfold validateWorkflowUpdate. cbn [uv_isValid uv_errors].
  rewrite bool_decide_eq_true. apply length_zero_iff_nil.
Qed.

(** ** C3 *)

(** C3.  For a replace-mode [update_workflow] call on a workflow that is
    fetched with 10 nodes: an empty [nodes] array makes the handler throw
    the blocking error, whatever [force] is; 4 nodes make it throw unless
    [force] is [true], in which case (no connections being supplied) the
    update is sent; 6 or more nodes (no connections being supplied) let the
    update be sent without [force].  The same holds of the number of
    connection sources when the workflow is fetched with 10 of them.  In
    every blocked case nothing but the fetch has been sent. *)
Theorem replace_cardinality_guard (args : UpdateArgs) (workflowId : string)
    (world : World R AnyWorkflow) (current : AnyWorkflow) :
  arg_workflowId args = Some workflowId → truthy workflowId = true →
  arg_updateMode args = Some "replace" →
  api_getWorkflow api workflowId (remote world) = inr current →
  let res := execute api errorText args world in
  (length (aw_nodes current) = 10%nat →
     (arg_nodes args = Some [] →
        ∃ errs, nodesCritical 10 0 ∈ errs ∧
          blockedWith res world workflowId
                      (N8nApiError (blockedMessage errs)))
   ∧ (∀ ns, arg_nodes args = Some ns → length ns = 4%nat →
        (arg_force args ≠ Some true →
           ∃ msg, blockedWith res world workflowId (N8nApiError msg))
      ∧ (arg_force args = Some true → arg_connections args = None →
           sentUpdate res world workflowId))
   ∧ (∀ ns, arg_nodes args = Some ns → (6 ≤ length ns)%nat →
        arg_connections args = None →
        sentUpdate res world workflowId))
  ∧ (length (Obj.keys (aw_connections current)) = 10%nat →
     (arg_connections args = Some [] →
        ∃ errs, connectionsCritical 10 0 ∈ errs ∧
          blockedWith res world workflowId
                      (N8nApiError (blockedMessage errs)))
   ∧ (∀ cs, arg_connections args = Some cs →
        length (Obj.keys cs) = 4%nat →
        (arg_force args ≠ Some true →
           ∃ msg, blockedWith res world workflowId (N8nApiError msg))
      ∧ (arg_force args = Some true → arg_nodes args = None →
           sentUpdate res world workflowId))
   ∧ (∀ cs, arg_connections args = Some cs →
        (6 ≤ length (Obj.keys cs))%nat →
        arg_nodes args = None →
        sentUpdate res world workflowId)).
Proof.
  intros Hid Htruthy Hmode Hget res.
  destruct (execute_after_fetch args workflowId world current
              Hid Htruthy Hmode Hget) as (Hblocked & Hwarned & Hpass).
  fold res in Hblocked, Hwarned, Hpass.
  set (validation := validateWorkflowUpdate current (arg_nodes args)
                       (arg_connections args) "replace") in *.
  assert (Hforce : arg_force args ≠ Some true →
                   default false (arg_force args) = false).
  { destruct (arg_force args) as [[]|]; done. }
  split.
  - intros Hlen. split; [|split].
    + intros Hn. exists (uv_errors validation).
      assert (Herrs : ∃ rest, uv_errors validation
                              = nodesCritical 10 0 :: rest).
      { subst validation. unfold validateWorkflowUpdate. rewrite Hn, Hlen.
        cbn [uv_errors length].
        destruct (countCheck_tiers nodesCritical nodesWarning 10 0)
          as (Ht & _). rewrite Ht by (done || lia). cbn. eauto. }
      destruct Herrs as [rest Herrs]. split; [rewrite Herrs; left|].
      apply Hblocked. destruct (uv_isValid validation) eqn:E; [|done].
      apply isValid_errors in E. fold validation in E. congruence.
    + intros ns Hn Hns.
      assert (Hw : uv_warnings validation ≠ []
                   ∧ (arg_connections args = None →
                      uv_errors validation = [])).
      { subst validation. unfold validateWorkflowUpdate. rewrite Hn, Hlen, Hns.
        cbn [uv_errors uv_warnings].
        destruct (countCheck_tiers nodesCritical nodesWarning 10 4)
          as (_ & Ht & _). rewrite Ht by lia. cbn. split; [done|].
        by intros ->. }
      destruct Hw as [Hw Hnoerr]. split.
      * intros Hf%Hforce.
        destruct (uv_isValid validation) eqn:E.
        -- eexists. by apply Hwarned.
        -- eexists. by apply Hblocked.
      * intros Hf Hc. apply Hpass; [|by right].
        apply isValid_errors. by apply Hnoerr.
    + intros ns Hn Hns Hc.
      assert (Hclean : uv_errors validation = []
                       ∧ uv_warnings validation = []).
      { subst validation. unfold validateWorkflowUpdate. rewrite Hn, Hlen, Hc.
        cbn [uv_errors uv_warnings].
        destruct (countCheck_tiers nodesCritical nodesWarning 10 (length ns))
          as (_ & _ & Ht). rewrite Ht by lia. done. }
      destruct Hclean as [He Hw]. apply Hpass; [|by left].
      by apply isValid_errors.
  - intros Hlen. split; [|split].
    + intros Hc.
      assert (Herrs : connectionsCritical 10 0 ∈ uv_errors validation).
      { subst validation. unfold validateWorkflowUpdate. rewrite Hc, Hlen.
        cbn [uv_errors length Obj.keys map].
        destruct (countCheck_tiers connectionsCritical connectionsWarning
                    10 0) as (Ht & _). rewrite Ht by (done || lia).
        cbn [fst]. apply elem_of_app. right. left. }
      exists (uv_errors validation). split; [done|].
      apply Hblocked. destruct (uv_isValid validation) eqn:E; [|done].
      apply isValid_errors in E. fold validation in E.
      rewrite E in Herrs. by apply elem_of_nil in Herrs.
    + intros cs Hc Hcs.
      assert (Hw : uv_warnings validation ≠ []
                   ∧ (arg_nodes args = None → uv_errors validation = [])).
      { subst validation. unfold validateWorkflowUpdate. rewrite Hc, Hlen, Hcs.
        cbn [uv_errors uv_warnings].
        destruct (countCheck_tiers connectionsCritical connectionsWarning
                    10 4) as (_ & Ht & _). rewrite Ht by lia. cbn [fst snd].
        split; [|by intros ->].
        intros E. apply (f_equal length) in E.
        rewrite length_app in E. simpl in E. lia. }
      destruct Hw as [Hw Hnoerr]. split.
      * intros Hf%Hforce.
        destruct (uv_isValid validation) eqn:E.
        -- eexists. by apply Hwarned.
        -- eexists. by apply Hblocked.
      * intros Hf Hn. apply Hpass; [|by right].
        apply isValid_errors. by apply Hnoerr.
    + intros cs Hc Hcs Hn.
      assert (Hclean : uv_errors validation = []
                       ∧ uv_warnings validation = []).
      { subst validation. unfold validateWorkflowUpdate. rewrite Hc, Hlen, Hn.
        cbn [uv_errors uv_warnings].
        destruct (countCheck_tiers connectionsCritical connectionsWarning
                    10 (length (Obj.keys cs))) as (_ & _ & Ht).
        rewrite Ht by lia. done. }
      destruct Hclean as [He Hw]. apply Hpass; [|by left].
      by apply isValid_errors.
Qed.
End update_guard.

Section update_guard_witness.
Import UpdateWorkflow.

Lemma replace_cardinality_guard_witness :
  ∃ errs,
    nodesCritical 10 0 ∈ errs
    ∧ blockedWith (execute anyStore renderError wipeArgs
                           (mkWorld tenNodeWorkflow []))
                  (mkWorld tenNodeWorkflow []) "wf1"
                  (N8nApiError (blockedMessage errs)).
Proof.
  refine (proj1 (proj1 (replace_cardinality_guard anyStore renderError
                          wipeArgs "wf1" (mkWorld tenNodeWorkflow [])
                          tenNodeWorkflow _ _ _ _) _) _);
    reflexivity.
Defined.
End update_guard_witness.

(** ** Merge mode *)

Section merge.
Import UpdateWorkflow.

Lemma mergeNode_length st newNode :
  (length st.1 ≤ length (mergeNode st newNode).1)%nat.
Proof.
  destruct st as [merged ids]. unfold mergeNode. cbn [fst].
  destruct (js_truthy (idOf newNode) && idSet_has (idOf newNode) ids).
  - destruct (list_find _ merged) as [[index old]|]; cbn [fst];
      [by rewrite length_insert|done].
  - cbn [fst]. rewrite length_app. lia.
Qed.

Lemma mergeNode_keeps st newNode i node :
  st.1 !! i = Some node →
  ¬ (js_truthy (idOf newNode) = true
     ∧ same_value (idOf node) (idOf newNode) = true) →
  (mergeNode st newNode).1 !! i = Some node.
Proof.
  destruct st as [merged ids]. unfold mergeNode. cbn [fst]. intros Hi Hno.
  destruct (js_truthy (idOf newNode)) eqn:Ht; cbn [andb].
  - destruct (idSet_has (idOf newNode) ids).
    + destruct (list_find _ merged) as [[index old]|] eqn:Hfind;
        cbn [fst]; [|done].
      apply list_find_Some in Hfind as (Hlk & Hsame & _).
      destruct (decide (index = i)) as [->|Hne].
      * exfalso. apply Hno. split; [done|]. congruence.
      * by rewrite list_lookup_insert_ne.
    + cbn [fst]. by apply lookup_app_l_Some.
  - cbn [fst]. by apply lookup_app_l_Some.
Qed.

Lemma mergeNodes_fold newNodes st :
  (length st.1 ≤ length (fold_left mergeNode newNodes st).1)%nat
  ∧ ∀ i node, st.1 !! i = Some node → ¬ mentions newNodes node →
              (fold_left mergeNode newNodes st).1 !! i = Some node.
Proof.
  revert st. induction newNodes as [|m newNodes IH]; intros st; cbn.
  - split; [done|]. by intros.
  - destruct (IH (mergeNode st m)) as [IHlen IHkeep]. split.
    + pose proof (mergeNode_length st m). lia.
    + intros i node Hi Hno. apply IHkeep.
      * apply mergeNode_keeps; [done|]. intros [Ht Hs]. apply Hno.
        exists m. split; [left|done].
      * intros (m' & Hin & Ht & Hs). apply Hno. exists m'.
        split; [by right|done].
Qed.

Lemma get_assignType_ne s ty v merged k :
  s ≠ k → Obj.get k (assignType s ty v merged) = Obj.get k merged.
Proof. intros Hne. unfold assignType. by apply get_put_ne. Qed.

Lemma get_mergeSource_ne merged s conns k :
  s ≠ k → Obj.get k (mergeSource merged (s, conns)) = Obj.get k merged.
Proof.
  intros Hne. unfold mergeSource.
  destruct (Obj.inherits s merged); [done|].
  set (merged1 := match Obj.get s merged with
                  | Some _ => merged
                  | None => Obj.put s [] merged
                  end).
  assert (H1 : Obj.get k merged1 = Obj.get k merged).
  { subst merged1. destruct (Obj.get s merged); [done|].
    by apply get_put_ne. }
  rewrite <- H1. clear H1. generalize merged1. clear merged1.
  induction conns as [|[ty v] conns IH]; intros m; cbn; [done|].
  rewrite IH. destruct (isArray v); [|done]. by apply get_assignType_ne.
Qed.

Lemma mergeConnections_untouched current newConnections k :
  k ∉ Obj.keys newConnections →
  Obj.get k (mergeConnections current newConnections) = Obj.get k current.
Proof.
  unfold mergeConnections. revert current.
  induction newConnections as [|[s conns] rest IH]; intros current Hk;
    cbn; [done|].
  unfold Obj.keys in Hk. cbn in Hk. apply not_elem_of_cons in Hk as [Hne Hk].
  rewrite IH by done. apply get_mergeSource_ne. congruence.
Qed.

(** ** C5 *)

(** C5.  A merge never shortens the node list; every node of the current
    workflow that the update does not name stays where it was, unchanged;
    and every source of the current connections that the update does not
    mention is looked up to the same entry after the merge (a source that
    was absent stays absent). *)
Theorem merge_preserves_untouched (currentNodes newNodes : list AnyNode)
    (currentConnections newConnections : Obj.t (Obj.t json)) :
  (length currentNodes ≤ length (mergeNodes currentNodes newNodes))%nat
  ∧ (∀ i node, currentNodes !! i = Some node →
               ¬ mentions newNodes node →
               mergeNodes currentNodes newNodes !! i = Some node)
  ∧ (∀ source, source ∉ Obj.keys newConnections →
               Obj.get source (mergeConnections currentConnections
                                                newConnections)
               = Obj.get source currentConnections).
Proof.
  unfold mergeNodes.
  set (ids := fold_left _ currentNodes []).
  destruct (mergeNodes_fold newNodes (currentNodes, ids)) as [Hlen Hkeep].
  split; [exact Hlen|]. split; [exact Hkeep|].
  intros source. apply mergeConnections_untouched.
Qed.
End merge.

Section merge_scenario.
Import UpdateWorkflow.

(** The scenario of the specification: the document has connections for
    the sources X and Y, the update supplies a new slot list for X only;
    X's list is replaced and Y is as it was. *)
Lemma merge_leaves_other_source :
  let oldX := JArr [JArr [JObj [("node", JStr "Y"); ("type", JStr "main");
                                ("index", JNum 0)]]] in
  let oldY := JArr [JArr [JObj [("node", JStr "Z"); ("type", JStr "main");
                                ("index", JNum 0)]]] in
  let newX := JArr [JArr [JObj [("node", JStr "Z"); ("type", JStr "main");
                                ("index", JNum 1)]]] in
  mergeConnections [("X", [("main", oldX)]); ("Y", [("main", oldY)])]
                   [("X", [("main", newX)])]
  = [("X", [("main", newX)]); ("Y", [("main", oldY)])].
Proof. reflexivity. Qed.

(** A node the update names is overwritten field by field, a node it does
    not name is kept, and a node with a new id is appended. *)
Lemma merge_updates_and_appends :
  mergeNodes
    [[("id", JStr "n1"); ("name", JStr "Start")];
     [("id", JStr "n2"); ("name", JStr "Fetch")]]
    [[("id", JStr "n2"); ("name", JStr "Fetch again")];
     [("id", JStr "n3"); ("name", JStr "Store")]]
  = [[("id", JStr "n1"); ("name", JStr "Start")];
     [("id", JStr "n2"); ("name", JStr "Fetch again")];
     [("id", JStr "n3"); ("name", JStr "Store")]].
Proof. reflexivity. Qed.
End merge_scenario.

Section merge_ids.
Import UpdateWorkflow.

Lemma same_value_eq a b : same_value a b = true → a = b.
Proof.
  destruct a as [[]|], b as [[]|]; cbn; try done;
    by intros ->%bool_decide_eq_true.
Qed.

(** [{ ...a, ...b }] reads a property from [b] when [b] has it. *)
Lemma get_spread k (a b : AnyNode) :
  NoDup (Obj.keys b) →
  Obj.get k (spread a b)
  = match Obj.get k b with Some v => Some v | None => Obj.get k a end.
Proof.
  unfold spread, Obj.keys. revert a.
  induction b as [|[k0 v0] b IH]; intros a Hnd; [done|].
  cbn in Hnd. apply NoDup_cons in Hnd as [Hk0 Hnd].
  cbn [fold_left Obj.get]. rewrite IH by done.
  destruct (decide (k0 = k)) as [->|Hne].
  - apply (proj2 (get_None_keys k b)) in Hk0. by rewrite Hk0, get_put_eq.
  - by rewrite get_put_ne.
Qed.

Lemma mergeNode_keeps_id st newNode i node :
  NoDup (Obj.keys newNode) →
  st.1 !! i = Some node →
  ∃ node', (mergeNode st newNode).1 !! i = Some node'
           ∧ idOf node' = idOf node.
Proof.
  destruct st as [merged ids]. unfold mergeNode. cbn [fst]. intros Hnd Hi.
  destruct (js_truthy (idOf newNode)) eqn:Ht; cbn [andb].
  - destruct (idSet_has (idOf newNode) ids).
    + destruct (list_find _ merged) as [[index old]|] eqn:Hfind;
        cbn [fst]; [|by eauto].
      apply list_find_Some in Hfind as (Hlk & Hsame & _).
      destruct (decide (index = i)) as [->|Hne].
      * rewrite list_lookup_insert_eq by (eapply lookup_lt_Some; eauto).
        eexists. split; [done|]. unfold idOf in *.
        rewrite get_spread by done.
        assert (old = node) as -> by congruence.
        apply same_value_eq in Hsame. rewrite <- Hsame.
        by destruct (Obj.get "id" node).
      * rewrite list_lookup_insert_ne by done. eauto.
    + cbn [fst]. exists node. split; [by apply lookup_app_l_Some|done].
  - cbn [fst]. exists node. split; [by apply lookup_app_l_Some|done].
Qed.

(** X2. Every node of the current workflow is still at its index after a
    merge, under the id it had (the incoming nodes being objects, whose
    property names are distinct). *)
Lemma mergeNodes_keeps_ids (currentNodes newNodes : list AnyNode) i node :
  Forall (λ m, NoDup (Obj.keys m)) newNodes →
  currentNodes !! i = Some node →
  ∃ node', mergeNodes currentNodes newNodes !! i = Some node'
           ∧ idOf node' = idOf node.
Proof.
  unfold mergeNodes. generalize (fold_left (λ s n, idSet_add (idOf n) s)
                                           currentNodes []).
  intros ids Hnd. revert currentNodes ids node.
  induction Hnd as [|m newNodes Hm _ IH]; intros cur ids node Hi;
    cbn [fold_left]; [by eauto|].
  destruct (mergeNode_keeps_id (cur, ids) m i node Hm Hi)
    as (node1 & H1 & Hid1).
  destruct (mergeNode (cur, ids) m) as [cur1 ids1]. cbn [fst] in H1.
  destruct (IH cur1 ids1 node1 H1) as (node' & H' & Hid').
  exists node'. split; [done|congruence].
Qed.

Lemma mergeNodes_keeps_ids_witness :
  ∃ node',
    mergeNodes
      [[("id", JStr "n1"); ("name", JStr "Start")];
       [("id", JStr "n2"); ("name", JStr "Fetch")]]
      [[("id", JStr "n2"); ("name", JStr "Fetch again")]] !! 1%nat
    = Some node'
    ∧ idOf node' = idOf [("id", JStr "n2"); ("name", JStr "Fetch")].
Proof.
  apply (mergeNodes_keeps_ids
           [[("id", JStr "n1"); ("name", JStr "Start")];
            [("id", JStr "n2"); ("name", JStr "Fetch")]]
           [[("id", JStr "n2"); ("name", JStr "Fetch again")]] 1%nat).
  - constructor; [|constructor].
    apply (bool_decide_unpack _). vm_compute. exact I.
  - reflexivity.
Defined.
End merge_ids.

(** ** The execution poller *)

Section poller.
Import ExecuteWorkflow.

Context (env : Env) (executionId : string) (timeoutSeconds startTime : Z).

Lemma pollLoop_times_out (n : nat) :
  neverFinished env executionId timeoutSeconds startTime →
  timersOnTime env →
  ∀ fuel t pollInterval pollCount,
    (2000 ≤ pollInterval)%Z →
    (timeoutMs timeoutSeconds - (t - startTime) ≤ 2000 * Z.of_nat n)%Z →
    (n < fuel)%nat →
    ∃ endTime,
      (timeoutMs timeoutSeconds ≤ endTime - startTime)%Z ∧
      pollLoop fuel env executionId timeoutSeconds startTime t
               pollInterval pollCount
      = Some (inr (timeoutResult executionId timeoutSeconds startTime
                                 endTime)).
Proof.
  intros Hrun Htimer.
  induction n as [|n IH]; intros fuel t pollInterval pollCount Hint Hrem Hfuel;
    (destruct fuel as [|fuel]; [lia|]); cbn [pollLoop];
    case_bool_decide as Hcond; try lia.
  - exists t. split; [lia|done].
  - destruct (Hrun pollCount t Hcond) as (execution & t' & -> & -> & Ht').
    set (pollInterval' :=
           if bool_decide (90 * 1000 < t' - startTime)%Z then 10000%Z
           else if bool_decide (30 * 1000 < t' - startTime)%Z then 5000%Z
                else pollInterval).
    assert (2000 ≤ pollInterval')%Z
      by (subst pollInterval'; repeat case_bool_decide; lia).
    pose proof (Htimer t' pollInterval').
    apply IH; lia.
  - exists t. split; [lia|done].
Qed.

(** A run that ended ends the same way with more fuel. *)
Lemma pollLoop_more_fuel f1 f2 t pollInterval pollCount r :
  (f1 ≤ f2)%nat →
  pollLoop f1 env executionId timeoutSeconds startTime t pollInterval
           pollCount = Some r →
  pollLoop f2 env executionId timeoutSeconds startTime t pollInterval
           pollCount = Some r.
Proof.
  revert f2 t pollInterval pollCount.
  induction f1 as [|f1 IH]; intros f2 t i c Hle; [done|].
  destruct f2 as [|f2]; [lia|]. cbn [pollLoop].
  case_bool_decide; [|done].
  destruct (getExecution env c executionId t) as [[e|ex] t']; [done|].
  destruct (completed ex); [done|]. apply IH. lia.
Qed.

(** ** C8 *)

(** C8.  When no status request sent before the timeout reports a finished
    execution (and none fails), and timers do not fire early, the poll loop
    ends: with enough fuel [pollExecutionCompletion] returns, rather than
    throws, the record with status ["timeout"] whose duration is the
    configured timeout in milliseconds, [timeoutSeconds * 1000], whatever
    the instant [endTime] at which the loop was left. *)
Theorem poll_times_out :
  neverFinished env executionId timeoutSeconds startTime →
  timersOnTime env →
  ∃ fuel0 endTime result,
    (∀ fuel, (fuel0 ≤ fuel)%nat →
       pollExecutionCompletion fuel env executionId timeoutSeconds startTime
       = Some (inr result))
    ∧ result = timeoutResult executionId timeoutSeconds startTime endTime
    ∧ r_status result = "timeout"
    ∧ r_duration result = (timeoutSeconds * 1000)%Z
    ∧ (r_duration result ≤ endTime - startTime)%Z.
Proof.
  intros Hrun Htimer.
  set (n := Z.to_nat (timeoutMs timeoutSeconds)).
  destruct (pollLoop_times_out n Hrun Htimer (S n) startTime 2000 0%nat)
    as (endTime & Hend & Hpoll); [lia|lia|lia|].
  exists (S n), endTime,
    (timeoutResult executionId timeoutSeconds startTime endTime).
  split; [|split; [done|split; [done|split; [done|exact Hend]]]].
  intros fuel Hfuel. unfold pollExecutionCompletion.
  by eapply pollLoop_more_fuel.
Qed.
End poller.

Section poller_witness.
Import ExecuteWorkflow.

Lemma poll_times_out_witness :
  ∃ fuel0 endTime result,
    (∀ fuel, (fuel0 ≤ fuel)%nat →
       pollExecutionCompletion fuel slowRun "exec-1" 5 0 = Some (inr result))
    ∧ result = timeoutResult "exec-1" 5 0 endTime
    ∧ r_status result = "timeout"
    ∧ r_duration result = (5 * 1000)%Z
    ∧ (r_duration result ≤ endTime - 0)%Z.
Proof.
  apply (poll_times_out slowRun "exec-1" 5 0).
  - intros n t _. exists runningExecution, (t + 100)%Z.
    split; [reflexivity|]. split; [reflexivity|lia].
  - intros t d. simpl. lia.
Defined.

(** The loop of the witness is left at 6300 ms, and reports 5000. *)
Lemma slowRun_overruns :
  pollExecutionCompletion 10 slowRun "exec-1" 5 0
  = Some (inr (timeoutResult "exec-1" 5 0 6300)).
Proof. reflexivity. Qed.
End poller_witness.

(** ** generateNodeId and addNodeToWorkflow *)

Section node_ids.
Import WorkflowUtils.

Lemma StrSet_has_elem x s : StrSet.has x s = true ↔ x ∈ s.
Proof. unfold StrSet.has. apply bool_decide_eq_true. Qed.

Lemma StrSet_of_list_elem x xs : x ∈ StrSet.of_list xs ↔ x ∈ xs.
Proof.
  unfold StrSet.of_list.
  assert (∀ s, x ∈ fold_left (λ s x, StrSet.add x s) xs s ↔ x ∈ s ∨ x ∈ xs)
    as H.
  { induction xs as [|y xs IH]; intros s; simpl.
    - rewrite elem_of_nil. tauto.
    - rewrite IH, elem_of_cons. unfold StrSet.add.
      destruct (StrSet.has y s) eqn:Hy.
      + apply StrSet_has_elem in Hy. split; [tauto|].
        intros [?|[->|?]]; tauto.
      + rewrite elem_of_app, list_elem_of_singleton. tauto. }
  rewrite H, elem_of_nil. tauto.
Qed.

Lemma findNodeById_None w i :
  findNodeById w i = None ↔ i ∉ map node_id (nodes w).
Proof.
  unfold findNodeById. rewrite fmap_None, list_find_None, Forall_forall.
  rewrite list_elem_of_fmap. split.
  - intros H (n & -> & Hn). by apply (H n).
  - intros H n Hn Heq. apply H. by exists n.
Qed.

Lemma findNodeById_is_Some w i :
  is_Some (findNodeById w i) ↔ i ∈ map node_id (nodes w).
Proof.
  rewrite <- not_eq_None_Some, findNodeById_None.
  destruct (decide (i ∈ map node_id (nodes w))); tauto.
Qed.

Lemma candidate_inj prefix (m n : nat) :
  prefix +:+ pretty m = prefix +:+ pretty n → m = n.
Proof. intros H. by apply (inj pretty), (inj (String.app prefix)). Qed.

(** The candidate the loop returns is the first one, from [counter] on,
    that is not taken. *)
Lemma generateLoop_least ids prefix bound :
  ∀ counter,
    ∃ n, (counter ≤ n ≤ counter + bound)%nat
         ∧ generateLoop bound ids prefix counter = prefix +:+ pretty n
         ∧ ∀ m, (counter ≤ m < n)%nat → prefix +:+ pretty m ∈ ids.
Proof.
  induction bound as [|bound IH]; intros counter; simpl.
  - exists counter. split; [lia|]. split; [done|]. intros m ?. lia.
  - destruct (StrSet.has (prefix +:+ pretty counter) ids) eqn:Hhas.
    + destruct (IH (S counter)) as (n & Hn & Heq & Hbelow).
      exists n. split; [lia|]. split; [done|].
      intros m Hm. destruct (decide (m = counter)) as [->|Hne].
      * by apply StrSet_has_elem.
      * apply Hbelow. lia.
    + exists counter. split; [lia|]. split; [done|]. intros m ?. lia.
Qed.

(** Candidates found taken are distinct members of [ids]; once there are
    as many of them as [ids] has entries, no further candidate is taken. *)
Lemma generateLoop_fresh ids prefix bound :
  ∀ counter (seen : list nat),
    NoDup seen →
    (∀ m, m ∈ seen → prefix +:+ pretty m ∈ ids ∧ (m < counter)%nat) →
    (length ids ≤ length seen + bound)%nat →
    generateLoop bound ids prefix counter ∉ ids.
Proof.
  induction bound as [|bound IH]; intros counter seen Hnd Hseen Hlen; simpl.
  - intros Hin.
    assert (NoDup (counter :: seen)) as Hnd'.
    { apply NoDup_cons. split; [|done].
      intros Hc. apply Hseen in Hc. lia. }
    assert (NoDup ((λ m : nat, prefix +:+ pretty m) <$> counter :: seen))
      as Hnds.
    { apply NoDup_fmap_2_strong; [|done].
      intros m n _ _. apply candidate_inj. }
    apply NoDup_submseteq with (k := ids) in Hnds.
    + apply submseteq_length in Hnds.
      rewrite length_fmap in Hnds. simpl in Hnds. lia.
    + intros x (m & -> & Hm)%list_elem_of_fmap.
      apply elem_of_cons in Hm as [->|Hm]; [done|]. by apply Hseen.
  - destruct (StrSet.has (prefix +:+ pretty counter) ids) eqn:Hhas.
    + apply (IH (S counter) (counter :: seen)).
      * apply NoDup_cons. split; [|done].
        intros Hc. apply Hseen in Hc. lia.
      * intros m [->|Hm]%elem_of_cons.
        -- split; [by apply StrSet_has_elem|lia].
        -- destruct (Hseen m Hm). split; [done|lia].
      * simpl. lia.
    + intros Hin. apply StrSet_has_elem in Hin. congruence.
Qed.

Lemma generateLoop_ext ids1 ids2 prefix bound :
  (∀ x, x ∈ ids1 ↔ x ∈ ids2) →
  ∀ counter, generateLoop bound ids1 prefix counter
             = generateLoop bound ids2 prefix counter.
Proof.
  intros Hext. induction bound as [|bound IH]; intros counter; simpl.
  - done.
  - rewrite IH.
    replace (StrSet.has (prefix +:+ pretty counter) ids1)
      with (StrSet.has (prefix +:+ pretty counter) ids2); [done|].
    unfold StrSet.has. apply bool_decide_ext. by rewrite Hext.
Qed.

Lemma generateNodeId_spec workflow prefix :
  ∃ n : nat,
    (1 ≤ n ≤ length (nodes workflow) + 1)%nat
    ∧ generateNodeId workflow prefix
      = (default "node" prefix +:+ pretty n)
    ∧ (generateNodeId workflow prefix ∉ map node_id (nodes workflow))
    ∧ ∀ m : nat, (1 ≤ m < n)%nat →
        (default "node" prefix +:+ pretty m) ∈ map node_id (nodes workflow).
Proof.
  unfold generateNodeId.
  rewrite (generateLoop_ext _ (map node_id (nodes workflow)))
    by (intros x; apply StrSet_of_list_elem).
  destruct (generateLoop_least (map node_id (nodes workflow))
              (default "node" prefix) (length (nodes workflow)) 1)
    as (n & Hn & Heq & Hbelow).
  exists n. split; [lia|]. split; [done|]. split; [|done].
  apply (generateLoop_fresh _ _ _ 1%nat []).
  - apply NoDup_nil_2.
  - intros m Hm. by apply elem_of_nil in Hm.
  - rewrite length_map. simpl. lia.
Qed.

(** X3. [generateNodeId] returns the first of [prefix1], [prefix2], ...
    that is the id of no node of the workflow: the number it appends is
    at most the number of nodes plus one, no node has the returned id,
    and every smaller number gives the id of some node. *)
Theorem generateNodeId_fresh (workflow : Workflow) (prefix : option string) :
  ∃ n : nat,
    (1 ≤ n ≤ length (nodes workflow) + 1)%nat
    ∧ generateNodeId workflow prefix
      = (default "node" prefix +:+ pretty n)
    ∧ findNodeById workflow (generateNodeId workflow prefix) = None
    ∧ ∀ m : nat, (1 ≤ m < n)%nat →
        is_Some (findNodeById workflow (default "node" prefix +:+ pretty m)).
Proof.
  destruct (generateNodeId_spec workflow prefix)
    as (n & Hn & Heq & Hfresh & Hbelow).
  exists n. split; [done|]. split; [done|]. split.
  - by apply findNodeById_None.
  - intros m Hm. apply findNodeById_is_Some. by apply Hbelow.
Qed.

End node_ids.

(** ** validateWorkflowIntegrity and validateNodesExist *)

Section integrity_characterised.
Import WorkflowUtils.

Lemma StrSet_elem_add x y s : x ∈ StrSet.add y s ↔ x = y ∨ x ∈ s.
Proof.
  unfold StrSet.add. destruct (StrSet.has y s) eqn:Hy.
  - apply StrSet_has_elem in Hy. split; [tauto|]. by intros [->|?].
  - rewrite elem_of_app, list_elem_of_singleton. tauto.
Qed.

(** The state of the loop over the nodes: the two sets hold what they
    held and the ids and names met; no error is pushed iff none was
    there, the ids met are new and distinct, and so are the names. *)
Lemma scanNode_fold ns :
  ∀ st,
    let st' := fold_left scanNode ns st in
    (∀ x, x ∈ st'.1.1 ↔ x ∈ st.1.1 ∨ x ∈ map node_id ns)
    ∧ (∀ x, x ∈ st'.1.2 ↔ x ∈ st.1.2 ∨ x ∈ map node_name ns)
    ∧ (st'.2 = [] ↔
         st.2 = []
         ∧ NoDup (map node_id ns)
         ∧ (∀ x, x ∈ map node_id ns → x ∉ st.1.1)
         ∧ NoDup (map node_name ns)
         ∧ (∀ x, x ∈ map node_name ns → x ∉ st.1.2)).
Proof.
  induction ns as [|n ns IH]; intros [[ids names] errs]; cbn zeta.
  - cbn. split; [|split].
    + intros x. rewrite elem_of_nil. tauto.
    + intros x. rewrite elem_of_nil. tauto.
    + split.
      * intros ->. repeat split; try apply NoDup_nil_2;
          intros x Hx; by apply elem_of_nil in Hx.
      * by intros [-> _].
  - cbn [fold_left map].
    specialize (IH (scanNode (ids, names, errs) n)).
    cbn zeta in IH. destruct IH as (Hids & Hnames & Herrs).
    split; [|split].
    + intros x. rewrite Hids. cbn. rewrite StrSet_elem_add, elem_of_cons.
      tauto.
    + intros x. rewrite Hnames. cbn. rewrite StrSet_elem_add, elem_of_cons.
      tauto.
    + rewrite Herrs. cbn [scanNode fst snd].
      rewrite !NoDup_cons.
      assert (∀ (P : string → Prop) y l,
                (∀ x, x ∈ y :: l → P x) ↔ P y ∧ ∀ x, x ∈ l → P x) as Hall.
      { intros P y l. split.
        - intros H. split; [apply H; left|]. intros x Hx. apply H.
          by right.
        - intros [Hy Hl] x [->|Hx]%elem_of_cons; [done|by apply Hl]. }
      rewrite !Hall.
      assert (∀ (l : list string) (s : StrSet.t) y,
                (∀ x, x ∈ l → x ∉ StrSet.add y s)
                ↔ (y ∉ l) ∧ ∀ x, x ∈ l → x ∉ s) as Hadd.
      { intros l s y. split.
        - intros H. split.
          + intros Hy. apply (H y Hy). apply StrSet_elem_add. by left.
          + intros x Hx Hs. apply (H x Hx). apply StrSet_elem_add.
            by right.
        - intros [Hy Hl] x Hx [->|Hs]%StrSet_elem_add; [done|].
          by apply (Hl x). }
      rewrite !Hadd.
      destruct (StrSet.has (node_id n) ids) eqn:Hi;
        destruct (StrSet.has (node_name n) names) eqn:Hn;
        cbn [fst snd].
      all: try apply StrSet_has_elem in Hi.
      all: try apply StrSet_has_elem in Hn.
      all: try (apply not_true_iff_false in Hi;
                rewrite StrSet_has_elem in Hi).
      all: try (apply not_true_iff_false in Hn;
                rewrite StrSet_has_elem in Hn).
      * split; [by intros [[? [=]]%app_eq_nil _]|tauto].
      * split; [by intros [[? [=]]%app_eq_nil _]|tauto].
      * split; [by intros [[? [=]]%app_eq_nil _]|tauto].
      * tauto.
Qed.

Lemma scanNodes_names_elem ns x :
  StrSet.has x (scanNodes ns).1.2 = true ↔ x ∈ map node_name ns.
Proof.
  rewrite StrSet_has_elem. unfold scanNodes.
  destruct (scanNode_fold ns ([], [], [])) as (_ & Hnames & _).
  cbn zeta in Hnames. rewrite Hnames. cbn. rewrite elem_of_nil. tauto.
Qed.

Lemma scanNodes_errors_nil ns :
  (scanNodes ns).2 = [] ↔ NoDup (map node_id ns) ∧ NoDup (map node_name ns).
Proof.
  unfold scanNodes.
  destruct (scanNode_fold ns ([], [], [])) as (_ & _ & Herrs).
  cbn zeta in Herrs. rewrite Herrs. cbn. split.
  - tauto.
  - intros [? ?]. repeat split; try done;
      intros x _ Hx; by apply elem_of_nil in Hx.
Qed.

Lemma sourceErrors_resolve ns (entry : string * Obj.t ConnectionArrays) :
  sourceErrors (scanNodes ns).1.2 entry = []
  ↔ namesResolve (map node_name ns) entry.
Proof.
  destruct entry as [sn byType]. rewrite sourceErrors_nil.
  unfold namesResolve. cbn [fst snd]. rewrite scanNodes_names_elem.
  apply and_iff_compat_l. apply Forall_iff. intros [ty slots]. cbn.
  apply Forall_iff. intros slot. apply Forall_iff. intros c.
  apply scanNodes_names_elem.
Qed.

Lemma integrity_wellFormed w :
  isValid (validateWorkflowIntegrity w) = true ↔ wellFormed w.
Proof.
  rewrite validateWorkflowIntegrity_valid, scanNodes_errors_nil.
  unfold wellFormed, idsOf, namesOf.
  assert (Forall (λ e, sourceErrors (scanNodes (nodes w)).1.2 e = [])
                 (connections w)
          ↔ Forall (namesResolve (map node_name (nodes w))) (connections w))
    as ->; [|tauto].
  apply Forall_iff. intros e. apply sourceErrors_resolve.
Qed.

(** X4. [validateWorkflowIntegrity] accepts a workflow exactly when no two
    nodes share an id, no two share a name, and every key of the
    connections and every target of an edge is the name of a node; the
    list of errors is empty exactly then. *)
Theorem validateWorkflowIntegrity_iff (w : Workflow) :
  (isValid (validateWorkflowIntegrity w) = true ↔ wellFormed w)
  ∧ (errors (validateWorkflowIntegrity w) = [] ↔ wellFormed w).
Proof.
  split; [apply integrity_wellFormed|].
  rewrite <- integrity_wellFormed. unfold validateWorkflowIntegrity.
  destruct (scanNodes (nodes w)) as [[ids names] errs]. cbn.
  by rewrite bool_decide_eq_true, length_zero_iff_nil.
Qed.

Lemma validateNodesExist_spec (w : Workflow) (nodeIds : list string) :
  (isValid (validateNodesExist w nodeIds) = true
   ↔ Forall (λ i, is_Some (findNodeById w i)) nodeIds)
  ∧ errors (validateNodesExist w nodeIds)
    = (λ i, "Node with ID '" +:+ i +:+ "' not found in workflow")
        <$> filter (λ i, findNodeById w i = None) nodeIds.
Proof.
  unfold validateNodesExist. cbn [isValid errors].
  induction nodeIds as [|i ids [IHv IHe]].
  - cbn. split; [|done]. by rewrite bool_decide_eq_true.
  - cbn [map]. rewrite Forall_cons.
    destruct (findNodeById w i) as [n|] eqn:Hfind.
    + assert (validateNodeExists w i = mkNodeValidation true [] (Some i))
        as -> by (unfold validateNodeExists; by rewrite Hfind).
      rewrite (filter_cons_False (λ v, nv_isValid v = false)) by done.
      rewrite (filter_cons_False (λ i, findNodeById w i = None))
        by (by rewrite Hfind).
      split; [|exact IHe].
      rewrite IHv. split; [|tauto]. intros H. split; [by eexists|done].
    + assert (validateNodeExists w i
              = mkNodeValidation false
                  ["Node with ID '" +:+ i +:+ "' not found in workflow"]
                  (Some i))
        as -> by (unfold validateNodeExists; by rewrite Hfind).
      rewrite (filter_cons_True (λ v, nv_isValid v = false)) by done.
      rewrite (filter_cons_True (λ i, findNodeById w i = None)) by done.
      split.
      * cbn. rewrite bool_decide_eq_true. split; [done|].
        intros [[? [=]] _].
      * cbn [map concat nv_errors fmap list_fmap]. cbn. f_equal.
        exact IHe.
Qed.

Lemma missing_nil w (ids : list string) :
  filter (λ i, findNodeById w i = None) ids = []
  ↔ Forall (λ i, is_Some (findNodeById w i)) ids.
Proof.
  induction ids as [|i ids IH]; [done|].
  rewrite Forall_cons, <- IH.
  destruct (findNodeById w i) as [n|] eqn:Hfind.
  - rewrite filter_cons_False by (by rewrite Hfind).
    split; [by split; [eexists|]|tauto].
  - rewrite filter_cons_True by done.
    split; [done|]. by intros [[? [=]] _].
Qed.

Lemma validateNodesExist_outcome w (ids : list string) :
  BaseNodeHandler.validateNodesExist w ids
  = match filter (λ i, findNodeById w i = None) ids with
    | [] => inr tt
    | missing => inl (N8nApiError (join ", " (nodeNotFound <$> missing)))
    end.
Proof.
  unfold BaseNodeHandler.validateNodesExist.
  destruct (validateNodesExist_spec w ids) as [Hvalid Herrors].
  unfold nodeNotFound. rewrite Herrors.
  destruct (filter _ ids) as [|i missing] eqn:Hmissing.
  - apply missing_nil, Hvalid in Hmissing. by rewrite Hmissing.
  - destruct (isValid (validateNodesExist w ids)) eqn:Hv; [|done].
    pose proof (proj1 Hvalid eq_refl) as Hall.
    apply missing_nil in Hall. congruence.
Qed.

(** X5. [validateNodesExist] accepts a list of ids exactly when each of
    them is the id of a node, and it reports one error per id that is
    not, in the order of the list.  [BaseNodeHandler.validateNodesExist],
    the check of the handlers, returns when every id is the id of a node
    and throws the [N8nApiError] that joins those errors with [", "]
    otherwise. *)
Theorem validateNodesExist_iff (w : Workflow) (nodeIds : list string) :
  (isValid (validateNodesExist w nodeIds) = true
   ↔ Forall (λ i, is_Some (findNodeById w i)) nodeIds)
  ∧ errors (validateNodesExist w nodeIds)
    = (λ i, "Node with ID '" +:+ i +:+ "' not found in workflow")
        <$> filter (λ i, findNodeById w i = None) nodeIds
  ∧ BaseNodeHandler.validateNodesExist w nodeIds
    = match filter (λ i, findNodeById w i = None) nodeIds with
      | [] => inr tt
      | missing =>
          inl (N8nApiError
                 (join ", "
                    ((λ i, "Node with ID '" +:+ i
                           +:+ "' not found in workflow") <$> missing)))
      end.
Proof.
  destruct (validateNodesExist_spec w nodeIds) as [Hvalid Herrors].
  split; [exact Hvalid|]. split; [exact Herrors|].
  apply validateNodesExist_outcome.
Qed.

End integrity_characterised.

(** ** cleanWorkflowForUpdate and updateWorkflowSafely *)

Section clean_for_update.
Import BaseNodeHandler.

Lemma remove_filter {V} k (o : Obj.t V) :
  Obj.remove k o = filter (λ e, e.1 ≠ k) o.
Proof.
  induction o as [|[k0 v0] o IH]; simpl; [done|].
  destruct (decide (k0 = k)) as [->|Hne].
  - rewrite filter_cons_False by (cbn; tauto). exact IH.
  - rewrite filter_cons_True by done. by rewrite IH.
Qed.

Lemma fold_remove_filter {V} (ks : list string) :
  ∀ o : Obj.t V,
    fold_left (λ o k, Obj.remove k o) ks o = filter (λ e, e.1 ∉ ks) o.
Proof.
  induction ks as [|k ks IH]; intros o; simpl.
  - induction o as [|e o IHo]; [done|].
    rewrite filter_cons_True by apply not_elem_of_nil. by rewrite <- IHo.
  - rewrite IH, remove_filter, list_filter_filter.
    apply list_filter_iff. intros e. rewrite not_elem_of_cons. tauto.
Qed.

Lemma filter_idemp {A} (P : A → Prop) `{∀ x, Decision (P x)} (l : list A) :
  filter P (filter P l) = filter P l.
Proof.
  rewrite list_filter_filter. apply list_filter_iff. intros x. tauto.
Qed.

(** X6. [cleanWorkflowForUpdate] drops [id], [active] and the ten other
    read-only properties, drops [callerIds] and [callerPolicy] from the
    settings, and keeps the name, the nodes, the connections and every
    other property, in their order; cleaning a cleaned workflow changes
    nothing. *)
Theorem cleanWorkflowForUpdate_spec (w : Workflow) :
  let cleaned := cleanWorkflowForUpdate w in
  wf_id cleaned = None ∧ active cleaned = None
  ∧ wf_name cleaned = wf_name w ∧ nodes cleaned = nodes w
  ∧ connections cleaned = connections w
  ∧ extra cleaned = filter (λ e, e.1 ∉ readOnlyFields) (extra w)
  ∧ settings cleaned
    = filter (λ e, e.1 ≠ "callerPolicy" ∧ e.1 ≠ "callerIds") <$> settings w
  ∧ cleanWorkflowForUpdate cleaned = cleaned.
Proof.
  cbn zeta. unfold cleanWorkflowForUpdate. cbn [wf_id active wf_name nodes
    connections extra settings].
  repeat (split; [done|]).
  split; [apply fold_remove_filter|].
  assert (∀ s : Obj.t string,
            Obj.remove "callerPolicy" (Obj.remove "callerIds" s)
            = filter (λ e, e.1 ≠ "callerPolicy" ∧ e.1 ≠ "callerIds") s)
    as Hsettings.
  { intros s. by rewrite !remove_filter, list_filter_filter. }
  split.
  - destruct (settings w) as [s|]; cbn; [|done]. by rewrite Hsettings.
  - f_equal.
    + destruct (settings w) as [s|]; cbn; [|done].
      by rewrite !Hsettings, filter_idemp.
    + by rewrite !fold_remove_filter, filter_idemp.
Qed.

End clean_for_update.

Section safe_update_runs.
Import WorkflowUtils BaseNodeHandler.
Context {R : Type} (api : ApiService R Workflow) (workflowId : string).

Lemma updateWorkflowSafely_fetch_fails workflowUpdater validate world e :
  api_getWorkflow api workflowId (remote world) = inl e →
  updateWorkflowSafely api workflowId workflowUpdater validate world
  = (inl e, fetched workflowId world).
Proof.
  intros Hget. unfold updateWorkflowSafely, bind, getWorkflow.
  by rewrite Hget.
Qed.

Lemma updateWorkflowSafely_updater_throws workflowUpdater validate world
    current e :
  api_getWorkflow api workflowId (remote world) = inr current →
  workflowUpdater current = inl e →
  updateWorkflowSafely api workflowId workflowUpdater validate world
  = (inl (rethrown e), fetched workflowId world).
Proof.
  intros Hget Hupd.
  unfold updateWorkflowSafely, bind, try_catch, getWorkflow, lift, throw.
  rewrite Hget, Hupd. by destruct e.
Qed.

Lemma updateWorkflowSafely_invalid workflowUpdater world current mutated :
  api_getWorkflow api workflowId (remote world) = inr current →
  workflowUpdater current = inr mutated →
  isValid (validateWorkflowIntegrity mutated) = false →
  updateWorkflowSafely api workflowId workflowUpdater true world
  = (inl (N8nApiError
            ("Workflow integrity validation failed: "
             +:+ join ", " (errors (validateWorkflowIntegrity mutated)))),
     fetched workflowId world).
Proof.
  intros Hget Hupd Hinvalid.
  unfold updateWorkflowSafely, bind, try_catch, getWorkflow, lift, throw.
  cbn [remote calls]. by rewrite Hget, Hupd, Hinvalid.
Qed.

Lemma updateWorkflowSafely_writes workflowUpdater validate world current
    mutated :
  api_getWorkflow api workflowId (remote world) = inr current →
  workflowUpdater current = inr mutated →
  (validate = true → isValid (validateWorkflowIntegrity mutated) = true) →
  let answer :=
    api_updateWorkflow api workflowId (cleanWorkflowForUpdate mutated)
                       (remote world) in
  updateWorkflowSafely api workflowId workflowUpdater validate world
  = (match answer.1 with
     | inl e => inl (rethrown e)
     | inr updated => inr updated
     end,
     mkWorld answer.2
             (calls world
              ++ [CallGet workflowId;
                  CallUpdate workflowId (cleanWorkflowForUpdate mutated)])).
Proof.
  intros Hget Hupd Hvalid. cbn zeta.
  unfold updateWorkflowSafely, bind, try_catch, getWorkflow, lift, throw,
    ret, updateWorkflow.
  cbn [remote calls]. rewrite Hget, Hupd.
  assert ((if validate
           then if negb (isValid (validateWorkflowIntegrity mutated))
                then true else false
           else false) = false) as Hpass.
  { destruct validate; [|done]. by rewrite Hvalid. }
  destruct validate.
  - rewrite Hvalid by done. cbn [negb remote calls fst snd].
    rewrite <- app_assoc. cbn [app].
    destruct (api_updateWorkflow api workflowId
                (cleanWorkflowForUpdate mutated) (remote world))
      as [[e|updated] remote']; cbn; [by destruct e|done].
  - cbn [remote calls fst snd]. rewrite <- app_assoc. cbn [app].
    destruct (api_updateWorkflow api workflowId
                (cleanWorkflowForUpdate mutated) (remote world))
      as [[e|updated] remote']; cbn; [by destruct e|done].
Qed.

(** X7. Whatever the mutation, [updateWorkflowSafely] fetches the
    workflow and then either fails without a further request, leaving
    the remote state as it was, or sends exactly one update: the cleaned
    result of the mutation applied to the fetched workflow, which has
    passed the integrity check when the check was asked for. *)
Theorem updateWorkflowSafely_writes_validated
    (workflowUpdater : Workflow → error + Workflow) (validate : bool)
    (world : World R Workflow) :
  let res :=
    updateWorkflowSafely api workflowId workflowUpdater validate world in
  ((∃ e, res.1 = inl e) ∧ remote res.2 = remote world
   ∧ sent res world [CallGet workflowId])
  ∨ (∃ current mutated,
       api_getWorkflow api workflowId (remote world) = inr current
       ∧ workflowUpdater current = inr mutated
       ∧ (validate = true → wellFormed mutated)
       ∧ sent res world
              [CallGet workflowId;
               CallUpdate workflowId (cleanWorkflowForUpdate mutated)]).
Proof.
  cbn zeta. unfold sent.
  destruct (api_getWorkflow api workflowId (remote world))
    as [e|current] eqn:Hget.
  { left. rewrite (updateWorkflowSafely_fetch_fails _ _ _ e) by done.
    split; [by eexists|done]. }
  destruct (workflowUpdater current) as [e|mutated] eqn:Hupd.
  { left.
    rewrite (updateWorkflowSafely_updater_throws _ _ _ current e) by done.
    split; [by eexists|done]. }
  destruct (decide (validate = true
                    ∧ isValid (validateWorkflowIntegrity mutated) = false))
    as [[-> Hinvalid]|Hok].
  { left.
    rewrite (updateWorkflowSafely_invalid _ _ current mutated) by done.
    split; [by eexists|done]. }
  right. exists current, mutated.
  assert (validate = true →
          isValid (validateWorkflowIntegrity mutated) = true) as Hvalid.
  { intros ->.
    destruct (isValid (validateWorkflowIntegrity mutated)); [done|].
    exfalso. by apply Hok. }
  rewrite (updateWorkflowSafely_writes _ _ _ current mutated) by done.
  split; [done|]. split; [done|]. split; [|done].
  intros Hv. by apply integrity_wellFormed, Hvalid.
Qed.

(** X8. Once the workflow was fetched, every error that
    [updateWorkflowSafely] throws is an [N8nApiError]: an error of
    another kind, thrown by the mutation or by the API when the update is
    sent, is rethrown as one whose message starts with "Failed to update
    workflow: ". *)
Theorem updateWorkflowSafely_throws_api_errors
    (workflowUpdater : Workflow → error + Workflow) (validate : bool)
    (world : World R Workflow) (current : Workflow) (e : error) :
  api_getWorkflow api workflowId (remote world) = inr current →
  (updateWorkflowSafely api workflowId workflowUpdater validate world).1
  = inl e →
  (∃ message, e = N8nApiError message)
  ∧ (∀ text, workflowUpdater current = inl (OtherError text) →
             e = N8nApiError ("Failed to update workflow: " +:+ text)).
Proof.
  intros Hget.
  assert (∀ e', ∃ message, rethrown e' = N8nApiError message) as Hre.
  { intros [m|t]; by eexists. }
  destruct (workflowUpdater current) as [e'|mutated] eqn:Hupd.
  { rewrite (updateWorkflowSafely_updater_throws _ _ _ current e') by done.
    cbn. intros [= <-]. split; [apply Hre|]. by intros text [= ->]. }
  destruct (decide (validate = true
                    ∧ isValid (validateWorkflowIntegrity mutated) = false))
    as [[-> Hinvalid]|Hok].
  { rewrite (updateWorkflowSafely_invalid _ _ current mutated) by done.
    cbn. intros [= <-]. split; [by eexists|done]. }
  assert (validate = true →
          isValid (validateWorkflowIntegrity mutated) = true) as Hvalid.
  { intros ->.
    destruct (isValid (validateWorkflowIntegrity mutated)); [done|].
    exfalso. by apply Hok. }
  rewrite (updateWorkflowSafely_writes _ _ _ current mutated) by done.
  cbn [fst].
  destruct (api_updateWorkflow api workflowId
              (cleanWorkflowForUpdate mutated) (remote world)).1
    as [e'|updated]; [|done].
  intros [= <-]. split; [apply Hre|done].
Qed.

End safe_update_runs.

(** ** updateNodeInWorkflow and the tools built on it *)

Section update_node.
Import WorkflowUtils.

Lemma find_lookup {A} (P : A → Prop) `{∀ x, Decision (P x)} (l : list A)
    i x :
  list_find P l = Some (i, x) → l !! i = Some x ∧ P x.
Proof. intros (? & ? & _)%list_find_Some. done. Qed.

Lemma findNodeById_find w nodeId index node :
  list_find (λ n, node_id n = nodeId) (nodes w) = Some (index, node) →
  findNodeById w nodeId = Some node.
Proof. intros H. unfold findNodeById. by rewrite H. Qed.

Lemma updateNode_found w nodeId updates index node :
  list_find (λ n, node_id n = nodeId) (nodes w) = Some (index, node) →
  updateNodeInWorkflow w nodeId updates
  = (Some (assign node updates),
     set_nodes w (<[index := assign node updates]> (nodes w))).
Proof. intros H. unfold updateNodeInWorkflow. by rewrite H. Qed.

Lemma map_insert {A B} (f : A → B) (l : list A) i x :
  map f (<[i := x]> l) = <[i := f x]> (map f l).
Proof.
  revert i. induction l as [|y l IH]; intros [|i]; simpl; try done.
  by rewrite IH.
Qed.

Lemma map_lookup {A B} (f : A → B) (l : list A) i :
  map f l !! i = f <$> l !! i.
Proof.
  revert i. induction l as [|y l IH]; intros [|i]; simpl; try done.
Qed.

(** An update that sets neither the id nor the name leaves the ids and
    the names of the nodes as they are. *)
Lemma assign_keeps_ids w index node updates :
  nodes w !! index = Some node → p_id updates = None →
  idsOf (set_nodes w (<[index := assign node updates]> (nodes w)))
  = idsOf w.
Proof.
  intros Hlook Hid. unfold idsOf. cbn [nodes set_nodes].
  rewrite map_insert. apply list_insert_id.
  rewrite map_lookup, Hlook. cbn. by rewrite Hid.
Qed.

Lemma assign_keeps_names w index node updates :
  nodes w !! index = Some node → p_name updates = None →
  namesOf (set_nodes w (<[index := assign node updates]> (nodes w)))
  = namesOf w.
Proof.
  intros Hlook Hname. unfold namesOf. cbn [nodes set_nodes].
  rewrite map_insert. apply list_insert_id.
  rewrite map_lookup, Hlook. cbn. by rewrite Hname.
Qed.

Lemma updateNode_keeps_wellFormed w nodeId updates :
  p_id updates = None → p_name updates = None →
  wellFormed w →
  wellFormed (updateNodeInWorkflow w nodeId updates).2.
Proof.
  intros Hid Hname Hwf. unfold updateNodeInWorkflow.
  destruct (list_find _ _) as [[index node]|] eqn:Hfind; [|done].
  apply find_lookup in Hfind as [Hlook _]. cbn [snd].
  unfold wellFormed.
  rewrite (assign_keeps_ids w index node) by done.
  rewrite (assign_keeps_names w index node) by done.
  exact Hwf.
Qed.

(** The names once the entry at [i], which held [old], holds [new]. *)
Lemma insert_elem_NoDup (l : list string) :
  ∀ i old new,
    NoDup l → l !! i = Some old →
    (∀ x, x ∈ <[i := new]> l ↔ x = new ∨ (x ∈ l ∧ x ≠ old))
    ∧ (NoDup (<[i := new]> l) ↔ new = old ∨ new ∉ l).
Proof.
  induction l as [|y l IH]; intros i old new Hnd Hlook; [done|].
  apply NoDup_cons in Hnd as [Hy Hnd].
  destruct i as [|i]; simpl in *.
  - injection Hlook as ->. split.
    + intros x. rewrite !elem_of_cons. split.
      * intros [->|Hx]; [by left|]. right. split; [by right|].
        by intros ->.
      * intros [->|[[->|Hx] Hne]]; [by left|done|by right].
    + rewrite !NoDup_cons, not_elem_of_cons. split.
      * intros [Hnew _]. destruct (decide (new = old)); [by left|].
        by right.
      * intros [->|[_ Hnew]]; by split.
  - destruct (IH i old new Hnd Hlook) as [Helem Hnodup]. split.
    + intros x. rewrite !elem_of_cons, Helem.
      assert (y ≠ old) as Hyo.
      { intros ->. apply Hy. by eapply list_elem_of_lookup_2. }
      split.
      * intros [->|[->|[Hx Hne]]]; [right; split; [by left|done]
                                    |by left
                                    |right; split; [by right|done]].
      * intros [->|[[->|Hx] Hne]]; [by right; left|by left|].
        right. right. done.
    + rewrite !NoDup_cons, Hnodup, Helem, not_elem_of_cons.
      split.
      * intros [Hy' [->|Hnew]]; [by left|].
        right. split; [|done]. intros ->. apply Hy'. by left.
      * intros [->|[Hne Hnew]].
        -- split; [|by left]. intros [->|[Hc _]]; [|done].
           apply Hy. by eapply list_elem_of_lookup_2.
        -- split; [|by right]. intros [->|[Hc _]]; done.
Qed.

Lemma resolve_mentioned names (conns : WorkflowConnections) :
  Forall (namesResolve names) conns
  ↔ ∀ x, x ∈ mentionedNames conns → x ∈ names.
Proof.
  unfold mentionedNames. induction conns as [|[sn byType] conns IH].
  - cbn. split; [|by intros _]. intros _ x Hx. by apply elem_of_nil in Hx.
  - rewrite Forall_cons, IH. cbn [flat_map].
    assert (Forall (λ byType : string * ConnectionArrays,
                      Forall (Forall (λ c, conn_node c ∈ names)) byType.2)
                   byType
            ↔ ∀ x, x ∈ flat_map (λ '(_, slots),
                                   flat_map (map conn_node) slots) byType
                   → x ∈ names) as Htargets.
    { clear IH. induction byType as [|[ty slots] byType IHt].
      - cbn. split; [|by intros _].
        intros _ x Hx. by apply elem_of_nil in Hx.
      - rewrite Forall_cons, IHt. cbn [flat_map snd].
        assert (Forall (Forall (λ c, conn_node c ∈ names)) slots
                ↔ ∀ x, x ∈ flat_map (map conn_node) slots → x ∈ names)
          as Hslots.
        { induction slots as [|slot slots IHs].
          - cbn. split; [|by intros _].
            intros _ x Hx. by apply elem_of_nil in Hx.
          - rewrite Forall_cons, IHs. cbn [flat_map].
            rewrite Forall_forall. split.
            + intros [Hslot Hrest] x [Hx|Hx]%elem_of_app; [|by apply Hrest].
              apply list_elem_of_fmap in Hx as (c & -> & Hc).
              by apply Hslot.
            + intros H. split.
              * intros c Hc. apply H, elem_of_app. left.
                apply list_elem_of_fmap. by exists c.
              * intros x Hx. apply H, elem_of_app. by right. }
        rewrite Hslots. split.
        + intros [H1 H2] x [Hx|Hx]%elem_of_app; [by apply H1|by apply H2].
        + intros H. split; intros x Hx; apply H, elem_of_app;
            [by left|by right]. }
    unfold namesResolve at 1. cbn [fst snd]. rewrite Htargets. split.
    + intros [[Hsn Ht] Hrest] x [[->|Hx]%elem_of_cons|Hx]%elem_of_app;
        [done|by apply Ht|by apply Hrest].
    + intros H. split; [split|].
      * apply H, elem_of_app. left. left.
      * intros x Hx. apply H, elem_of_app. left. by right.
      * intros x Hx. apply H, elem_of_app. by right.
Qed.

Lemma validateNodeExists_found w nodeId node :
  findNodeById w nodeId = Some node →
  BaseNodeHandler.validateNodeExists w nodeId = inr tt.
Proof.
  intros H. unfold BaseNodeHandler.validateNodeExists, validateNodeExists.
  by rewrite H.
Qed.

Lemma validateNodeExists_missing w nodeId :
  findNodeById w nodeId = None →
  BaseNodeHandler.validateNodeExists w nodeId
  = inl (N8nApiError ("Node with ID '" +:+ nodeId
                      +:+ "' not found in workflow")).
Proof.
  intros H. unfold BaseNodeHandler.validateNodeExists, validateNodeExists.
  by rewrite H.
Qed.

Lemma required_truthy s : truthy s = true → required (Some s) = Some s.
Proof. intros H. unfold required. by rewrite H. Qed.

End update_node.

Section update_node_name.
Import WorkflowUtils.
Context {R : Type} (api : ApiService R Workflow).

(** X9. What [update_node_name] does to a node of a well-formed workflow
    when the new name differs from the old one.  The connections are
    keyed by name and the handler leaves them alone, so the integrity
    check turns the renaming down, and nothing is written, whenever the
    old name occurs in the connections or another node has the new name;
    otherwise the handler writes the cleaned workflow in which that node,
    and nothing else, carries the new name. *)
Theorem update_node_name_outcome (world : World R Workflow)
    (workflowId nodeId newName : string) (current : Workflow)
    (index : nat) (node : WorkflowNode) :
  truthy workflowId = true → truthy nodeId = true →
  truthy newName = true →
  api_getWorkflow api workflowId (remote world) = inr current →
  wellFormed current →
  list_find (λ n, node_id n = nodeId) (nodes current)
  = Some (index, node) →
  newName ≠ node_name node →
  let renamed :=
    set_nodes current
      (<[index := mkNode (node_id node) newName (node_type node)
                         (typeVersion node) (position node)
                         (parameters node)]> (nodes current)) in
  let res :=
    UpdateNodeNameHandler.execute api (Some workflowId) (Some nodeId)
                                  (Some newName) world in
  (node_name node ∈ mentionedNames (connections current)
   ∨ newName ∈ namesOf current →
   ∃ message, blockedWith res world workflowId (N8nApiError message))
  ∧ (node_name node ∉ mentionedNames (connections current) →
     newName ∉ namesOf current →
     sent res world
          [CallGet workflowId;
           CallUpdate workflowId
                      (BaseNodeHandler.cleanWorkflowForUpdate renamed)]).
Proof.
  intros Hwid Hnid Hnew Hget Hwf Hfind Hne. cbn zeta.
  unfold UpdateNodeNameHandler.execute.
  rewrite !required_truthy by done.
  set (renamed := set_nodes current _).
  assert (UpdateNodeNameHandler.workflowUpdater nodeId newName current
          = inr renamed) as Hupd.
  { unfold UpdateNodeNameHandler.workflowUpdater.
    rewrite (validateNodeExists_found _ _ node)
      by (by apply (findNodeById_find _ _ index)).
    cbn [and_then].
    by rewrite (updateNode_found _ _ _ index node). }
  destruct (find_lookup _ _ _ _ Hfind) as [Hlook _].
  destruct Hwf as (Hids & Hnames & Hresolve).
  assert (namesOf current !! index = Some (node_name node)) as Hlookn.
  { unfold namesOf. by rewrite map_lookup, Hlook. }
  destruct (insert_elem_NoDup (namesOf current) index (node_name node)
              newName Hnames Hlookn) as [Helem Hnodup].
  assert (namesOf renamed = <[index := newName]> (namesOf current))
    as Hnames'.
  { unfold renamed, namesOf. cbn [nodes set_nodes]. by rewrite map_insert. }
  assert (idsOf renamed = idsOf current) as Hids'.
  { unfold renamed, idsOf. cbn [nodes set_nodes]. rewrite map_insert.
    apply list_insert_id. by rewrite map_lookup, Hlook. }
  assert (wellFormed renamed
          ↔ (newName ∉ namesOf current)
            ∧ (node_name node ∉ mentionedNames (connections current)))
    as Hiff.
  { unfold wellFormed. rewrite Hids', Hnames', Hnodup.
    change (connections renamed) with (connections current).
    rewrite resolve_mentioned.
    rewrite resolve_mentioned in Hresolve. split.
    - intros (_ & [?|Hfresh] & Hres); [done|]. split; [done|].
      intros Hm. apply Hres, Helem in Hm as [Heq|[_ ?]]; [|done].
      by apply Hne.
    - intros [Hfresh Hm]. split; [done|]. split; [by right|].
      intros x Hx. apply Helem. right. split; [by apply Hresolve|].
      by intros ->. }
  split.
  - intros Hbad.
    assert (isValid (validateWorkflowIntegrity renamed) = false) as Hinv.
    { apply not_true_iff_false. rewrite integrity_wellFormed, Hiff.
      tauto. }
    rewrite (updateWorkflowSafely_invalid _ _ _ _ current renamed)
      by done.
    by eexists.
  - intros Hm Hfresh.
    rewrite (updateWorkflowSafely_writes _ _ _ _ _ current renamed);
      [done..|].
    intros _. by apply integrity_wellFormed, Hiff.
Qed.

End update_node_name.

(** ** removeNodeFromWorkflow on documents with distinct ids, and delete_node *)

Section remove_node_idle.
Import WorkflowUtils.

Lemma put_same {V} k v (o : Obj.t V) :
  Obj.get k o = Some v → Obj.put k v o = o.
Proof.
  induction o as [|[k0 v0] o IH]; simpl; [done|].
  destruct (decide (k0 = k)) as [->|Hne].
  - by intros [= ->].
  - intros H. by rewrite IH.
Qed.

Lemma elem_get_NoDup {V} k v (o : Obj.t V) :
  NoDup (Obj.keys o) → (k, v) ∈ o → Obj.get k o = Some v.
Proof.
  unfold Obj.keys. induction o as [|[k0 v0] o IH]; simpl.
  - by intros _ ?%elem_of_nil.
  - intros [Hk0 Hnd]%NoDup_cons [[= -> ->]|Hin]%elem_of_cons.
    + by rewrite decide_True.
    + rewrite decide_False; [by apply IH|].
      intros ->. apply Hk0. apply list_elem_of_fmap. by exists (k, v).
Qed.

Section loops.
Context (hit : NodeConnection → bool)
        (record : string → string → nat → NodeConnection → ConnectionSpec)
        (Hidle : ∀ c, hit c = false).

(** Loops whose test never succeeds leave connections without empty
    leaves as they are. *)
Lemma slotLoop_idle_slots sn ty i :
  ∀ st, Forall (λ s, s ≠ []) st.2 →
        slotLoop hit record sn ty i st = st.
Proof.
  induction i as [|i IH]; intros [removed arrs] Hne; [done|].
  cbn [slotLoop fst snd] in *.
  destruct (arrs !! i) as [slot|] eqn:Hslot; [|by apply IH].
  rewrite edgeLoop_idle by done. cbn [fst snd].
  assert (slot ≠ []) as Hslot'.
  { eapply Forall_forall in Hne; [exact Hne|].
    by eapply list_elem_of_lookup_2. }
  rewrite decide_False by (by destruct slot).
  rewrite list_insert_id by done. by apply IH.
Qed.

Lemma typeLoop_idle_types sn entries :
  ∀ st,
    (∀ ty arrs, (ty, arrs) ∈ entries →
                Obj.get ty st.2 = Some arrs ∧ slotsOk arrs) →
    fold_left (typeStep hit record sn) entries st = st.
Proof.
  induction entries as [|[ty arrs] entries IH]; intros [removed byType] H;
    [done|].
  cbn [fold_left]. unfold typeStep at 2. cbn [fst snd] in *.
  destruct (H ty arrs) as [Hget [Hne Hslots]]; [left|].
  rewrite slotLoop_idle_slots by done. cbn [fst snd].
  rewrite decide_False by (by destruct arrs).
  rewrite put_same by done.
  apply IH. intros ty' arrs' Hin. apply H. by right.
Qed.

Lemma sourceLoop_idle_sources entries :
  ∀ st,
    (∀ sn byType, (sn, byType) ∈ entries →
                  Obj.get sn st.2 = Some byType ∧ typesOk byType
                  ∧ NoDup (Obj.keys byType)) →
    fold_left (sourceStep hit record) entries st = st.
Proof.
  induction entries as [|[sn byType] entries IH];
    intros [removed conns] H; [done|].
  cbn [fold_left]. unfold sourceStep at 2. cbn [fst snd] in *.
  destruct (H sn byType) as (Hget & [Hne Htypes] & Hnd); [left|].
  rewrite typeLoop_idle_types.
  - cbn [fst snd].
    rewrite decide_False by (by destruct byType as [|[??] ?]).
    rewrite put_same by done.
    apply IH. intros sn' byType' Hin. apply H. by right.
  - intros ty arrs Hin. cbn [snd]. split; [by apply elem_get_NoDup|].
    eapply Forall_forall in Htypes; [|exact Hin]. exact Htypes.
Qed.

Lemma incomingLoop_idle_connections removed conns :
  noEmptyLeaves conns → keysDistinct conns →
  incomingLoop hit record removed conns = (removed, conns).
Proof.
  intros Hleaves [Hkeys Hinner]. unfold incomingLoop.
  apply sourceLoop_idle_sources. intros sn byType Hin. cbn [snd].
  split; [by apply elem_get_NoDup|]. split.
  - eapply Forall_forall in Hleaves; [|exact Hin]. exact Hleaves.
  - eapply Forall_forall in Hinner; [|exact Hin]. exact Hinner.
Qed.
End loops.

(** With distinct ids the lookup after the splice finds nothing, so the
    function removes the node and nothing else. *)
Lemma removeNode_only_splices w nodeId index node :
  NoDup (idsOf w) →
  noEmptyLeaves (connections w) → keysDistinct (connections w) →
  list_find (λ n, node_id n = nodeId) (nodes w) = Some (index, node) →
  removeNodeFromWorkflow w nodeId
  = ([], set_nodes w (delete index (nodes w))).
Proof.
  intros Hnd Hleaves Hkeys Hfind. unfold removeNodeFromWorkflow.
  rewrite Hfind. unfold findNodeById. cbn [nodes set_nodes].
  rewrite (find_after_splice _ _ _ _ Hnd Hfind). cbn -[incomingLoop].
  rewrite incomingLoop_idle_connections;
    [by destruct w|apply targetsName_None|done..].
Qed.

Lemma map_delete {A B} (f : A → B) (l : list A) i :
  map f (delete i l) = delete i (map f l).
Proof.
  revert i. induction l as [|y l IH]; intros [|i]; simpl; try done.
  by rewrite IH.
Qed.

Lemma delete_elem_NoDup (l : list string) :
  ∀ i old,
    NoDup l → l !! i = Some old →
    (∀ x, x ∈ delete i l ↔ x ∈ l ∧ x ≠ old) ∧ NoDup (delete i l).
Proof.
  induction l as [|y l IH]; intros i old Hnd Hlook; [done|].
  apply NoDup_cons in Hnd as [Hy Hnd].
  destruct i as [|i]; simpl in *.
  - injection Hlook as ->. split; [|done].
    intros x. rewrite elem_of_cons. split.
    + intros Hx. split; [by right|]. by intros ->.
    + by intros [[->|Hx] Hne].
  - destruct (IH i old Hnd Hlook) as [Helem Hnodup].
    assert (y ≠ old) as Hyo.
    { intros ->. apply Hy. by eapply list_elem_of_lookup_2. }
    split.
    + intros x. rewrite !elem_of_cons, Helem. split.
      * intros [->|[Hx Hne]]; [by split; [left|]|by split; [right|]].
      * intros [[->|Hx] Hne]; [by left|by right].
    + apply NoDup_cons. split; [|done]. rewrite Helem. by intros [? _].
Qed.

End remove_node_idle.

Section delete_node.
Import WorkflowUtils.
Context {R : Type} (api : ApiService R Workflow).

(** X10. What [delete_node] does to a node of a well-formed workflow
    whose connections have no empty leaves.  [removeNodeFromWorkflow]
    takes the node out and leaves every connection in place, so the
    integrity check turns the deletion down, and nothing is written,
    whenever the node's name occurs in the connections; a node that no
    connection mentions is deleted, and the cleaned workflow without it
    is written. *)
Theorem delete_node_outcome (world : World R Workflow)
    (workflowId nodeId : string) (current : Workflow)
    (index : nat) (node : WorkflowNode) :
  truthy workflowId = true → truthy nodeId = true →
  api_getWorkflow api workflowId (remote world) = inr current →
  wellFormed current →
  noEmptyLeaves (connections current) →
  keysDistinct (connections current) →
  list_find (λ n, node_id n = nodeId) (nodes current)
  = Some (index, node) →
  let remaining := set_nodes current (delete index (nodes current)) in
  let res :=
    DeleteNodeHandler.execute api (Some workflowId) (Some nodeId) world in
  (node_name node ∈ mentionedNames (connections current) →
   ∃ message, blockedWith res world workflowId (N8nApiError message))
  ∧ (node_name node ∉ mentionedNames (connections current) →
     sent res world
          [CallGet workflowId;
           CallUpdate workflowId
                      (BaseNodeHandler.cleanWorkflowForUpdate remaining)]).
Proof.
  intros Hwid Hnid Hget Hwf Hleaves Hkeys Hfind. cbn zeta.
  unfold DeleteNodeHandler.execute.
  rewrite !required_truthy by done.
  set (remaining := set_nodes current _).
  destruct Hwf as (Hids & Hnames & Hresolve).
  assert (DeleteNodeHandler.workflowUpdater nodeId current = inr remaining)
    as Hupd.
  { unfold DeleteNodeHandler.workflowUpdater, validateNodeExists.
    rewrite (findNodeById_find _ _ index node) by done. cbn [nv_isValid negb].
    by rewrite (removeNode_only_splices _ _ index node). }
  destruct (find_lookup _ _ _ _ Hfind) as [Hlook _].
  assert (namesOf current !! index = Some (node_name node)) as Hlookn.
  { unfold namesOf. by rewrite map_lookup, Hlook. }
  assert (idsOf current !! index = Some (node_id node)) as Hlooki.
  { unfold idsOf. by rewrite map_lookup, Hlook. }
  destruct (delete_elem_NoDup _ _ _ Hnames Hlookn) as [Helem Hnames'].
  destruct (delete_elem_NoDup _ _ _ Hids Hlooki) as [_ Hids'].
  assert (wellFormed remaining
          ↔ node_name node ∉ mentionedNames (connections current))
    as Hiff.
  { unfold wellFormed, remaining, idsOf, namesOf. cbn [nodes set_nodes].
    change (connections (set_nodes current _)) with (connections current).
    rewrite !map_delete, resolve_mentioned.
    rewrite resolve_mentioned in Hresolve. split.
    - intros (_ & _ & Hres) Hm. apply Hres, Helem in Hm as [_ ?]. done.
    - intros Hm. split; [done|]. split; [done|].
      intros x Hx. apply Helem. split; [by apply Hresolve|].
      by intros ->. }
  split.
  - intros Hm.
    assert (isValid (validateWorkflowIntegrity remaining) = false) as Hinv.
    { apply not_true_iff_false. rewrite integrity_wellFormed, Hiff.
      tauto. }
    rewrite (updateWorkflowSafely_invalid _ _ _ _ current remaining)
      by done.
    by eexists.
  - intros Hm.
    rewrite (updateWorkflowSafely_writes _ _ _ _ _ current remaining);
      [done..|].
    intros _. by apply integrity_wellFormed, Hiff.
Qed.

End delete_node.

(** ** Adding a connection and removing it again *)

Section add_then_remove.
Import WorkflowUtils.

Lemma remove_absent {V} k (o : Obj.t V) :
  Obj.get k o = None → Obj.remove k o = o.
Proof.
  induction o as [|[k0 v0] o IH]; simpl; [done|].
  destruct (decide (k0 = k)) as [->|Hne]; [done|].
  intros H. by rewrite IH.
Qed.

Lemma remove_put_absent {V} k v (o : Obj.t V) :
  Obj.get k o = None → Obj.remove k (Obj.put k v o) = o.
Proof.
  induction o as [|[k0 v0] o IH]; simpl.
  - by rewrite decide_True.
  - destruct (decide (k0 = k)) as [->|Hne]; [done|].
    intros H. simpl. rewrite decide_False by done. by rewrite IH.
Qed.

Lemma put_put_same {V} k v v' (o : Obj.t V) :
  Obj.get k o = Some v → Obj.put k v (Obj.put k v' o) = o.
Proof. intros H. by rewrite put_put_eq, put_same. Qed.

Lemma keys_length_zero {V} (o : Obj.t V) :
  length (Obj.keys o) = 0%nat ↔ o = [].
Proof. unfold Obj.keys. rewrite length_map. apply length_zero_iff_nil. Qed.

Lemma at_index_nil {A} i : at_index (@nil A) i = None.
Proof. unfold at_index. by case_decide. Qed.

Lemma slotAt_default w sn ty i :
  slotAt w sn ty i
  = default []
      (at_index
         (default [] (Obj.get ty (default [] (Obj.get sn (connections w)))))
         i).
Proof.
  unfold slotAt. destruct (Obj.get sn (connections w)) as [byType|]; cbn.
  - destruct (Obj.get ty byType) as [slots|]; cbn; [done|].
    by rewrite at_index_nil.
  - by rewrite at_index_nil.
Qed.

Lemma list_find_last {A} (P : A → Prop) `{∀ x, Decision (P x)}
    (l : list A) (x : A) :
  Forall (λ y, ¬ P y) l → P x →
  list_find P (l ++ [x]) = Some (length l, x).
Proof.
  intros Hl Hx. induction l as [|y l IH]; cbn.
  - by rewrite decide_True.
  - apply Forall_cons in Hl as [Hy Hl]. rewrite decide_False by done.
    by rewrite IH.
Qed.

Lemma delete_last {A} (l : list A) (x : A) : delete (length l) (l ++ [x]) = l.
Proof. induction l as [|y l IH]; cbn; [done|]. f_equal. exact IH. Qed.

Lemma existsb_false_Forall {A} (f : A → bool) (l : list A) :
  existsb f l = false → Forall (λ y, ¬ (f y = true)) l.
Proof.
  induction l as [|y l IH]; cbn; [by constructor|].
  intros [Hy Hl]%orb_false_iff. constructor; [by rewrite Hy|by apply IH].
Qed.

(** The two levels above the slots, once the slots are those of before:
    the type and the source get their old values back, in their old
    places, and are dropped again where they had been missing. *)
Lemma restore_levels (conns : WorkflowConnections) sn ty
    (arr added : ConnectionArrays) :
  noEmptyLeaves conns →
  let byType := default [] (Obj.get sn conns) in
  arr = default [] (Obj.get ty byType) →
  let byType1 := Obj.put ty added byType in
  let byType' :=
    if decide (length arr = 0%nat)
    then Obj.remove ty byType1
    else Obj.put ty arr byType1 in
  (if decide (length (Obj.keys byType') = 0%nat)
   then Obj.remove sn (Obj.put sn byType1 conns)
   else Obj.put sn byType' (Obj.put sn byType1 conns))
  = conns.
Proof.
  intros Hleaves byType Harr byType1 byType'.
  assert (byType' = byType) as ->.
  { subst byType' byType1. destruct (decide (length arr = 0%nat)) as [Hz|Hnz].
    - apply length_zero_iff_nil in Hz. apply remove_put_absent.
      destruct (Obj.get ty byType) as [slots|] eqn:Hty; [|done].
      exfalso. cbn in Harr. subst slots arr.
      subst byType. destruct (Obj.get sn conns) as [bt|] eqn:Hsn; [|done].
      cbn in Hty. destruct (typesOk_get _ _ _ Hleaves Hsn) as [_ Hall].
      by destruct (slotsOk_get _ _ _ Hall Hty).
    - apply put_put_same.
      destruct (Obj.get ty byType) as [slots|] eqn:Hty; [by subst|].
      by subst arr. }
  destruct (decide (length (Obj.keys byType) = 0%nat)) as [Hz|Hnz].
  - apply keys_length_zero in Hz. apply remove_put_absent.
    destruct (Obj.get sn conns) as [bt|] eqn:Hsn; [|done].
    exfalso. subst byType. cbn in Hz. subst bt.
    by destruct (typesOk_get _ _ _ Hleaves Hsn).
  - apply put_put_same.
    destruct (Obj.get sn conns) as [bt|] eqn:Hsn; [by subst byType|].
    exfalso. apply Hnz. by subst byType.
Qed.

(** X11. Adding a connection that is not there yet and removing it again
    gives the workflow back as it was, provided the name of the source
    node and the connection type are no properties that an object
    inherits from [Object.prototype], the connections have no empty
    leaves and the source index addresses a slot that exists or the one
    right after the last. *)
Theorem addConnection_then_remove (w : Workflow) (c : ConnectionSpec)
    (sn tn : string) :
  getNodeNameById w (sourceNodeId c) = Some sn →
  getNodeNameById w (targetNodeId c) = Some tn →
  truthy sn = true → truthy tn = true →
  plainKey sn → plainKey (default "main" (connectionType c)) →
  noEmptyLeaves (connections w) →
  (0 ≤ default 0 (sourceIndex c)
   ≤ Z.of_nat (length (addressedSlots w c)))%Z →
  matching tn (default 0%Z (targetIndex c))
           (default "main" (connectionType c))
           (slotAt w sn (default "main" (connectionType c))
                   (default 0%Z (sourceIndex c))) = 0%nat →
  ∃ w1,
    addConnectionToWorkflow w c = Returned true w1
    ∧ removeConnectionFromWorkflow w1 c = (true, w).
Proof.
  intros Hs Ht Hsn Htn Hplain Hplain' Hleaves [Hi0 Hi] Habsent.
  destruct (add_success w c sn tn Hs Ht Hsn Htn Hi0
              (inherits_plain _ _ Hplain) (inherits_plain _ _ Hplain'))
    as (slot & Hslot & Hadd).
  cbn zeta in Hslot, Hadd.
  set (i := default 0%Z (sourceIndex c)) in *.
  set (ti := default 0%Z (targetIndex c)) in *.
  set (ty := default "main" (connectionType c)) in *.
  set (byType := default [] (Obj.get sn (connections w))) in *.
  set (arr := default [] (Obj.get ty byType)) in *.
  set (slots := padSlots arr i) in *.
  assert (addressedSlots w c = arr) as Haddr.
  { unfold addressedSlots. rewrite Hs. cbn. subst arr byType. fold ty.
    destruct (Obj.get sn (connections w)) as [bt|]; cbn; [|done].
    by destruct (Obj.get ty bt). }
  rewrite Haddr in Hi.
  assert (slot = default [] (at_index arr i)) as Hslot0
    by (by apply at_index_padSlots_inv).
  assert (existsb (sameEdge tn ti ty) slot = false) as Hex.
  { apply not_true_iff_false. rewrite existsb_matching.
    rewrite slotAt_default in Habsent. fold byType arr in Habsent.
    rewrite <- Hslot0 in Habsent. lia. }
  rewrite Hex in Hadd.
  set (e := mkConn tn ty ti) in *.
  set (added := <[Z.to_nat i := slot ++ [e]]> slots) in *.
  eexists. split; [exact Hadd|].
  apply at_index_Some in Hslot as [_ Hlk].
  assert ((Z.to_nat i < length slots)%nat) as Hlt
    by (eapply lookup_lt_Some; eauto).
  unfold removeConnectionFromWorkflow.
  unfold getNodeNameById in *. rewrite !findNodeById_set_connections.
  rewrite Hs, Ht, Hsn, Htn. cbn [negb orb connections set_connections].
  rewrite get_put_eq. fold ty. rewrite get_put_eq. fold i.
  assert (at_index added i = Some (slot ++ [e])) as ->.
  { unfold at_index. rewrite decide_True by done.
    by apply list_lookup_insert_eq. }
  fold ti.
  rewrite (list_find_last _ slot e);
    [|by apply existsb_false_Forall|apply sameEdge_new].
  rewrite delete_last.
  assert ((if decide (length slot = 0%nat)
           then delete (Z.to_nat i) added
           else <[Z.to_nat i := slot]> added) = arr) as ->.
  { destruct (decide (length slot = 0%nat)) as [Hz|Hnz].
    - apply length_zero_iff_nil in Hz. subst slot.
      assert (Z.to_nat i = length arr) as Hn.
      { destruct (at_index arr i) as [s0|] eqn:Ha.
        - exfalso. apply at_index_Some in Ha as [_ Ha]. cbn in Hz.
          subst s0.
          destruct (Obj.get sn (connections w)) as [bt|] eqn:Hbt;
            [|by subst arr byType].
          subst byType. cbn in arr.
          destruct (Obj.get ty bt) as [ss|] eqn:Hss; [|by subst arr].
          subst arr. cbn in Ha.
          destruct (typesOk_get _ _ _ Hleaves Hbt) as [_ Hall].
          destruct (slotsOk_get _ _ _ Hall Hss) as [_ Hne].
          eapply Forall_forall in Hne;
            [|by eapply list_elem_of_lookup_2]. done.
        - unfold at_index in Ha. rewrite decide_True in Ha by done.
          apply lookup_ge_None in Ha. lia. }
      subst added slots. unfold padSlots.
      replace (Z.to_nat (i + 1 - Z.of_nat (length arr))) with 1%nat by lia.
      cbn [replicate]. rewrite Hn.
      rewrite insert_app_r_alt by lia. rewrite Nat.sub_diag. cbn.
      apply delete_last.
    - subst added. rewrite list_insert_insert_eq.
      assert (at_index arr i = Some slot) as Ha.
      { destruct (at_index arr i) as [s0|]; [by cbn in Hslot0; subst|].
        cbn in Hslot0. by subst slot. }
      apply at_index_Some in Ha as [_ Ha].
      assert ((Z.to_nat i < length arr)%nat)
        by (eapply lookup_lt_Some; eauto).
      subst slots. rewrite padSlots_long by lia.
      by apply list_insert_id. }
  pose proof (restore_levels (connections w) sn ty arr added Hleaves
                eq_refl) as Hrestore.
  cbn zeta in Hrestore. fold byType in Hrestore. rewrite Hrestore.
  by destruct w.
Qed.

End add_then_remove.

(** ** The connection tools *)

Section connection_tools.
Import WorkflowUtils.

(** Removing a connection mentions no name that was not mentioned. *)
Lemma removeConnection_resolves names w c :
  Forall (namesResolve names) (connections w) →
  Forall (namesResolve names)
         (connections (removeConnectionFromWorkflow w c).2).
Proof.
  intros Hres. unfold removeConnectionFromWorkflow.
  destruct (getNodeNameById w (sourceNodeId c)) as [sn|]; [|done].
  destruct (getNodeNameById w (targetNodeId c)) as [tn|]; [|done].
  destruct (negb (truthy sn) || negb (truthy tn)); [done|].
  destruct (Obj.get sn (connections w)) as [byType|] eqn:Hby; [|done].
  destruct (Obj.get _ byType) as [slots|] eqn:Hslots; [|done].
  destruct (at_index slots _) as [slot|] eqn:Hslot; [|done].
  destruct (list_find _ slot) as [[k e]|]; [|done].
  cbn [snd connections set_connections].
  apply get_Some_elem in Hby as Hin.
  eapply Forall_forall in Hin; [|exact Hres].
  destruct Hin as [Hsn Htypes]. cbn [fst snd] in *.
  apply get_Some_elem in Hslots as Hin.
  eapply Forall_forall in Hin; [|exact Htypes]. cbn [snd] in Hin.
  apply at_index_Some in Hslot as [_ Hlk].
  assert (Forall (λ c, conn_node c ∈ names) slot) as Hslot'
    by (by eapply Forall_lookup_1 in Hin).
  set (byType' := if decide (length _ = 0%nat)
                  then Obj.remove _ byType else Obj.put _ _ byType).
  assert (Forall (λ t : string * ConnectionArrays,
                    Forall (Forall (λ c, conn_node c ∈ names)) t.2)
                 byType') as Htypes'.
  { subst byType'. case_decide; [by apply Forall_remove|].
    apply Forall_put; [|done]. cbn [snd].
    case_decide; [by apply Forall_delete|].
    apply Forall_insert; [done|]. by apply Forall_delete. }
  case_decide; [by apply Forall_remove|].
  by apply Forall_put.
Qed.

Lemma removeConnection_nodes w c :
  nodes (removeConnectionFromWorkflow w c).2 = nodes w.
Proof.
  unfold removeConnectionFromWorkflow.
  repeat (case_match; try done).
Qed.

Lemma removeConnection_wellFormed w c :
  wellFormed w → wellFormed (removeConnectionFromWorkflow w c).2.
Proof.
  unfold wellFormed, idsOf, namesOf. rewrite removeConnection_nodes.
  intros (? & ? & ?). split; [done|]. split; [done|].
  by apply removeConnection_resolves.
Qed.

(** X12. [removeConnectionFromWorkflow] keeps a workflow that passes
    [validateWorkflowIntegrity] passing it, whatever it returns; and
    when it returns [false] it has changed nothing. *)
Theorem removeConnection_keeps_integrity (w : Workflow)
    (c : ConnectionSpec) :
  isValid (validateWorkflowIntegrity w) = true →
  isValid (validateWorkflowIntegrity (removeConnectionFromWorkflow w c).2)
  = true
  ∧ ((removeConnectionFromWorkflow w c).1 = false →
     (removeConnectionFromWorkflow w c).2 = w).
Proof.
  intros Hvalid. split.
  - apply integrity_wellFormed, removeConnection_wellFormed.
    by apply integrity_wellFormed.
  - unfold removeConnectionFromWorkflow.
    repeat (case_match; try done).
Qed.





Context {R : Type} (api : ApiService R Workflow)
        (onBuiltin : option string).


(** With a negative source index on the chain, nothing is written. *)
Lemma add_connection_negative_index :
  ∃ text,
    blockedWith (AddConnectionHandler.execute singleStore None
                   (argsAC (Some (-1)%Z)) chainWorld)
                chainWorld "wf1"
                (N8nApiError ("Failed to update workflow: " +:+ text)).
Proof. eexists. reflexivity. Qed.

(** A source node named like a property of [Object.prototype]: where
    the engine lets the utility return [true], the handler writes the
    workflow without the edge; where the utility throws, it writes
    nothing. *)
Lemma add_connection_inherited_name :
  let w := docOf (twoNodes "constructor" "B") [] in
  sent (AddConnectionHandler.execute singleStore None argsAB (mkWorld w []))
       (mkWorld w [])
       [CallGet "wf1";
        CallUpdate "wf1" (BaseNodeHandler.cleanWorkflowForUpdate w)]
  ∧ ∀ text,
      blockedWith (AddConnectionHandler.execute singleStore (Some text)
                     argsAB (mkWorld w []))
                  (mkWorld w []) "wf1"
                  (N8nApiError ("Failed to update workflow: " +:+ text)).
Proof. cbn zeta. split; [reflexivity|]. intros text. reflexivity. Qed.


End connection_tools.

(** ** The node tools *)

Section add_node.
Import WorkflowUtils.

Lemma addNode_appends w c nodeId :
  let added := addNodeToWorkflow w c nodeId in
  nodes added.2 = nodes w ++ [added.1]
  ∧ connections added.2 = connections w.
Proof. done. Qed.

Lemma addNode_id w c nodeId :
  required nodeId = None →
  node_id (addNodeToWorkflow w c nodeId).1
  = default (generateNodeId w None) (p_id c).
Proof.
  intros Hreq. unfold addNodeToWorkflow. cbn.
  destruct nodeId as [i|]; [|done].
  unfold required in Hreq. by destruct (truthy i).
Qed.

Lemma generateNodeId_not_in w prefix : generateNodeId w prefix ∉ idsOf w.
Proof. by destruct (generateNodeId_spec w prefix) as (_ & _ & _ & ? & _). Qed.

Lemma NoDup_snoc {A} (l : list A) x : NoDup (l ++ [x]) ↔ NoDup l ∧ x ∉ l.
Proof.
  rewrite NoDup_app. split.
  - intros (Hl & Hx & _). split; [done|]. intros Hin.
    apply (Hx x Hin). left.
  - intros [Hl Hx]. split; [done|]. split; [|apply NoDup_singleton].
    intros y Hy ->%list_elem_of_singleton. done.
Qed.

Lemma addNode_wellFormed w c nodeId :
  wellFormed w →
  let added := addNodeToWorkflow w c nodeId in
  wellFormed added.2
  ↔ (node_id added.1 ∉ idsOf w) ∧ (node_name added.1 ∉ namesOf w).
Proof.
  intros (Hids & Hnames & Hres). cbn zeta.
  destruct (addNode_appends w c nodeId) as [Hnodes Hconns].
  cbn zeta in Hnodes, Hconns.
  unfold wellFormed, idsOf, namesOf. rewrite Hnodes, Hconns, !map_app.
  cbn [map]. rewrite !NoDup_snoc.
  rewrite resolve_mentioned in Hres. rewrite resolve_mentioned.
  unfold idsOf, namesOf in *. split; [tauto|].
  intros [? ?]. repeat split; try done.
  intros x Hx. apply elem_of_app. left. by apply Hres.
Qed.

(** X15. [addNodeToWorkflow] appends exactly one node and leaves the
    connections alone.  Without a node id of the caller's and without an
    id in the configuration, the id of the new node is a generated one
    that no node has, so that ids that were distinct stay distinct, and
    the new node is the one [findNodeById] finds under its id; a
    configuration without a name names the node after its id. *)
Theorem addNode_generates_fresh_id (w : Workflow) (nodeConfig : PartialNode)
    (nodeId : option string) :
  required nodeId = None → p_id nodeConfig = None →
  let added := addNodeToWorkflow w nodeConfig nodeId in
  nodes added.2 = nodes w ++ [added.1]
  ∧ connections added.2 = connections w
  ∧ findNodeById w (node_id added.1) = None
  ∧ findNodeById added.2 (node_id added.1) = Some added.1
  ∧ (NoDup (idsOf w) → NoDup (idsOf added.2))
  ∧ (p_name nodeConfig = None → node_name added.1 = node_id added.1).
Proof.
  intros Hreq Hid. cbn zeta.
  pose proof (addNode_id w nodeConfig nodeId Hreq) as Hnew.
  rewrite Hid in Hnew. cbn in Hnew.
  pose proof (generateNodeId_not_in w None) as Hfresh.
  rewrite <- Hnew in Hfresh.
  destruct (addNode_appends w nodeConfig nodeId) as [Hnodes Hconns].
  cbn zeta in Hnodes, Hconns.
  split; [done|]. split; [done|]. split; [by apply findNodeById_None|].
  split; [|split].
  - unfold findNodeById. rewrite Hnodes.
    rewrite list_find_app_r.
    + cbn. by rewrite decide_True.
    + apply list_find_None, Forall_forall. intros n Hn Heq.
      apply Hfresh. unfold idsOf. apply list_elem_of_fmap. by exists n.
  - intros Hnd. unfold idsOf. rewrite Hnodes, map_app. cbn [map].
    by apply NoDup_snoc.
  - intros Hname. unfold addNodeToWorkflow. cbn.
    rewrite Hname, Hid. cbn. done.
Qed.

Context {R : Type} (api : ApiService R Workflow).

(** X16. What [add_node] does to a well-formed workflow: the integrity
    check turns the addition down, and nothing is written, when the id
    or the name of the new node is already in use; otherwise the handler
    writes the cleaned workflow with the new node appended.  An id the
    handler generates is never in use. *)
Theorem add_node_outcome (world : World R Workflow) (workflowId : string)
    (nodeConfig : PartialNode) (position : option (Z * Z))
    (current : Workflow) (nodeType : string) :
  truthy workflowId = true →
  required (p_type nodeConfig) = Some nodeType →
  api_getWorkflow api workflowId (remote world) = inr current →
  wellFormed current →
  let added :=
    addNodeToWorkflow current (AddNodeHandler.nodeToAdd nodeConfig position)
                      None in
  let res :=
    AddNodeHandler.execute api (Some workflowId) (Some nodeConfig) position
                           world in
  (p_id nodeConfig = None → node_id added.1 ∉ idsOf current)
  ∧ (node_id added.1 ∈ idsOf current ∨ node_name added.1 ∈ namesOf current →
     ∃ message, blockedWith res world workflowId (N8nApiError message))
  ∧ (node_id added.1 ∉ idsOf current → node_name added.1 ∉ namesOf current →
     nodes added.2 = nodes current ++ [added.1]
     ∧ sent res world
            [CallGet workflowId;
             CallUpdate workflowId
                        (BaseNodeHandler.cleanWorkflowForUpdate added.2)]).
Proof.
  intros Hwid Hty Hget Hwf. cbn zeta.
  unfold AddNodeHandler.execute. rewrite required_truthy by done.
  rewrite Hty.
  set (added := addNodeToWorkflow current _ None).
  pose proof (addNode_wellFormed current
                (AddNodeHandler.nodeToAdd nodeConfig position) None Hwf)
    as Hiff.
  cbn zeta in Hiff. fold added in Hiff.
  assert (AddNodeHandler.workflowUpdater nodeConfig position current
          = inr added.2) as Hupd by done.
  split; [|split].
  - intros Hid. unfold added.
    rewrite (addNode_id current _ None eq_refl).
    cbn [p_id AddNodeHandler.nodeToAdd].
    rewrite Hid. apply generateNodeId_not_in.
  - intros Hbad.
    assert (isValid (validateWorkflowIntegrity added.2) = false) as Hinv.
    { apply not_true_iff_false. rewrite integrity_wellFormed, Hiff.
      tauto. }
    rewrite (updateWorkflowSafely_invalid _ _ _ _ current added.2) by done.
    by eexists.
  - intros Hid Hname. split; [done|].
    rewrite (updateWorkflowSafely_writes _ _ _ _ _ current added.2);
      [done..|].
    intros _. by apply integrity_wellFormed, Hiff.
Qed.

End add_node.

Section field_tools.
Import WorkflowUtils.
Context {R : Type} (api : ApiService R Workflow).

Lemma get_Obj_spread {V} k (a b : Obj.t V) :
  NoDup (Obj.keys b) →
  Obj.get k (Obj.spread a b)
  = match Obj.get k b with Some v => Some v | None => Obj.get k a end.
Proof.
  unfold Obj.spread, Obj.keys. revert a.
  induction b as [|[k0 v0] b IH]; intros a Hnd; simpl; [done|].
  apply NoDup_cons in Hnd as [Hk0 Hnd]. rewrite IH by done.
  destruct (decide (k0 = k)) as [->|Hne].
  - destruct (Obj.get k b) as [v|] eqn:Hget.
    + exfalso. apply Hk0. apply get_Some_elem in Hget.
      apply list_elem_of_fmap. by exists (k, v).
    + apply get_put_eq.
  - rewrite get_put_ne by done. done.
Qed.

(** A write of one node that touches neither its id nor its name. *)
Lemma field_update_writes (world : World R Workflow)
    (workflowId nodeId : string)
    (workflowUpdater : Workflow → error + Workflow)
    (current : Workflow) (index : nat) (node : WorkflowNode)
    (updates : PartialNode) :
  api_getWorkflow api workflowId (remote world) = inr current →
  wellFormed current →
  nodes current !! index = Some node →
  p_id updates = None → p_name updates = None →
  workflowUpdater current
  = inr (set_nodes current
           (<[index := assign node updates]> (nodes current))) →
  sent (BaseNodeHandler.updateWorkflowSafely api workflowId
          workflowUpdater true world)
       world
       [CallGet workflowId;
        CallUpdate workflowId
          (BaseNodeHandler.cleanWorkflowForUpdate
             (set_nodes current
                (<[index := assign node updates]> (nodes current))))].
Proof.
  intros Hget Hwf Hlook Hid Hname Hupd.
  rewrite (updateWorkflowSafely_writes _ _ _ _ _ current _ Hget Hupd);
    [done|].
  intros _. apply integrity_wellFormed. unfold wellFormed.
  rewrite (assign_keeps_ids current index node) by done.
  rewrite (assign_keeps_names current index node) by done.
  exact Hwf.
Qed.

(** X17. [update_node_parameters] on a node of a well-formed workflow
    always writes: the cleaned workflow in which that node, and nothing
    else, has new parameters.  In merge mode, which is the default, a
    key of the new parameters gets its new value and every other key
    keeps its old one; otherwise the new parameters replace the old. *)
Theorem update_node_parameters_outcome (world : World R Workflow)
    (workflowId nodeId : string) (params : Obj.t string)
    (mergeParameters : option bool) (current : Workflow)
    (index : nat) (node : WorkflowNode) :
  truthy workflowId = true → truthy nodeId = true →
  api_getWorkflow api workflowId (remote world) = inr current →
  wellFormed current →
  list_find (λ n, node_id n = nodeId) (nodes current)
  = Some (index, node) →
  let newParameters :=
    if default true mergeParameters
    then Obj.spread (parameters node) params
    else params in
  let updated :=
    set_nodes current
      (<[index := mkNode (node_id node) (node_name node) (node_type node)
                         (typeVersion node) (position node)
                         newParameters]> (nodes current)) in
  let res :=
    UpdateNodeParametersHandler.execute api (Some workflowId) (Some nodeId)
      (Some params) mergeParameters world in
  sent res world
       [CallGet workflowId;
        CallUpdate workflowId
                   (BaseNodeHandler.cleanWorkflowForUpdate updated)]
  ∧ (mergeParameters ≠ Some false → NoDup (Obj.keys params) →
     ∀ k, Obj.get k newParameters
          = match Obj.get k params with
            | Some v => Some v
            | None => Obj.get k (parameters node)
            end)
  ∧ (mergeParameters = Some false → newParameters = params).
Proof.
  intros Hwid Hnid Hget Hwf Hfind. cbn zeta.
  unfold UpdateNodeParametersHandler.execute.
  rewrite !required_truthy by done.
  destruct (find_lookup _ _ _ _ Hfind) as [Hlook _].
  split; [|split].
  - apply (field_update_writes world workflowId nodeId _ current index node
             (mkPartial None None None None None
                (Some (if default true mergeParameters
                       then Obj.spread (parameters node) params
                       else params)))); try done.
    unfold UpdateNodeParametersHandler.workflowUpdater.
    rewrite (validateNodeExists_found _ _ node)
      by (by apply (findNodeById_find _ _ index)).
    cbn [and_then]. rewrite (findNodeById_find _ _ index node) by done.
    by rewrite (updateNode_found _ _ _ index node).
  - intros Hmerge Hnd k.
    assert (default true mergeParameters = true) as ->
      by (by destruct mergeParameters as [[]|]).
    by apply get_Obj_spread.
  - by intros ->.
Qed.

(** X18. What [move_node] does.  A new position that is not an array of
    exactly two numbers is refused before any request is sent.  With
    one, on a well-formed workflow, the handler writes the cleaned
    workflow in which the first node with the given id, and nothing
    else, has the new position; when no node has the id it reports the
    node as not found and writes nothing. *)
Theorem move_node_outcome (world : World R Workflow)
    (workflowId nodeId : string) (newPosition : option json)
    (current : Workflow) :
  truthy workflowId = true → truthy nodeId = true →
  api_getWorkflow api workflowId (remote world) = inr current →
  wellFormed current →
  let res :=
    MoveNodeHandler.execute api (Some workflowId) (Some nodeId) newPosition
                            world in
  ((∀ x y, newPosition ≠ Some (JArr [JNum x; JNum y])) →
   ∃ message, res = (inl (N8nApiError message), world))
  ∧ (∀ x y index node,
       newPosition = Some (JArr [JNum x; JNum y]) →
       list_find (λ n, node_id n = nodeId) (nodes current)
       = Some (index, node) →
       sent res world
            [CallGet workflowId;
             CallUpdate workflowId
               (BaseNodeHandler.cleanWorkflowForUpdate
                  (set_nodes current
                     (<[index := mkNode (node_id node) (node_name node)
                                        (node_type node) (typeVersion node)
                                        (x, y) (parameters node)]>
                        (nodes current))))])
  ∧ (∀ x y,
       newPosition = Some (JArr [JNum x; JNum y]) →
       findNodeById current nodeId = None →
       blockedWith res world workflowId
                   (N8nApiError (nodeNotFound nodeId))).
Proof.
  intros Hwid Hnid Hget Hwf. cbn zeta.
  unfold MoveNodeHandler.execute. rewrite !required_truthy by done.
  split; [|split].
  - intros Hbad.
    destruct newPosition as [[| | | |items|]|]; try (by eexists).
    destruct items as [|a [|b [|c rest]]]; try (by eexists).
    destruct a, b; try (by eexists). by destruct (Hbad z z0).
  - intros x y index node -> Hfind.
    destruct (find_lookup _ _ _ _ Hfind) as [Hlook _].
    apply (field_update_writes world workflowId nodeId _ current index node
             (mkPartial None None None None (Some (x, y)) None));
      try done.
    unfold MoveNodeHandler.workflowUpdater.
    rewrite (validateNodeExists_found _ _ node)
      by (by apply (findNodeById_find _ _ index)).
    cbn [and_then]. by rewrite (updateNode_found _ _ _ index node).
  - intros x y -> Hmissing.
    rewrite (updateWorkflowSafely_updater_throws _ _ _ _ _ current
               (N8nApiError (nodeNotFound nodeId))); [done|done|].
    unfold MoveNodeHandler.workflowUpdater.
    by rewrite validateNodeExists_missing.
Qed.

End field_tools.

(** ** update_multiple_nodes *)

Section bulk_update.
Import WorkflowUtils UpdateMultipleNodesHandler.

Lemma updateNode_sameIdentity w nodeId updates :
  p_id updates = None → p_name updates = None →
  sameIdentity (updateNodeInWorkflow w nodeId updates).2 w.
Proof.
  intros Hid Hname. unfold updateNodeInWorkflow, sameIdentity.
  destruct (list_find _ _) as [[index node]|] eqn:Hfind; [|done].
  apply find_lookup in Hfind as [Hlook _]. cbn [snd].
  rewrite (assign_keeps_ids w index node) by done.
  by rewrite (assign_keeps_names w index node) by done.
Qed.

Lemma applyField_sameIdentity nodeId currentIndex w field :
  keepsIdentity field →
  sameIdentity (applyField nodeId currentIndex w field) w.
Proof.
  intros Hkeeps. destruct field; try done;
    by apply updateNode_sameIdentity.
Qed.

Lemma applyFields_sameIdentity nodeId currentIndex fields :
  ∀ w, Forall keepsIdentity fields →
       sameIdentity (fold_left (applyField nodeId currentIndex) fields w) w.
Proof.
  induction fields as [|field fields IH]; intros w Hall; [done|].
  apply Forall_cons in Hall as [Hfield Hall]. cbn [fold_left].
  destruct (IH (applyField nodeId currentIndex w field) Hall)
    as (Hi & Hn & Hc).
  destruct (applyField_sameIdentity nodeId currentIndex w field Hfield)
    as (Hi' & Hn' & Hc').
  unfold sameIdentity. by rewrite Hi, Hn, Hc.
Qed.

Lemma find_by_id_is_Some w nodeId :
  nodeId ∈ idsOf w →
  is_Some (list_find (λ n, node_id n = nodeId) (nodes w)).
Proof.
  intros Hin. apply findNodeById_is_Some in Hin. unfold findNodeById in Hin.
  by destruct (list_find _ _); [eexists|destruct Hin].
Qed.

Lemma applyUpdates_sameIdentity updates :
  ∀ w,
    Forall (λ u, u.1 ∈ idsOf w ∧ Forall keepsIdentity u.2) updates →
    ∃ w', fold_left (λ acc update, and_then acc (λ w, applyUpdate w update))
                    updates (inr w) = inr w'
          ∧ sameIdentity w' w.
Proof.
  induction updates as [|[nodeId fields] updates IH]; intros w Hall.
  - by exists w.
  - apply Forall_cons in Hall as [[Hin Hfields] Hall].
    cbn [fold_left and_then fst snd] in *. unfold applyUpdate at 2.
    destruct (find_by_id_is_Some w nodeId Hin) as [[index node] ->].
    pose proof (applyFields_sameIdentity nodeId index fields w Hfields)
      as (Hi & Hn & Hc).
    destruct (IH (fold_left (applyField nodeId index) fields w))
      as (w' & Hfold & Hi' & Hn' & Hc').
    { eapply Forall_impl; [exact Hall|]. intros u [? ?]. by rewrite Hi. }
    exists w'. split; [done|].
    unfold sameIdentity. by rewrite Hi', Hn', Hc'.
Qed.

(** *** What the updates make of the nodes *)

Lemma applyOne_id node field :
  keepsIdentity field → node_id (applyOne node field) = node_id node.
Proof. by destruct field. Qed.

Lemma applyFields_id fields :
  ∀ node, Forall keepsIdentity fields →
          node_id (fold_left applyOne fields node) = node_id node.
Proof.
  induction fields as [|field fields IH]; intros node Hall; [done|].
  apply Forall_cons in Hall as [Hfield Hall]. cbn [fold_left].
  rewrite IH by done. by apply applyOne_id.
Qed.

Lemma list_find_insert_same (l : list WorkflowNode) nodeId index node node' :
  list_find (λ n, node_id n = nodeId) l = Some (index, node) →
  node_id node' = nodeId →
  list_find (λ n, node_id n = nodeId) (<[index := node']> l)
  = Some (index, node').
Proof.
  intros (Hl & Hp & Hbefore)%list_find_Some Hid. apply list_find_Some.
  split; [apply list_lookup_insert_eq; by eapply lookup_lt_Some|].
  split; [done|]. intros j y Hj Hlt.
  rewrite list_lookup_insert_ne in Hj by lia. eauto.
Qed.

Lemma set_nodes_same w : set_nodes w (nodes w) = w.
Proof. by destruct w. Qed.

Lemma applyField_found nodeId index w node field :
  list_find (λ n, node_id n = nodeId) (nodes w) = Some (index, node) →
  applyField nodeId index w field
  = set_nodes w (<[index := applyOne node field]> (nodes w)).
Proof.
  intros Hfind. pose proof (find_lookup _ _ _ _ Hfind) as [Hlook _].
  destruct field; cbn [applyField applyOne]; rewrite ?Hlook;
    cbn [fmap option_fmap option_map from_option id];
    by rewrite (updateNode_found _ _ _ _ _ Hfind).
Qed.

Lemma applyFields_found nodeId index fields :
  ∀ w node,
    Forall keepsIdentity fields →
    list_find (λ n, node_id n = nodeId) (nodes w) = Some (index, node) →
    fold_left (applyField nodeId index) fields w
    = set_nodes w (<[index := fold_left applyOne fields node]> (nodes w)).
Proof.
  induction fields as [|field fields IH]; intros w node Hall Hfind;
    cbn [fold_left].
  - pose proof (find_lookup _ _ _ _ Hfind) as [Hlook _].
    rewrite list_insert_id by done. by rewrite set_nodes_same.
  - apply Forall_cons in Hall as [Hfield Hall].
    pose proof (find_lookup _ _ _ _ Hfind) as [_ Hid].
    rewrite (applyField_found _ _ _ _ _ Hfind).
    rewrite (IH _ (applyOne node field)); [|done|].
    + cbn [nodes set_nodes]. by rewrite list_insert_insert_eq.
    + cbn [nodes set_nodes].
      apply (list_find_insert_same _ _ _ node); [done|].
      by rewrite applyOne_id.
Qed.

Lemma map_unaddressed (f : WorkflowNode → WorkflowNode) nodeId
    (l : list WorkflowNode) :
  nodeId ∉ map node_id l →
  map (λ n, if decide (node_id n = nodeId) then f n else n) l = l.
Proof.
  induction l as [|x l IH]; [done|]. cbn [map].
  intros [Hx Hl]%not_elem_of_cons.
  rewrite decide_False by done. by rewrite IH.
Qed.

Lemma insert_as_map (f : WorkflowNode → WorkflowNode) nodeId
    (l : list WorkflowNode) :
  ∀ index node,
    NoDup (map node_id l) → l !! index = Some node →
    node_id node = nodeId →
    <[index := f node]> l
    = map (λ n, if decide (node_id n = nodeId) then f n else n) l.
Proof.
  induction l as [|x l IH]; intros index node Hnd Hlook Hid; [done|].
  cbn [map] in Hnd. apply NoDup_cons in Hnd as [Hx Hnd].
  destruct index as [|index]; cbn in Hlook.
  - injection Hlook as ->. cbn [map]. rewrite decide_True by done.
    cbn. f_equal. symmetry. apply map_unaddressed. by rewrite <- Hid.
  - cbn [map]. rewrite decide_False.
    + cbn. f_equal. by apply (IH index node).
    + intros Hxid. apply Hx. rewrite Hxid, <- Hid.
      apply list_elem_of_fmap. exists node.
      split; [done|by eapply list_elem_of_lookup_2].
Qed.

Lemma updatedNode_cons nodeId fields rest node :
  Forall keepsIdentity fields →
  updatedNode rest
    (if decide (node_id node = nodeId)
     then fold_left applyOne fields node else node)
  = updatedNode ((nodeId, fields) :: rest) node.
Proof.
  intros Hkeeps. unfold updatedNode, fieldsFor. cbn [flat_map fst snd].
  rewrite fold_left_app.
  destruct (decide (node_id node = nodeId)) as [Heq|Hne].
  - rewrite applyFields_id by done. by rewrite decide_True.
  - by rewrite decide_False by (by intros ?).
Qed.

Lemma applyUpdates_nodes updates :
  ∀ w,
    NoDup (idsOf w) →
    Forall (λ u, u.1 ∈ idsOf w ∧ Forall keepsIdentity u.2) updates →
    fold_left (λ acc update, and_then acc (λ w, applyUpdate w update))
              updates (inr w)
    = inr (set_nodes w (map (updatedNode updates) (nodes w))).
Proof.
  induction updates as [|[nodeId fields] updates IH]; intros w Hnd Hall.
  - cbn [fold_left]. f_equal. unfold updatedNode. cbn.
    rewrite map_id. by rewrite set_nodes_same.
  - apply Forall_cons in Hall as [[Hin Hfields] Hall].
    cbn [fold_left and_then fst snd] in *. unfold applyUpdate at 2.
    destruct (find_by_id_is_Some w nodeId Hin) as [[index node] Hfind].
    rewrite Hfind.
    rewrite (applyFields_found _ _ _ _ _ Hfields Hfind).
    pose proof (find_lookup _ _ _ _ Hfind) as [Hlook Hid].
    rewrite (insert_as_map (fold_left applyOne fields) nodeId)
      by done.
    set (step := λ n, if decide (node_id n = nodeId)
                      then fold_left applyOne fields n else n).
    assert (map node_id (map step (nodes w)) = idsOf w) as Hids.
    { unfold idsOf. rewrite map_map. apply map_ext. intros n.
      unfold step. case_decide; [by apply applyFields_id|done]. }
    rewrite IH.
    + f_equal. cbn [nodes set_nodes]. rewrite map_map.
      destruct w. cbn [set_nodes]. f_equal.
      apply map_ext. intros n. by apply updatedNode_cons.
    + unfold idsOf. cbn [nodes set_nodes]. by rewrite Hids.
    + eapply Forall_impl; [exact Hall|]. intros u [? ?].
      unfold idsOf. cbn [nodes set_nodes]. by rewrite Hids.
Qed.

Context {R : Type} (api : ApiService R Workflow).

(** X19. [update_multiple_nodes] is all or nothing.  When one of the
    node ids is the id of no node, the handler names every missing id
    and writes nothing, whatever the other updates are.  When every id
    is some node's and no update sets an id or a name, it applies all
    the updates to a well-formed workflow and writes the result once:
    every node has got the field updates addressed to its id, one after
    the other in the order of the list, new parameters being merged
    into those the node has by then and every other field replaced;
    the nodes are in their places, and the ids, the names and the
    connections are those of before. *)
Theorem update_multiple_nodes_outcome (world : World R Workflow)
    (workflowId : string) (nodeUpdates : list NodeUpdate)
    (checked : list (string * list FieldUpdate)) (current : Workflow) :
  truthy workflowId = true →
  nodeUpdates ≠ [] →
  checkUpdates 0 nodeUpdates = inr checked →
  api_getWorkflow api workflowId (remote world) = inr current →
  wellFormed current →
  let res :=
    execute api (Some workflowId) (Some nodeUpdates) world in
  let missing :=
    filter (λ i, findNodeById current i = None) (map fst checked) in
  let mutated :=
    set_nodes current (map (updatedNode checked) (nodes current)) in
  (missing ≠ [] →
   blockedWith res world workflowId
     (N8nApiError (join ", " (nodeNotFound <$> missing))))
  ∧ (missing = [] →
     Forall (λ update, Forall keepsIdentity update.2) checked →
     workflowUpdater checked current = inr mutated
     ∧ idsOf mutated = idsOf current
     ∧ namesOf mutated = namesOf current
     ∧ connections mutated = connections current
     ∧ sent res world
            [CallGet workflowId;
             CallUpdate workflowId
                        (BaseNodeHandler.cleanWorkflowForUpdate mutated)]).
Proof.
  intros Hwid Hne Hchecked Hget Hwf. cbn zeta.
  unfold execute. rewrite required_truthy by done.
  destruct nodeUpdates as [|update rest]; [done|].
  rewrite Hchecked.
  pose proof (validateNodesExist_outcome current (map fst checked))
    as Hexist.
  split.
  - intros Hmissing.
    rewrite (updateWorkflowSafely_updater_throws _ _ _ _ _ current
               (N8nApiError
                  (join ", "
                     (nodeNotFound
                        <$> filter (λ i, findNodeById current i = None)
                                   (map fst checked)))));
      [done|done|].
    unfold workflowUpdater. rewrite Hexist.
    by destruct (filter _ (map fst checked)).
  - intros Hmissing Hkeeps.
    assert (Forall (λ u, u.1 ∈ idsOf current ∧ Forall keepsIdentity u.2)
                   checked) as Hall.
    { apply missing_nil in Hmissing.
      rewrite Forall_forall in Hmissing. rewrite Forall_forall in Hkeeps.
      apply Forall_forall. intros u Hu. split; [|by apply Hkeeps].
      apply findNodeById_is_Some, Hmissing.
      apply list_elem_of_fmap. by exists u. }
    destruct (applyUpdates_sameIdentity checked current Hall)
      as (mutated & Hfold & Hi & Hn & Hc).
    rewrite (applyUpdates_nodes checked current (proj1 Hwf) Hall) in Hfold.
    injection Hfold as <-.
    assert (workflowUpdater checked current
            = inr (set_nodes current
                     (map (updatedNode checked) (nodes current))))
      as Hupd.
    { unfold workflowUpdater. rewrite Hexist, Hmissing.
      exact (applyUpdates_nodes checked current (proj1 Hwf) Hall). }
    repeat (split; [done|]).
    rewrite (updateWorkflowSafely_writes _ _ _ _ _ current _ Hget Hupd);
      [done|].
    intros _. apply integrity_wellFormed. unfold wellFormed.
    by rewrite Hi, Hn, Hc.
Qed.

(** One id that is no node's keeps every update from being written. *)
Lemma update_multiple_nodes_missing_id :
  blockedWith
    (execute singleStore (Some "wf1")
       (Some (moveAndSetArgs
              ++ [mkNodeUpdate (Some "z") (Some [SetPosition (1, 2)%Z])]))
       chainWorld)
    chainWorld "wf1"
    (N8nApiError (nodeNotFound "z")).
Proof. reflexivity. Qed.

End bulk_update.

(** ** update_workflow: merge mode and the activation that follows *)

Section update_runs.
Import UpdateWorkflow.
Context {R : Type} (api : ApiService R AnyWorkflow)
        (errorText : error → string).


(** The handler once its checks have passed: the [try] block, run after
    the fetch. *)
Lemma execute_validated args workflowId world current mode :
  arg_workflowId args = Some workflowId → truthy workflowId = true →
  default "merge" (arg_updateMode args) = mode →
  mode = "merge" ∨ mode = "replace" →
  api_getWorkflow api workflowId (remote world) = inr current →
  let validation :=
    validateWorkflowUpdate current (arg_nodes args) (arg_connections args)
                           mode in
  uv_isValid validation = true →
  uv_warnings validation = [] ∨ arg_force args = Some true →
  execute api errorText args world
  = try_catch
      (let! updatedWorkflow :=
         updateWorkflow api workflowId
           (applyUpdates (cleanWorkflowForUpdate current) args mode) in
       match arg_active args with
       | Some a =>
           if bool_decide (Some a = aw_active current)
           then ret updatedWorkflow
           else if a then activateWorkflow api workflowId
                else deactivateWorkflow api workflowId
       | None => ret updatedWorkflow
       end)
      (λ e, throw (updateFailed errorText e))
      (fetched workflowId world).
Proof.
  intros Hid Htruthy Hmode Hmodes Hget validation Hvalid Hpass.
  unfold execute. rewrite Hid, Htruthy, Hmode. cbn [negb].
  assert (negb (bool_decide (mode = "merge"))
          && negb (bool_decide (mode = "replace")) = false) as ->.
  { destruct Hmodes as [->| ->]; [done|].
    by rewrite (bool_decide_eq_true_2 ("replace" = "replace")),
               andb_false_r. }
  unfold bind at 1. unfold getWorkflow at 1. rewrite Hget.
  fold validation. rewrite Hvalid. cbn [negb].
  assert (bool_decide (0 < length (uv_warnings validation))%nat
          && negb (default false (arg_force args)) = false) as ->.
  { destruct Hpass as [->| ->]; [done|]. cbn. by rewrite andb_false_r. }
  done.
Qed.





(** X21. What follows the update once the checks of [update_workflow]
    have passed and the update itself went through.  Without a wish for
    [active], or with the value the workflow has, nothing else is sent.
    With another value the handler sends one request that switches the
    workflow on or off, and returns its answer; when that request fails,
    the handler reports a failed update whose message says that the
    original workflow remains unchanged, although the update was
    written. *)
Theorem activation_follows_update (args : UpdateArgs) (workflowId : string)
    (world : World R AnyWorkflow) (current updated : AnyWorkflow)
    (mode : string) (remote1 : R) :
  arg_workflowId args = Some workflowId → truthy workflowId = true →
  default "merge" (arg_updateMode args) = mode →
  mode = "merge" ∨ mode = "replace" →
  api_getWorkflow api workflowId (remote world) = inr current →
  let validation :=
    validateWorkflowUpdate current (arg_nodes args) (arg_connections args)
                           mode in
  uv_isValid validation = true →
  uv_warnings validation = [] ∨ arg_force args = Some true →
  let body := applyUpdates (cleanWorkflowForUpdate current) args mode in
  api_updateWorkflow api workflowId body (remote world)
  = (inr updated, remote1) →
  let res := execute api errorText args world in
  let written := [CallGet workflowId; CallUpdate workflowId body] in
  (arg_active args = None ∨ arg_active args = aw_active current →
   res = (inr updated, mkWorld remote1 (calls world ++ written)))
  ∧ (∀ wanted,
       arg_active args = Some wanted → Some wanted ≠ aw_active current →
       let answer := toggleAnswer api wanted workflowId remote1 in
       res.2 = mkWorld answer.2
                       (calls world
                        ++ written ++ [toggleCall wanted workflowId])
       ∧ (∀ final, answer.1 = inr final → res.1 = inr final)
       ∧ (∀ e, answer.1 = inl e → res.1 = inl (updateFailed errorText e))).
Proof.
  intros Hid Htruthy Hmode Hmodes Hget validation Hvalid Hpass body Hupd.
  cbn zeta.
  rewrite (execute_validated args workflowId world current mode);
    try done.
  fold body.
  assert (∀ (k : AnyWorkflow → M R AnyWorkflow AnyWorkflow) h,
            try_catch (bind (updateWorkflow api workflowId body) k) h
                      (fetched workflowId world)
            = try_catch (k updated) h
                (mkWorld remote1
                   (calls world
                    ++ [CallGet workflowId; CallUpdate workflowId body])))
    as Hstep.
  { intros k h. unfold try_catch, bind, updateWorkflow.
    cbn [remote calls fetched]. rewrite Hupd. cbn [fst snd].
    by rewrite <- app_assoc. }
  rewrite Hstep. clear Hstep.
  split.
  - intros Hsame.
    assert (match arg_active args with
            | Some a =>
                if bool_decide (Some a = aw_active current)
                then ret updated
                else if a then activateWorkflow api workflowId
                     else deactivateWorkflow api workflowId
            | None => ret updated
            end = (ret updated : M R AnyWorkflow AnyWorkflow)) as ->.
    { destruct (arg_active args) as [a|] eqn:Ha; [|done].
      destruct Hsame as [[=]|Hsame]. by rewrite bool_decide_eq_true_2. }
    done.
  - intros wanted Hwanted Hdiffers. rewrite Hwanted.
    rewrite bool_decide_eq_false_2 by done.
    unfold toggleAnswer, toggleCall, try_catch.
    destruct wanted.
    + unfold activateWorkflow. cbn [remote calls fst snd].
      destruct (api_activateWorkflow api workflowId remote1)
        as [[e|final] remote2]; cbn [fst snd throw];
        rewrite <- !app_assoc;
        (split; [done|]); split; intros; simplify_eq; done.
    + unfold deactivateWorkflow. cbn [remote calls fst snd].
      destruct (api_deactivateWorkflow api workflowId remote1)
        as [[e|final] remote2]; cbn [fst snd throw];
        rewrite <- !app_assoc;
        (split; [done|]); split; intros; simplify_eq; done.
Qed.

End update_runs.

(** ** mergeConnections and mergeNodes, entry by entry *)

Section merge_pointwise.
Import UpdateWorkflow.

(** The loop over the types of one source, on the entry of the source. *)
Lemma assignTypes_get s (conns : Obj.t json) :
  Forall (λ typed, plainKey typed.1) conns →
  ∀ (m : Obj.t (Obj.t json)) byType,
    Obj.get s m = Some byType →
    Obj.get s
      (fold_left (λ m '(connectionType, connectionArrays),
                    if isArray connectionArrays
                    then assignType s connectionType connectionArrays m
                    else m)
                 conns m)
    = Some (fold_left (λ byType '(connectionType, connectionArrays),
                         if isArray connectionArrays
                         then Obj.put connectionType connectionArrays byType
                         else byType)
                      conns byType).
Proof.
  induction conns as [|[ty v] conns IH]; intros Hplain m byType Hget;
    cbn [fold_left]; [done|].
  apply Forall_cons in Hplain as [Hty Hplain]. cbn [fst] in Hty.
  destruct (isArray v); [|by apply IH].
  apply IH; [done|]. unfold assignType. rewrite Hget. cbn.
  rewrite write_plain by done. apply get_put_eq.
Qed.

Lemma putArrays_get ty (conns : Obj.t json) :
  ∀ byType : Obj.t json,
    NoDup (Obj.keys conns) →
    Obj.get ty
      (fold_left (λ byType '(connectionType, connectionArrays),
                    if isArray connectionArrays
                    then Obj.put connectionType connectionArrays byType
                    else byType)
                 conns byType)
    = match Obj.get ty conns with
      | Some v => if isArray v then Some v else Obj.get ty byType
      | None => Obj.get ty byType
      end.
Proof.
  unfold Obj.keys.
  induction conns as [|[k0 v0] conns IH]; intros byType Hnd; [done|].
  cbn in Hnd. apply NoDup_cons in Hnd as [Hk0 Hnd].
  cbn [fold_left Obj.get]. rewrite IH by done.
  destruct (decide (k0 = ty)) as [->|Hne].
  - apply (proj2 (get_None_keys ty conns)) in Hk0. rewrite Hk0.
    destruct (isArray v0); [|done]. apply get_put_eq.
  - destruct (isArray v0); [|done]. by rewrite get_put_ne.
Qed.

Lemma typeAt_mergeSource merged s conns ty :
  plainKey s → Forall (λ typed, plainKey typed.1) conns →
  NoDup (Obj.keys conns) →
  typeAt (mergeSource merged (s, conns)) s ty
  = match Obj.get ty conns with
    | Some v => if isArray v then Some v else typeAt merged s ty
    | None => typeAt merged s ty
    end.
Proof.
  intros Hplain Hplain' Hnd. unfold typeAt, mergeSource.
  rewrite inherits_plain by done.
  destruct (Obj.get s merged) as [byType|] eqn:Hs.
  - rewrite (assignTypes_get s conns Hplain' merged byType) by done. cbn.
    by apply putArrays_get.
  - rewrite (assignTypes_get s conns Hplain' _ []) by apply get_put_eq.
    cbn. by rewrite putArrays_get.
Qed.

Lemma typeAt_mergeSource_ne merged s conns k ty :
  s ≠ k →
  typeAt (mergeSource merged (s, conns)) k ty = typeAt merged k ty.
Proof. intros Hne. unfold typeAt. by rewrite get_mergeSource_ne. Qed.

Lemma typeAt_cons_eq s conns (rest : Obj.t (Obj.t json)) ty :
  typeAt ((s, conns) :: rest) s ty = Obj.get ty conns.
Proof. unfold typeAt. simpl. by rewrite decide_True. Qed.

Lemma typeAt_cons_ne s conns (rest : Obj.t (Obj.t json)) k ty :
  s ≠ k → typeAt ((s, conns) :: rest) k ty = typeAt rest k ty.
Proof. intros Hne. unfold typeAt. simpl. by rewrite decide_False. Qed.

Lemma typeAt_mergeConnections newConnections :
  ∀ current source ty,
    plainKeys newConnections →
    NoDup (Obj.keys newConnections) →
    Forall (λ e, NoDup (Obj.keys e.2)) newConnections →
    typeAt (mergeConnections current newConnections) source ty
    = match typeAt newConnections source ty with
      | Some arrays =>
          if isArray arrays then Some arrays
          else typeAt current source ty
      | None => typeAt current source ty
      end.
Proof.
  induction newConnections as [|[s conns] rest IH];
    intros current source ty Hplain Hnd Hinner; [done|].
  apply Forall_cons in Hplain as [[Hs' Hconns'] Hplain].
  cbn [fst snd] in Hs', Hconns'.
  unfold Obj.keys in Hnd. cbn in Hnd.
  apply NoDup_cons in Hnd as [Hs Hnd].
  apply Forall_cons in Hinner as [Hconns Hinner]. cbn [snd] in Hconns.
  change (mergeConnections current ((s, conns) :: rest))
    with (mergeConnections (mergeSource current (s, conns)) rest).
  destruct (decide (s = source)) as [->|Hne].
  - unfold typeAt at 1.
    rewrite mergeConnections_untouched by done.
    fold (typeAt (mergeSource current (source, conns)) source ty).
    rewrite typeAt_mergeSource by done.
    by rewrite typeAt_cons_eq.
  - rewrite IH by done. rewrite typeAt_mergeSource_ne by done.
    by rewrite typeAt_cons_ne.
Qed.

(** X22. [mergeConnections] works per source and type, for an update
    whose sources and types are no properties that an object inherits
    from [Object.prototype]: where the update gives an array under a
    source and a type, the merged connections hold that array there,
    whether the current workflow had the source or not; every other type
    of every source holds what the current connections hold, also under
    a source the update mentions. *)
Theorem mergeConnections_by_type
    (currentConnections newConnections : Obj.t (Obj.t json))
    (source connectionType : string) :
  plainKeys newConnections →
  NoDup (Obj.keys newConnections) →
  Forall (λ e, NoDup (Obj.keys e.2)) newConnections →
  typeAt (mergeConnections currentConnections newConnections)
         source connectionType
  = match typeAt newConnections source connectionType with
    | Some arrays =>
        if isArray arrays then Some arrays
        else typeAt currentConnections source connectionType
    | None => typeAt currentConnections source connectionType
    end.
Proof. apply typeAt_mergeConnections. Qed.

(** A source of the update that is named like a property of
    [Object.prototype], and is no source of the current connections,
    leaves no trace in the merged connections: its arrays are assigned
    to the built-in object found under that name. *)
Lemma mergeConnections_inherited_source :
  mergeConnections currentLinks
                   [("constructor", [("main", JArr [JArr [JStr "B"]])])]
  = currentLinks.
Proof. reflexivity. Qed.

Lemma same_value_string s (y : option json) :
  same_value (Some (JStr s)) y = true ↔ y = Some (JStr s).
Proof.
  split.
  - intros H. symmetry. by apply same_value_eq.
  - intros ->. cbn. by apply bool_decide_eq_true.
Qed.

Lemma idSet_has_string s (ids : list (option json)) :
  idSet_has (Some (JStr s)) ids = true ↔ Some (JStr s) ∈ ids.
Proof.
  unfold idSet_has. rewrite existsb_exists. split.
  - intros (y & Hy & Hsame). apply same_value_string in Hsame.
    subst y. by apply list_elem_of_In.
  - intros Hin. exists (Some (JStr s)). split; [by apply list_elem_of_In|].
    by apply same_value_string.
Qed.

Lemma idSet_add_string s x (ids : list (option json)) :
  Some (JStr s) ∈ idSet_add x ids
  ↔ Some (JStr s) ∈ ids ∨ x = Some (JStr s).
Proof.
  unfold idSet_add. destruct (idSet_has x ids) eqn:Hhas.
  - split; [by left|]. intros [?| ->]; [done|].
    by apply idSet_has_string.
  - rewrite elem_of_app, list_elem_of_singleton. split.
    + intros [?| <-]; [by left|by right].
    + intros [?| ->]; [by left|by right].
Qed.

Lemma existingIds_string s (nodes : list AnyNode) :
  ∀ ids,
    Some (JStr s) ∈ fold_left (λ ids n, idSet_add (idOf n) ids) nodes ids
    ↔ Some (JStr s) ∈ ids ∨ Some (JStr s) ∈ map idOf nodes.
Proof.
  induction nodes as [|n nodes IH]; intros ids; cbn [fold_left map].
  - rewrite elem_of_nil. tauto.
  - rewrite IH, idSet_add_string, elem_of_cons.
    split; [intros [[?|?]|?]|intros [?|[?|?]]]; auto.
Qed.

(** One turn of the loop keeps the ids of the merged nodes distinct
    strings, and the set of ids in step with them. *)
Lemma mergeNode_distinct merged ids newNode :
  hasStringId newNode → NoDup (Obj.keys newNode) →
  Forall hasStringId merged → NoDup (map idOf merged) →
  (∀ s, Some (JStr s) ∈ ids ↔ Some (JStr s) ∈ map idOf merged) →
  let st := mergeNode (merged, ids) newNode in
  Forall hasStringId st.1 ∧ NoDup (map idOf st.1)
  ∧ (∀ s, Some (JStr s) ∈ st.2 ↔ Some (JStr s) ∈ map idOf st.1).
Proof.
  intros (s & Hid & Hs) Hkeys Hall Hnd Hset. cbn zeta. unfold mergeNode.
  rewrite Hid. cbn [js_truthy]. rewrite Hs. cbn [andb].
  destruct (idSet_has (Some (JStr s)) ids) eqn:Hhas.
  - destruct (list_find _ merged) as [[index old]|] eqn:Hfind;
      cbn [fst snd]; [|done].
    apply list_find_Some in Hfind as (Hlook & Hsame & _).
    apply same_value_eq in Hsame.
    assert (idOf (spread old newNode) = idOf old) as Hspread.
    { unfold idOf in *. rewrite get_spread by done.
      by rewrite Hid, Hsame. }
    assert (map idOf (<[index := spread old newNode]> merged)
            = map idOf merged) as Hmap.
    { rewrite map_insert. apply list_insert_id.
      by rewrite map_lookup, Hlook, Hspread. }
    rewrite Hmap. split; [|done].
    apply Forall_insert; [done|].
    exists s. by rewrite Hspread, Hsame.
  - cbn [fst snd]. rewrite map_app. cbn [map]. rewrite Hid.
    assert (Some (JStr s) ∉ map idOf merged) as Hfresh.
    { rewrite <- Hset, <- idSet_has_string. by rewrite Hhas. }
    split; [|split].
    + apply Forall_app. split; [done|].
      constructor; [by exists s|constructor].
    + by apply NoDup_snoc.
    + intros s'. rewrite idSet_add_string, elem_of_app,
        list_elem_of_singleton, Hset.
      split; intros [?|?]; auto.
Qed.

Lemma mergeNodes_distinct newNodes :
  ∀ merged ids,
    Forall (λ m, hasStringId m ∧ NoDup (Obj.keys m)) newNodes →
    Forall hasStringId merged → NoDup (map idOf merged) →
    (∀ s, Some (JStr s) ∈ ids ↔ Some (JStr s) ∈ map idOf merged) →
    let st := fold_left mergeNode newNodes (merged, ids) in
    Forall hasStringId st.1 ∧ NoDup (map idOf st.1).
Proof.
  induction newNodes as [|m newNodes IH]; intros merged ids Hnew Hall Hnd Hset;
    cbn zeta; cbn [fold_left]; [done|].
  apply Forall_cons in Hnew as [[Hm Hkeys] Hnew].
  destruct (mergeNode_distinct merged ids m Hm Hkeys Hall Hnd Hset)
    as (Hall' & Hnd' & Hset').
  destruct (mergeNode (merged, ids) m) as [merged' ids'].
  by apply IH.
Qed.

(** X23. [mergeNodes] keeps ids distinct: when the nodes of the current
    workflow carry distinct ids and every node, current or incoming,
    has a non-empty string for an id, the merged list carries distinct
    ids as well, however often the update repeats an id. *)
Theorem mergeNodes_keeps_ids_distinct (currentNodes newNodes : list AnyNode) :
  Forall hasStringId currentNodes →
  Forall (λ m, hasStringId m ∧ NoDup (Obj.keys m)) newNodes →
  NoDup (map idOf currentNodes) →
  NoDup (map idOf (mergeNodes currentNodes newNodes))
  ∧ Forall hasStringId (mergeNodes currentNodes newNodes).
Proof.
  intros Hcur Hnew Hnd. unfold mergeNodes.
  destruct (mergeNodes_distinct newNodes currentNodes
              (fold_left (λ s n, idSet_add (idOf n) s) currentNodes [])
              Hnew Hcur Hnd) as [Hall' Hnd'].
  - intros s. rewrite existingIds_string, elem_of_nil. tauto.
  - done.
Qed.

End merge_pointwise.

(** ** cleanupCorruptedConnections: what a repair leaves *)

Section cleanup_result.
Import WorkflowUtils.

Lemma connectionsToFix_length w :
  length (connectionsToFix w)
  = length (filter (λ k, is_Some (findNodeById w k)
                         ∧ findNodeByName w k = None)
                   (Obj.keys (connections w))).
Proof.
  unfold connectionsToFix, Obj.keys.
  induction (connections w) as [|[k conns] rest IH]; [done|].
  cbn [omap list_omap map fst].
  destruct (findNodeById w k) as [n|] eqn:Hid;
    destruct (findNodeByName w k) as [m|] eqn:Hname.
  - rewrite filter_cons_False by (rewrite Hname; by intros [_ ?]).
    exact IH.
  - rewrite filter_cons_True by (rewrite Hid, Hname; by split; [eexists|]).
    cbn. by rewrite <- IH.
  - rewrite filter_cons_False by (rewrite Hid; by intros [[? ?] _]).
    exact IH.
  - rewrite filter_cons_False by (rewrite Hid; by intros [[? ?] _]).
    exact IH.
Qed.

(** X24. What [cleanupCorruptedConnections] leaves: the nodes as they
    were; no key of the connections that is the id of a node and the
    name of none; and as its count the number of such keys the
    connections had.  When it counts none it has changed nothing. *)
Theorem cleanup_clears_corrupted_keys (w : Workflow) :
  let repaired := cleanupCorruptedConnections w in
  nodes repaired.2 = nodes w
  ∧ repaired.1
    = length (filter (λ k, is_Some (findNodeById w k)
                           ∧ findNodeByName w k = None)
                     (Obj.keys (connections w)))
  ∧ (∀ k, k ∈ Obj.keys (connections repaired.2) →
          ¬ corruptedKey repaired.2 k)
  ∧ (repaired.1 = 0%nat → repaired.2 = w).
Proof.
  cbn zeta. unfold cleanupCorruptedConnections. cbn [fst snd].
  split; [done|]. split; [apply connectionsToFix_length|]. split.
  - intros k Hk.
    change (¬ corruptedKey w k).
    eapply applyFixes_clean; [| |exact Hk].
    + intros f Hf. by apply connectionsToFix_spec.
    + intros k' Hk' Hcorrupted. by apply connectionsToFix_complete.
  - intros Hzero. apply length_zero_iff_nil in Hzero. rewrite Hzero.
    by destruct w.
Qed.

End cleanup_result.

(** ** pollExecutionCompletion: what a result stands for *)

Section poller_sound.
Import ExecuteWorkflow.
Context (env : Env) (executionId : string) (timeoutSeconds startTime : Z).

Lemma pollLoop_sound fuel :
  ∀ now pollInterval pollCount outcome,
    pollLoop fuel env executionId timeoutSeconds startTime now pollInterval
             pollCount = Some outcome →
    match outcome with
    | inr result =>
        (∃ endTime,
           (timeoutMs timeoutSeconds ≤ endTime - startTime)%Z
           ∧ result = timeoutResult executionId timeoutSeconds startTime
                                    endTime)
        ∨ (∃ n sentAt answeredAt execution,
             (sentAt - startTime < timeoutMs timeoutSeconds)%Z
             ∧ getExecution env n executionId sentAt
               = (inr execution, answeredAt)
             ∧ completed execution = true
             ∧ result = completedResult executionId startTime answeredAt
                                        execution)
    | inl e =>
        ∃ n sentAt answeredAt,
          (sentAt - startTime < timeoutMs timeoutSeconds)%Z
          ∧ getExecution env n executionId sentAt = (inl e, answeredAt)
    end.
Proof.
  induction fuel as [|fuel IH]; intros now pollInterval pollCount outcome;
    [done|].
  cbn [pollLoop]. case_bool_decide as Hin.
  - destruct (getExecution env pollCount executionId now)
      as [[e|execution] now1] eqn:Hanswer.
    + intros [= <-]. by exists pollCount, now, now1.
    + destruct (completed execution) eqn:Hdone.
      * intros [= <-]. right. by exists pollCount, now, now1, execution.
      * apply IH.
  - intros [= <-]. left. exists now. split; [lia|done].
Qed.

(** X25. What a result of [pollExecutionCompletion] stands for.  A
    result it returns is either the timeout record, returned at an
    instant at which the timeout had elapsed, or the record built from
    an answer of the API that reported the execution finished, to a
    request sent before the timeout had elapsed.  An error it throws is
    the error of such a request: a failed status request is not
    repeated. *)
Theorem poll_outcome_sound (fuel : nat)
    (outcome : error + PollResult) :
  pollExecutionCompletion fuel env executionId timeoutSeconds startTime
  = Some outcome →
  match outcome with
  | inr result =>
      (∃ endTime,
         (timeoutMs timeoutSeconds ≤ endTime - startTime)%Z
         ∧ result = timeoutResult executionId timeoutSeconds startTime
                                  endTime)
      ∨ (∃ n sentAt answeredAt execution,
           (sentAt - startTime < timeoutMs timeoutSeconds)%Z
           ∧ getExecution env n executionId sentAt
             = (inr execution, answeredAt)
           ∧ completed execution = true
           ∧ result = completedResult executionId startTime answeredAt
                                      execution)
  | inl e =>
      ∃ n sentAt answeredAt,
        (sentAt - startTime < timeoutMs timeoutSeconds)%Z
        ∧ getExecution env n executionId sentAt = (inl e, answeredAt)
  end.
Proof. apply pollLoop_sound. Qed.

End poller_sound.

(** ** pollExecutionCompletion: the loop ends *)

Section poller_ends.
Import ExecuteWorkflow.
Context (env : Env) (executionId : string) (timeoutSeconds startTime : Z).

(** Every turn that goes on to another takes two seconds at least. *)
Lemma pollLoop_ends (n : nat) :
  answersNotEarly env → timersOnTime env →
  ∀ fuel now pollInterval pollCount,
    (2000 ≤ pollInterval)%Z →
    (timeoutMs timeoutSeconds - (now - startTime) ≤ 2000 * Z.of_nat n)%Z →
    (n < fuel)%nat →
    is_Some (pollLoop fuel env executionId timeoutSeconds startTime now
                      pollInterval pollCount).
Proof.
  intros Hanswers Htimers.
  induction n as [|n IH]; intros fuel now pollInterval pollCount Hint Hleft
    Hfuel; (destruct fuel as [|fuel]; [lia|]); cbn [pollLoop].
  - rewrite bool_decide_eq_false_2 by lia. by eexists.
  - case_bool_decide as Hin; [|by eexists].
    pose proof (Hanswers pollCount executionId now) as Hnow1.
    destruct (getExecution env pollCount executionId now)
      as [[e|execution] now1]; [by eexists|].
    cbn [snd] in Hnow1.
    destruct (completed execution); [by eexists|].
    set (pollInterval' :=
           if bool_decide (90 * 1000 < now1 - startTime)%Z then 10000%Z
           else if bool_decide (30 * 1000 < now1 - startTime)%Z
                then 5000%Z else pollInterval).
    assert (2000 ≤ pollInterval')%Z as Hint'
      by (subst pollInterval'; repeat case_bool_decide; lia).
    pose proof (Htimers now1 pollInterval') as Hnow2.
    apply IH; [done|lia|lia].
Qed.

(** X26. [pollExecutionCompletion] never polls for ever: as long as
    answers do not arrive before their requests and timers do not fire
    early, the loop returns or throws within one turn per two seconds
    of the timeout and one more, whatever the API answers. *)
Theorem poll_terminates (fuel : nat) :
  answersNotEarly env → timersOnTime env →
  (Z.max 0 (timeoutMs timeoutSeconds / 2000 + 1) < Z.of_nat fuel)%Z →
  is_Some (pollExecutionCompletion fuel env executionId timeoutSeconds
                                   startTime).
Proof.
  intros Hanswers Htimers Hfuel. unfold pollExecutionCompletion.
  apply (pollLoop_ends
           (Z.to_nat (timeoutMs timeoutSeconds / 2000 + 1)));
    [done|done|lia| |lia].
  pose proof (Z.mul_succ_div_gt (timeoutMs timeoutSeconds) 2000). lia.
Qed.

End poller_ends.

(** ** The loops over the incoming edges, in closed form *)

Section incoming_loops_closed.
Import WorkflowUtils.
Context (hit : NodeConnection → bool)
        (record : string → string → nat → NodeConnection → ConnectionSpec).

Lemma edgeLoop_split sn ty i (pre : list NodeConnection) :
  ∀ post removed,
    (edgeLoop hit record sn ty i (length pre) (removed, pre ++ post)).2
    = filter (λ c, hit c = false) pre ++ post.
Proof.
  induction pre as [|c pre IH] using rev_ind; intros post removed; [done|].
  rewrite length_app, Nat.add_1_r. cbn [edgeLoop snd fst].
  rewrite <- app_assoc. cbn [app].
  rewrite list_lookup_middle by done.
  rewrite filter_app, filter_cons, filter_nil.
  destruct (hit c) eqn:Hc.
  - rewrite delete_middle, IH.
    rewrite decide_False by done. by rewrite app_nil_r.
  - rewrite IH. rewrite decide_True by done.
    by rewrite <- app_assoc.
Qed.

Lemma edgeLoop_all sn ty i removed (slot : list NodeConnection) :
  (edgeLoop hit record sn ty i (length slot) (removed, slot)).2
  = filter (λ c, hit c = false) slot.
Proof.
  rewrite <- (app_nil_r slot) at 2.
  by rewrite edgeLoop_split, app_nil_r.
Qed.

Lemma pruneSlots_app a b :
  pruneSlots hit (a ++ b) = pruneSlots hit a ++ pruneSlots hit b.
Proof. unfold pruneSlots. by rewrite map_app, filter_app. Qed.

Lemma slotLoop_split sn ty (pre : ConnectionArrays) :
  ∀ post removed,
    (slotLoop hit record sn ty (length pre) (removed, pre ++ post)).2
    = pruneSlots hit pre ++ post.
Proof.
  induction pre as [|slot pre IH] using rev_ind; intros post removed;
    [done|].
  rewrite length_app, Nat.add_1_r. cbn [slotLoop snd fst].
  rewrite <- app_assoc. cbn [app].
  rewrite list_lookup_middle by done.
  rewrite edgeLoop_all, pruneSlots_app.
  unfold pruneSlots at 2. cbn [map]. rewrite filter_cons, filter_nil.
  destruct (decide (length (filter (λ c, hit c = false) slot) = 0%nat))
    as [Hz|Hnz].
  - rewrite delete_middle, IH. apply length_zero_iff_nil in Hz.
    rewrite decide_False by (rewrite Hz; by intros H).
    by rewrite app_nil_r.
  - rewrite insert_app_r_alt by lia. rewrite Nat.sub_diag.
    cbn [insert list_insert]. rewrite IH.
    rewrite decide_True by (intros Heq; by rewrite Heq in Hnz).
    by rewrite <- app_assoc.
Qed.

Lemma slotLoop_all sn ty removed (slots : ConnectionArrays) :
  (slotLoop hit record sn ty (length slots) (removed, slots)).2
  = pruneSlots hit slots.
Proof.
  rewrite <- (app_nil_r slots) at 2.
  by rewrite slotLoop_split, app_nil_r.
Qed.

Lemma put_middle {V} k v v' (a b : Obj.t V) :
  k ∉ Obj.keys a → Obj.put k v (a ++ (k, v') :: b) = a ++ (k, v) :: b.
Proof.
  unfold Obj.keys. induction a as [|[k0 v0] a IH]; simpl; intros Hk.
  - by rewrite decide_True.
  - apply not_elem_of_cons in Hk as [Hne Hk].
    rewrite decide_False by done. by rewrite IH.
Qed.

Lemma remove_middle {V} k v' (a b : Obj.t V) :
  k ∉ Obj.keys a → k ∉ Obj.keys b →
  Obj.remove k (a ++ (k, v') :: b) = a ++ b.
Proof.
  unfold Obj.keys. induction a as [|[k0 v0] a IH]; simpl; intros Ha Hb.
  - rewrite decide_True by done. apply remove_absent.
    by apply get_None_keys.
  - apply not_elem_of_cons in Ha as [Hne Ha].
    rewrite decide_False by done. by rewrite IH.
Qed.

Lemma keys_pruneTypes (byType : Obj.t ConnectionArrays) k :
  k ∈ Obj.keys (pruneTypes hit byType) → k ∈ Obj.keys byType.
Proof.
  unfold Obj.keys, pruneTypes.
  induction byType as [|[ty slots] byType IH]; [done|].
  cbn [omap list_omap map fst].
  destruct (pruneSlots hit slots); cbn [map fst].
  - intros H. right. by apply IH.
  - intros [->|H]%elem_of_cons; [left|right; by apply IH].
Qed.

Lemma keys_pruneSources (conns : WorkflowConnections) k :
  k ∈ Obj.keys (pruneSources hit conns) → k ∈ Obj.keys conns.
Proof.
  unfold Obj.keys, pruneSources.
  induction conns as [|[sn byType] conns IH]; [done|].
  cbn [omap list_omap map fst].
  destruct (pruneTypes hit byType); cbn [map fst].
  - intros H. right. by apply IH.
  - intros [->|H]%elem_of_cons; [left|right; by apply IH].
Qed.

Lemma typeLoop_split sn (todo : Obj.t ConnectionArrays) :
  ∀ done removed,
    NoDup (Obj.keys (done ++ todo)) →
    (fold_left (typeStep hit record sn) todo
               (removed, pruneTypes hit done ++ todo)).2
    = pruneTypes hit (done ++ todo).
Proof.
  induction todo as [|[ty slots] todo IH]; intros done removed Hnd.
  - by rewrite !app_nil_r.
  - cbn [fold_left]. unfold typeStep at 2. cbn [fst snd].
    rewrite slotLoop_all.
    unfold Obj.keys in Hnd. rewrite map_app in Hnd. cbn [map fst] in Hnd.
    apply NoDup_app in Hnd as (Hdone & Hdisjoint & Htodo).
    apply NoDup_cons in Htodo as [Hty Htodo].
    assert (ty ∉ Obj.keys (pruneTypes hit done)) as Hfresh.
    { intros Hin%keys_pruneTypes. apply (Hdisjoint ty Hin). left. }
    assert (pruneTypes hit (done ++ [(ty, slots)])
            = pruneTypes hit done
              ++ match pruneSlots hit slots with
                 | [] => []
                 | kept => [(ty, kept)]
                 end) as Hsnoc.
    { unfold pruneTypes. rewrite omap_app. cbn [omap list_omap].
      by destruct (pruneSlots hit slots). }
    replace (done ++ (ty, slots) :: todo)
      with ((done ++ [(ty, slots)]) ++ todo)
      by (by rewrite <- app_assoc).
    rewrite <- (IH (done ++ [(ty, slots)])
                  (slotLoop hit record sn ty (length slots)
                            (removed, slots)).1).
    + do 3 f_equal. rewrite Hsnoc.
      destruct (pruneSlots hit slots) as [|s kept] eqn:Hkept.
      * rewrite decide_True by done. rewrite app_nil_r.
        by apply remove_middle.
      * rewrite decide_False by done. rewrite <- app_assoc.
        by apply put_middle.
    + unfold Obj.keys. rewrite !map_app. cbn [map fst].
      rewrite <- app_assoc. cbn [app].
      apply NoDup_app. split; [done|]. split; [done|].
      by apply NoDup_cons.
Qed.

Lemma typeLoop_all sn removed (byType : Obj.t ConnectionArrays) :
  NoDup (Obj.keys byType) →
  (fold_left (typeStep hit record sn) byType (removed, byType)).2
  = pruneTypes hit byType.
Proof. intros Hnd. by apply (typeLoop_split sn byType []). Qed.

Lemma sourceLoop_split (todo : WorkflowConnections) :
  ∀ done removed,
    NoDup (Obj.keys (done ++ todo)) →
    Forall (λ e, NoDup (Obj.keys e.2)) todo →
    (fold_left (sourceStep hit record) todo
               (removed, pruneSources hit done ++ todo)).2
    = pruneSources hit (done ++ todo).
Proof.
  induction todo as [|[sn byType] todo IH]; intros done removed Hnd Hinner.
  - by rewrite !app_nil_r.
  - cbn [fold_left]. unfold sourceStep at 2. cbn [fst snd].
    apply Forall_cons in Hinner as [Hkeys Hinner]. cbn [snd] in Hkeys.
    rewrite typeLoop_all by done.
    unfold Obj.keys in Hnd. rewrite map_app in Hnd. cbn [map fst] in Hnd.
    apply NoDup_app in Hnd as (Hdone & Hdisjoint & Htodo).
    apply NoDup_cons in Htodo as [Hsn Htodo].
    assert (sn ∉ Obj.keys (pruneSources hit done)) as Hfresh.
    { intros Hin%keys_pruneSources. apply (Hdisjoint sn Hin). left. }
    assert (pruneSources hit (done ++ [(sn, byType)])
            = pruneSources hit done
              ++ match pruneTypes hit byType with
                 | [] => []
                 | kept => [(sn, kept)]
                 end) as Hsnoc.
    { unfold pruneSources. rewrite omap_app. cbn [omap list_omap].
      by destruct (pruneTypes hit byType). }
    replace (done ++ (sn, byType) :: todo)
      with ((done ++ [(sn, byType)]) ++ todo)
      by (by rewrite <- app_assoc).
    rewrite <- (IH (done ++ [(sn, byType)])
                  (fold_left (typeStep hit record sn) byType
                             (removed, byType)).1); [|  |done].
    + do 3 f_equal. rewrite Hsnoc.
      destruct (pruneTypes hit byType) as [|t kept] eqn:Hkept.
      * rewrite decide_True by done. rewrite app_nil_r.
        by apply remove_middle.
      * rewrite decide_False by done. rewrite <- app_assoc.
        by apply put_middle.
    + unfold Obj.keys. rewrite !map_app. cbn [map fst].
      rewrite <- app_assoc. cbn [app].
      apply NoDup_app. split; [done|]. split; [done|].
      by apply NoDup_cons.
Qed.

(** Under distinct keys the loops leave the pruned connections. *)
Lemma incomingLoop_closed removed conns :
  keysDistinct conns →
  (incomingLoop hit record removed conns).2 = pruneSources hit conns.
Proof.
  intros [Hkeys Hinner]. unfold incomingLoop.
  by apply (sourceLoop_split conns []).
Qed.

Lemma pruneSlots_clean slots :
  Forall (Forall (λ c, hit c = false)) (pruneSlots hit slots).
Proof.
  unfold pruneSlots. apply Forall_forall.
  intros slot [_ Hin]%list_elem_of_filter.
  apply list_elem_of_fmap in Hin as (s & -> & _).
  apply Forall_forall. by intros c [? _]%list_elem_of_filter.
Qed.

Lemma pruneTypes_clean byType :
  Forall (λ t : string * ConnectionArrays,
            Forall (Forall (λ c, hit c = false)) t.2)
         (pruneTypes hit byType).
Proof.
  unfold pruneTypes. induction byType as [|[ty slots] byType IH];
    [constructor|].
  cbn [omap list_omap].
  destruct (pruneSlots hit slots) as [|s kept] eqn:Hkept; [done|].
  constructor; [|done]. cbn [snd]. rewrite <- Hkept.
  apply pruneSlots_clean.
Qed.

Lemma pruneSources_clean conns :
  Forall (λ e : string * Obj.t ConnectionArrays,
            Forall (λ t : string * ConnectionArrays,
                      Forall (Forall (λ c, hit c = false)) t.2) e.2)
         (pruneSources hit conns).
Proof.
  unfold pruneSources. induction conns as [|[sn byType] conns IH];
    [constructor|].
  cbn [omap list_omap].
  destruct (pruneTypes hit byType) as [|t kept] eqn:Hkept; [done|].
  constructor; [|done]. cbn [snd]. rewrite <- Hkept.
  apply pruneTypes_clean.
Qed.

End incoming_loops_closed.

Section legacy_remove_node.

Lemma keysDistinct_remove k (conns : WorkflowConnections) :
  keysDistinct conns → keysDistinct (Obj.remove k conns).
Proof.
  intros [Hkeys Hinner]. split.
  - unfold Obj.keys in *. rewrite remove_filter.
    induction conns as [|[k0 v0] conns IH]; [done|].
    cbn in Hkeys. apply NoDup_cons in Hkeys as [Hk0 Hkeys].
    apply Forall_cons in Hinner as [_ Hinner].
    rewrite filter_cons. case_decide; cbn [map fst]; [|by apply IH].
    apply NoDup_cons. split; [|by apply IH].
    intros (e & Heq & [_ Hin]%list_elem_of_filter)%list_elem_of_fmap.
    apply Hk0. apply list_elem_of_fmap. by exists e.
  - by apply Forall_remove.
Qed.

Lemma mentioned_elem (conns : WorkflowConnections) x :
  x ∈ mentionedNames conns →
  x ∈ Obj.keys conns
  ∨ ∃ sn byType ty slots slot c,
      (sn, byType) ∈ conns ∧ (ty, slots) ∈ byType ∧ slot ∈ slots
      ∧ c ∈ slot ∧ conn_node c = x.
Proof.
  unfold mentionedNames, Obj.keys.
  induction conns as [|[sn byType] conns IH]; [by intros ?%elem_of_nil|].
  cbn [flat_map]. intros [[->|Hx]%elem_of_cons|Hx]%elem_of_app.
  - left. left.
  - right. apply list_elem_of_In, in_flat_map in Hx as ([ty slots] & Ht & Hx).
    apply in_flat_map in Hx as (slot & Hs & Hx).
    apply in_map_iff in Hx as (c & Hc & Hin).
    exists sn, byType, ty, slots, slot, c.
    repeat split; try (by apply list_elem_of_In); [left|done].
  - destruct (IH Hx) as [Hk|(sn' & bt & ty & slots & slot & c & H1 & H2)].
    + left. by right.
    + right. exists sn', bt, ty, slots, slot, c. split; [by right|done].
Qed.

Lemma pruned_not_mentioned (hit : NodeConnection → bool)
    (conns : WorkflowConnections) nodeId :
  (∀ c, hit c = false → conn_node c ≠ nodeId) →
  nodeId ∉ Obj.keys conns →
  nodeId ∉ mentionedNames (pruneSources hit conns).
Proof.
  intros Hhit Hkey Hm. apply mentioned_elem in Hm as [Hk|Hedge].
  - by apply keys_pruneSources in Hk.
  - destruct Hedge as (sn & byType & ty & slots & slot & c
                       & H1 & H2 & H3 & H4 & H5).
    pose proof (pruneSources_clean hit conns) as Hclean.
    eapply Forall_forall in Hclean; [|exact H1]. cbn [snd] in Hclean.
    eapply Forall_forall in Hclean; [|exact H2]. cbn [snd] in Hclean.
    eapply Forall_forall in Hclean; [|exact H3].
    eapply Forall_forall in Hclean; [|exact H4].
    by apply Hhit in Hclean.
Qed.

(** X27. The earlier copy of [removeNodeFromWorkflow], which keys the
    connections by node id, clears every reference to the node it
    removes: it takes the node out of the node list, and the connections
    it leaves are those of before without the entry of the node, without
    the edges that target it and without what that leaves empty, so that
    the id occurs nowhere in them. *)
Theorem legacy_removeNode_clears_references (w : Workflow) (nodeId : string)
    (index : nat) (node : WorkflowNode) :
  keysDistinct (connections w) →
  list_find (λ n, node_id n = nodeId) (nodes w) = Some (index, node) →
  let removal := LegacyWorkflowUtils.removeNodeFromWorkflow w nodeId in
  nodes removal.2 = delete index (nodes w)
  ∧ connections removal.2
    = pruneSources (λ c, bool_decide (conn_node c = nodeId))
                   (Obj.remove nodeId (connections w))
  ∧ nodeId ∉ mentionedNames (connections removal.2).
Proof.
  intros Hkeys Hfind. cbn zeta.
  unfold LegacyWorkflowUtils.removeNodeFromWorkflow. rewrite Hfind.
  cbn [nodes connections set_nodes].
  set (hit := λ c, bool_decide (conn_node c = nodeId)).
  assert (∀ outgoing,
            (WorkflowUtils.incomingLoop hit
               (LegacyWorkflowUtils.incomingSpec nodeId) outgoing
               (Obj.remove nodeId (connections w))).2
            = pruneSources hit (Obj.remove nodeId (connections w)))
    as Hloop.
  { intros outgoing. apply incomingLoop_closed.
    by apply keysDistinct_remove. }
  assert (nodeId ∉ mentionedNames
                     (pruneSources hit (Obj.remove nodeId (connections w))))
    as Hclear.
  { apply pruned_not_mentioned.
    - intros c Hc. unfold hit in Hc. by apply bool_decide_eq_false in Hc.
    - intros [_ ?]%keys_remove. done. }
  destruct (Obj.get nodeId (connections w)) as [own|] eqn:Hown;
    cbn [fst snd nodes connections set_connections set_nodes].
  - rewrite Hloop. by repeat split.
  - pose proof (Hloop []) as Hloop'.
    rewrite (remove_absent nodeId (connections w)) in Hloop' at 1 by done.
    rewrite Hloop'. by repeat split.
Qed.

End legacy_remove_node.

(** ** executeWorkflow: what the caller of the poller reports *)

Section execute_workflow.
Import ExecuteWorkflow.
Context (env : Env) (start : string → option string → Z → (error + string) * Z)
        (errorMessage : error → string).

(** X28. How [execute_workflow] reports an execution that does not
    finish in time.  When the execution was started, completion is
    awaited, which is the default, and every status request sent before
    the timeout has elapsed (300 seconds unless one is given) finds the
    execution unfinished, the handler returns the timeout record of the
    poller as an ordinary result: [isError] is not set.  When completion
    is not awaited it returns the record of the started execution and
    sends no status request at all. *)
Theorem executeWorkflow_reports_timeout_as_result
    (workflowArg inputData : option string) (waitForCompletion : option bool)
    (timeout : option Z) (now : Z) (workflowId executionId : string)
    (now1 : Z) :
  required workflowArg = Some workflowId →
  start workflowId inputData now = (inr executionId, now1) →
  timersOnTime env →
  (waitForCompletion ≠ Some false →
   neverFinished env executionId (default 300%Z timeout) now1 →
   ∃ fuel0 endTime,
     (timeoutMs (default 300%Z timeout) ≤ endTime - now1)%Z
     ∧ ∀ fuel, (fuel0 ≤ fuel)%nat →
         executeWorkflow fuel env start errorMessage workflowArg inputData
                         waitForCompletion timeout now
         = Some (mkToolCallResult
                   (Polled (timeoutResult executionId
                              (default 300%Z timeout) now1 endTime))
                   None))
  ∧ (waitForCompletion = Some false →
     ∀ fuel env',
       executeWorkflow fuel env' start errorMessage workflowArg inputData
                       waitForCompletion timeout now
       = Some (mkToolCallResult
                 (Started executionId now1
                          ("Workflow execution " +:+ executionId
                           +:+ " started successfully"))
                 None)).
Proof.
  intros Hid Hstart Htimers. split.
  - intros Hwait Hrun.
    set (T := default 300%Z timeout) in *.
    set (n := Z.to_nat (timeoutMs T / 2000 + 1)).
    destruct (pollLoop_times_out env executionId T now1 n Hrun Htimers
                (S n) now1 2000%Z 0%nat) as (endTime & Hend & Hloop);
      [lia| |lia|].
    { pose proof (Z.mul_succ_div_gt (timeoutMs T) 2000). lia. }
    exists (S n), endTime. split; [done|]. intros fuel Hfuel.
    unfold executeWorkflow. rewrite Hid, Hstart.
    assert (default true waitForCompletion = true) as ->
      by (by destruct waitForCompletion as [[]|]).
    cbn [negb]. fold T. unfold pollExecutionCompletion.
    by rewrite (pollLoop_more_fuel env executionId T now1 (S n) fuel _ _ _
                  _ Hfuel Hloop).
  - intros -> fuel env'. unfold executeWorkflow. by rewrite Hid, Hstart.
Qed.

End execute_workflow.

(** ** The edges that adding and removing a connection touch *)

Section one_edge.
Import WorkflowUtils.

(** One level of the connections: what is under a key stands between
    what is under the keys before it and under those after it, and
    writing or deleting the key changes that part only. *)
Lemma level_split {V E} (f : V → list E) (d : V) k (o : Obj.t V) :
  f d = [] →
  ∃ a b,
    flat_map (λ e, f e.2) o = a ++ f (default d (Obj.get k o)) ++ b
    ∧ (∀ v', flat_map (λ e, f e.2) (Obj.put k v' o) = a ++ f v' ++ b)
    ∧ (NoDup (Obj.keys o) →
       flat_map (λ e, f e.2) (Obj.remove k o) = a ++ b).
Proof.
  intros Hd. induction o as [|[k0 v0] o IH]; simpl.
  - exists [], []. cbn. rewrite Hd. split; [done|]. split; [|done].
    intros v'. by rewrite app_nil_r.
  - destruct (decide (k0 = k)) as [->|Hne].
    + exists [], (flat_map (λ e, f e.2) o). cbn. split; [done|].
      split; [done|]. intros Hnd. apply NoDup_cons in Hnd as [Hk _].
      rewrite remove_absent; [done|]. by apply get_None_keys.
    + destruct IH as (a & b & Hget & Hput & Hrem).
      exists (f v0 ++ a), b. cbn. rewrite Hget, <- !app_assoc.
      split; [done|]. split.
      * intros v'. by rewrite Hput, <- !app_assoc.
      * intros Hnd. apply NoDup_cons in Hnd as [_ Hnd].
        by rewrite Hrem.
Qed.

Lemma slots_split (slots : ConnectionArrays) (i : Z) slot :
  at_index slots i = Some slot →
  ∃ a b,
    concat slots = a ++ slot ++ b
    ∧ (∀ slot', concat (<[Z.to_nat i := slot']> slots) = a ++ slot' ++ b)
    ∧ concat (delete (Z.to_nat i) slots) = a ++ b.
Proof.
  unfold at_index. case_decide; [|done]. intros Hat.
  pose proof (lookup_lt_Some _ _ _ Hat) as Hlt.
  exists (concat (take (Z.to_nat i) slots)),
         (concat (drop (S (Z.to_nat i)) slots)).
  split; [|split].
  - rewrite <- (take_drop_middle _ _ _ Hat) at 1.
    by rewrite concat_app.
  - intros slot'. rewrite insert_take_drop by done.
    by rewrite concat_app.
  - rewrite delete_take_drop. by rewrite concat_app.
Qed.

Lemma concat_padSlots arr i : concat (padSlots arr i) = concat arr.
Proof.
  unfold padSlots. rewrite concat_app.
  assert (∀ n, concat (replicate n (@nil NodeConnection)) = []) as ->
    by (intros n; induction n; [done|by cbn]).
  by rewrite app_nil_r.
Qed.

Lemma removeConnection_one_edge w c w1 :
  keysDistinct (connections w) →
  removeConnectionFromWorkflow w c = (true, w1) →
  ∃ tn pre edge post,
    getNodeNameById w (targetNodeId c) = Some tn
    ∧ sameEdge tn (default 0%Z (targetIndex c))
               (default "main" (connectionType c)) edge = true
    ∧ edgesOf (connections w) = pre ++ edge :: post
    ∧ edgesOf (connections w1) = pre ++ post.
Proof.
  intros [Hkeys Hinner]. unfold removeConnectionFromWorkflow. cbn zeta.
  destruct (getNodeNameById w (sourceNodeId c)) as [sn|]; [|done].
  destruct (getNodeNameById w (targetNodeId c)) as [tn|]; [|done].
  destruct (negb (truthy sn) || negb (truthy tn)); [done|].
  destruct (Obj.get sn (connections w)) as [byType|] eqn:Hsn; [|done].
  destruct (Obj.get (default "main" (connectionType c)) byType)
    as [slots|] eqn:Hty; [|done].
  destruct (at_index slots (default 0%Z (sourceIndex c)))
    as [slot|] eqn:Hat; [|done].
  destruct (list_find _ slot) as [[ci edge]|] eqn:Hfind; [|done].
  intros [= <-]. cbn [connections set_connections].
  apply list_find_Some in Hfind as (Hci & Hedge & _).
  exists tn.
  assert (NoDup (Obj.keys byType)) as Hkeys'.
  { apply get_Some_elem in Hsn.
    by eapply Forall_forall in Hinner; [|done]. }
  destruct (level_split (λ byType : Obj.t ConnectionArrays,
                           flat_map (λ typed, concat typed.2) byType)
              [] sn (connections w) eq_refl)
    as (ac & bc & Hc & Hcput & Hcrem).
  destruct (level_split (λ slots : ConnectionArrays, concat slots)
              [] (default "main" (connectionType c)) byType eq_refl)
    as (at' & bt & Ht & Htput & Htrem).
  destruct (slots_split _ _ _ Hat) as (as' & bs & Hs & Hsput & Hsrem).
  rewrite Hsn in Hc. rewrite Hty in Ht. cbn [from_option id] in Hc, Ht.
  exists (ac ++ at' ++ as' ++ take ci slot), edge,
         (drop (S ci) slot ++ bs ++ bt ++ bc).
  split; [done|]. split; [done|].
  split.
  - unfold edgesOf. rewrite Hc, Ht, Hs.
    rewrite <- (take_drop_middle _ _ _ Hci) at 1.
    by rewrite <- !app_assoc.
  - set (slot' := delete ci slot).
    set (slots' := if decide (length slot' = 0%nat)
                   then delete (Z.to_nat (default 0%Z (sourceIndex c))) slots
                   else <[Z.to_nat (default 0%Z (sourceIndex c)) := slot']>
                          slots).
    set (byType' := if decide (length slots' = 0%nat)
                    then Obj.remove (default "main" (connectionType c)) byType
                    else Obj.put (default "main" (connectionType c))
                                 slots' byType).
    assert (concat slots' = as' ++ slot' ++ bs) as Hslots'.
    { subst slots'. case_decide as Hz; [|apply Hsput].
      apply length_zero_iff_nil in Hz. by rewrite Hz, Hsrem. }
    assert (flat_map (λ typed : string * ConnectionArrays, concat typed.2)
                     byType'
            = at' ++ concat slots' ++ bt) as HbyType'.
    { subst byType'. case_decide as Hz; [|apply Htput].
      apply length_zero_iff_nil in Hz. rewrite Hz. by apply Htrem. }
    assert (edgesOf (if decide (length (Obj.keys byType') = 0%nat)
                     then Obj.remove sn (connections w)
                     else Obj.put sn byType' (connections w))
            = ac ++ flat_map (λ typed : string * ConnectionArrays,
                                concat typed.2) byType' ++ bc) as ->.
    { unfold edgesOf. case_decide as Hz; [|apply Hcput].
      apply keys_length_zero in Hz. rewrite Hz. by apply Hcrem. }
    rewrite HbyType', Hslots'. subst slot'.
    rewrite delete_take_drop. by rewrite <- !app_assoc.
Qed.

Lemma addConnection_one_edge w c w1 :
  addConnectionToWorkflow w c = Returned true w1 →
  ∃ tn pre post,
    getNodeNameById w (targetNodeId c) = Some tn
    ∧ edgesOf (connections w) = pre ++ post
    ∧ (edgesOf (connections w1) = pre ++ post
       ∨ edgesOf (connections w1)
         = pre ++ mkConn tn (default "main" (connectionType c))
                         (default 0%Z (targetIndex c)) :: post).
Proof.
  unfold addConnectionToWorkflow. cbn zeta.
  destruct (negb (isValid _)); [done|].
  destruct (getNodeNameById w (sourceNodeId c)) as [sn|]; [|done].
  destruct (getNodeNameById w (targetNodeId c)) as [tn|]; [|done].
  destruct (negb (truthy sn) || negb (truthy tn)); [done|].
  destruct (Obj.inherits sn (connections w)); [done|].
  destruct (Obj.inherits _ _); [done|].
  destruct (at_index _ _) as [slot|] eqn:Hat; [|done].
  intros [= <-]. cbn [connections set_connections].
  exists tn.
  destruct (level_split (λ byType : Obj.t ConnectionArrays,
                           flat_map (λ typed, concat typed.2) byType)
              [] sn (connections w) eq_refl)
    as (ac & bc & Hc & Hcput & _).
  destruct (level_split (λ slots : ConnectionArrays, concat slots)
              [] (default "main" (connectionType c))
              (default [] (Obj.get sn (connections w))) eq_refl)
    as (at' & bt & Ht & Htput & _).
  destruct (slots_split _ _ _ Hat) as (as' & bs & Hs & Hsput & _).
  rewrite concat_padSlots in Hs.
  exists (ac ++ at' ++ as' ++ slot), (bs ++ bt ++ bc).
  split; [done|]. split.
  - unfold edgesOf. rewrite Hc, Ht, Hs. by rewrite <- !app_assoc.
  - unfold edgesOf. rewrite Hcput, Htput, Hsput.
    destruct (existsb _ slot); [left|right]; by rewrite <- !app_assoc.
Qed.

(** X29. Adding and removing a connection touch one edge.  A removal
    that reports success took exactly one edge out, one that goes to
    the target node with the given index and type, and left every other
    edge of the workflow where it was, in the same order; this needs
    that no object of the connections has a key twice.  An addition that
    reports success put at most one edge in, the one asked for, and
    left the others where they were. *)
Theorem connection_edits_touch_one_edge (w : Workflow) (c : ConnectionSpec) :
  keysDistinct (connections w) →
  (∀ w1, removeConnectionFromWorkflow w c = (true, w1) →
     ∃ tn pre edge post,
       getNodeNameById w (targetNodeId c) = Some tn
       ∧ sameEdge tn (default 0%Z (targetIndex c))
                  (default "main" (connectionType c)) edge = true
       ∧ edgesOf (connections w) = pre ++ edge :: post
       ∧ edgesOf (connections w1) = pre ++ post)
  ∧ (∀ w1, addConnectionToWorkflow w c = Returned true w1 →
       ∃ tn pre post,
         getNodeNameById w (targetNodeId c) = Some tn
         ∧ edgesOf (connections w) = pre ++ post
         ∧ (edgesOf (connections w1) = pre ++ post
            ∨ edgesOf (connections w1)
              = pre ++ mkConn tn (default "main" (connectionType c))
                              (default 0%Z (targetIndex c)) :: post)).
Proof.
  intros Hkeys. split; intros w1 H.
  - by apply removeConnection_one_edge.
  - by apply addConnection_one_edge.
Qed.

End one_edge.

(** ** The guard of a replace-mode update, for all sizes *)

Section replace_guard.
Import UpdateWorkflow.
Context {R : Type} (api : ApiService R AnyWorkflow)
        (errorText : error → string).

Lemma countCheck_errors critical warning current new :
  (countCheck critical warning "replace" current new).1 = []
  ↔ ¬ emptiesOut (current, new).
Proof.
  rewrite countCheck_replace. unfold emptiesOut. cbn [fst snd].
  repeat case_bool_decide; cbn [andb fst snd];
    (split; [intros Hnil|intros Hnot]); done || lia.
Qed.

Lemma countCheck_warnings critical warning current new :
  (countCheck critical warning "replace" current new).2 = []
  ↔ ¬ halves (current, new).
Proof.
  rewrite countCheck_replace. unfold halves. cbn [fst snd].
  repeat case_bool_decide; cbn [andb fst snd];
    (split; [intros Hnil|intros Hnot]); done || lia.
Qed.

Lemma guard_errors current args :
  uv_errors (validateWorkflowUpdate current (arg_nodes args)
                                    (arg_connections args) "replace") = []
  ↔ ¬ Exists emptiesOut (guardedSizes current args).
Proof.
  unfold validateWorkflowUpdate, guardedSizes. cbn [uv_errors].
  rewrite Exists_app, app_nil.
  destruct (arg_nodes args) as [ns|], (arg_connections args) as [cs|];
    rewrite ?countCheck_errors, ?Exists_cons, ?Exists_nil; cbn [fst];
    tauto.
Qed.

Lemma guard_warnings current args :
  uv_warnings (validateWorkflowUpdate current (arg_nodes args)
                                      (arg_connections args) "replace") = []
  ↔ ¬ Exists halves (guardedSizes current args).
Proof.
  unfold validateWorkflowUpdate, guardedSizes. cbn [uv_warnings].
  rewrite Exists_app, app_nil.
  destruct (arg_nodes args) as [ns|], (arg_connections args) as [cs|];
    rewrite ?countCheck_warnings, ?Exists_cons, ?Exists_nil; cbn [snd];
    tauto.
Qed.

(** X30. The guard of a replace-mode update, for all sizes.  Once the
    workflow is fetched, the call is refused with the blocking error,
    whatever [force] is, exactly when it would empty a node list or a
    connections object that is not empty.  Otherwise it is refused with
    the warning exactly when it would leave fewer than half of the nodes
    or of the connection sources and [force] is not true.  In every
    other case the update is sent.  A refused call has sent nothing but
    the fetch. *)
Theorem replace_guard_decides (args : UpdateArgs) (workflowId : string)
    (world : World R AnyWorkflow) (current : AnyWorkflow) :
  arg_workflowId args = Some workflowId → truthy workflowId = true →
  arg_updateMode args = Some "replace" →
  api_getWorkflow api workflowId (remote world) = inr current →
  let res := execute api errorText args world in
  let validation :=
    validateWorkflowUpdate current (arg_nodes args) (arg_connections args)
                           "replace" in
  let sizes := guardedSizes current args in
  (Exists emptiesOut sizes →
   blockedWith res world workflowId
               (N8nApiError (blockedMessage (uv_errors validation))))
  ∧ (¬ Exists emptiesOut sizes → Exists halves sizes →
     arg_force args ≠ Some true →
     blockedWith res world workflowId
                 (N8nApiError (warningMessage (uv_warnings validation))))
  ∧ (¬ Exists emptiesOut sizes →
     ¬ Exists halves sizes ∨ arg_force args = Some true →
     sentUpdate res world workflowId).
Proof.
  intros Hid Htruthy Hmode Hget res validation sizes.
  destruct (execute_after_fetch api errorText args workflowId world current
              Hid Htruthy Hmode Hget) as (Hblocked & Hwarned & Hpass).
  fold res validation in Hblocked, Hwarned, Hpass.
  pose proof (guard_errors current args) as Herrs.
  pose proof (guard_warnings current args) as Hwarns.
  fold validation sizes in Herrs, Hwarns.
  pose proof (isValid_errors current (arg_nodes args) (arg_connections args)
                "replace") as Hvalid.
  fold validation in Hvalid.
  split; [|split].
  - intros Hempty. apply Hblocked.
    destruct (uv_isValid validation); [|done].
    exfalso. apply Herrs; [|done]. by apply Hvalid.
  - intros Hempty Hhalf Hforce. apply Hwarned.
    + apply Hvalid. by apply Herrs.
    + intros Hnil. by apply Hwarns in Hnil.
    + by destruct (arg_force args) as [[]|].
  - intros Hempty Hless. apply Hpass.
    + apply Hvalid. by apply Herrs.
    + destruct Hless as [Hless|Hforce]; [left|by right].
      by apply Hwarns.
Qed.

End replace_guard.

(** ** The properties of the node tools on sample workflows *)

Section node_tools_on_samples.
Import WorkflowUtils.

Lemma updateWorkflowSafely_throws_api_errors_witness :
  (∃ message,
     N8nApiError "Failed to update workflow: TypeError: boom"
     = N8nApiError message)
  ∧ (∀ text, failingUpdater chain = inl (OtherError text) →
             N8nApiError "Failed to update workflow: TypeError: boom"
             = N8nApiError ("Failed to update workflow: " +:+ text)).
Proof.
  apply (updateWorkflowSafely_throws_api_errors singleStore "wf1"
           failingUpdater true chainWorld chain);
    reflexivity.
Defined.

Lemma update_node_name_outcome_witness :
  ∃ message,
    blockedWith (UpdateNodeNameHandler.execute singleStore (Some "wf1")
                   (Some "b") (Some "Bee") chainWorld)
                chainWorld "wf1" (N8nApiError message).
Proof.
  refine (proj1 (update_node_name_outcome singleStore chainWorld "wf1" "b"
                   "Bee" chain 1 nodeB _ _ _ _ _ _ _) _);
    [reflexivity | reflexivity | reflexivity | reflexivity
    | apply integrity_wellFormed; reflexivity | reflexivity | done
    | left; compute_done].
Defined.

Lemma delete_node_outcome_witness :
  ∃ message,
    blockedWith (DeleteNodeHandler.execute singleStore (Some "wf1")
                   (Some "b") chainWorld)
                chainWorld "wf1" (N8nApiError message).
Proof.
  refine (proj1 (delete_node_outcome singleStore chainWorld "wf1" "b"
                   chain 1 nodeB _ _ _ _ _ _ _) _);
    [reflexivity | reflexivity | reflexivity
    | apply integrity_wellFormed; reflexivity
    | unfold noEmptyLeaves, typesOk, slotsOk; simpl;
      repeat (constructor; simpl; try done)
    | compute_done | reflexivity | compute_done].
Defined.

Lemma addConnection_then_remove_witness :
  ∃ w1,
    addConnectionToWorkflow chain (connectionOf (argsAC None) "a" "c")
    = Returned true w1
    ∧ removeConnectionFromWorkflow w1 (connectionOf (argsAC None) "a" "c")
      = (true, chain).
Proof.
  apply (addConnection_then_remove chain
           (connectionOf (argsAC None) "a" "c") "A" "C");
    [reflexivity | reflexivity | reflexivity | reflexivity
    | compute_done | compute_done
    | unfold noEmptyLeaves, typesOk, slotsOk; simpl;
      repeat (constructor; simpl; try done)
    | simpl; lia | reflexivity].
Defined.

Lemma removeConnection_keeps_integrity_witness :
  isValid (validateWorkflowIntegrity
             (removeConnectionFromWorkflow chain specAB).2) = true
  ∧ ((removeConnectionFromWorkflow chain specAB).1 = false →
     (removeConnectionFromWorkflow chain specAB).2 = chain).
Proof.
  apply (removeConnection_keeps_integrity chain specAB). reflexivity.
Defined.



Lemma addNode_generates_fresh_id_witness :
  let added := addNodeToWorkflow chain codeNode None in
  nodes added.2 = nodes chain ++ [added.1]
  ∧ connections added.2 = connections chain
  ∧ findNodeById chain (node_id added.1) = None
  ∧ findNodeById added.2 (node_id added.1) = Some added.1
  ∧ (NoDup (idsOf chain) → NoDup (idsOf added.2))
  ∧ (p_name codeNode = None → node_name added.1 = node_id added.1).
Proof.
  apply (addNode_generates_fresh_id chain codeNode None); reflexivity.
Defined.

Lemma add_node_outcome_witness :
  let added :=
    addNodeToWorkflow chain (AddNodeHandler.nodeToAdd codeNode None) None in
  nodes added.2 = nodes chain ++ [added.1]
  ∧ sent (AddNodeHandler.execute singleStore (Some "wf1") (Some codeNode)
            None chainWorld)
         chainWorld
         [CallGet "wf1";
          CallUpdate "wf1"
                     (BaseNodeHandler.cleanWorkflowForUpdate added.2)].
Proof.
  refine (proj2 (proj2 (add_node_outcome singleStore chainWorld "wf1"
                          codeNode None chain "n8n-nodes-base.code"
                          _ _ _ _)) _ _);
    [reflexivity | reflexivity | reflexivity
    | apply integrity_wellFormed; reflexivity
    | compute_done | compute_done].
Defined.

Lemma update_node_parameters_outcome_witness :
  let newParameters := Obj.spread (parameters nodeB) [("url", "http://x")] in
  let updated :=
    set_nodes chain
      (<[1%nat := mkNode "b" "B" "n8n-nodes-base.httpRequest" 1 (200, 0)%Z
                         newParameters]> (nodes chain)) in
  sent (UpdateNodeParametersHandler.execute singleStore (Some "wf1")
          (Some "b") (Some [("url", "http://x")]) None chainWorld)
       chainWorld
       [CallGet "wf1";
        CallUpdate "wf1" (BaseNodeHandler.cleanWorkflowForUpdate updated)].
Proof.
  refine (proj1 (update_node_parameters_outcome singleStore chainWorld
                   "wf1" "b" [("url", "http://x")] None chain 1 nodeB
                   _ _ _ _ _));
    [reflexivity | reflexivity | reflexivity
    | apply integrity_wellFormed; reflexivity | reflexivity].
Defined.

Lemma move_node_outcome_witness :
  ∃ message,
    MoveNodeHandler.execute singleStore (Some "wf1") (Some "b")
                            (Some (JArr [JNum 10])) chainWorld
    = (inl (N8nApiError message), chainWorld).
Proof.
  refine (proj1 (move_node_outcome singleStore chainWorld "wf1" "b"
                   (Some (JArr [JNum 10])) chain _ _ _ _) _);
    [reflexivity | reflexivity | reflexivity
    | apply integrity_wellFormed; reflexivity
    | done].
Defined.

Lemma update_multiple_nodes_outcome_witness :
  let mutated :=
    set_nodes chain (map (updatedNode moveAndSet) (nodes chain)) in
  UpdateMultipleNodesHandler.workflowUpdater moveAndSet chain = inr mutated
  ∧ idsOf mutated = idsOf chain
  ∧ namesOf mutated = namesOf chain
  ∧ connections mutated = connections chain
  ∧ sent (UpdateMultipleNodesHandler.execute singleStore (Some "wf1")
            (Some moveAndSetArgs) chainWorld)
         chainWorld
         [CallGet "wf1";
          CallUpdate "wf1"
                     (BaseNodeHandler.cleanWorkflowForUpdate mutated)].
Proof.
  refine (proj2 (update_multiple_nodes_outcome singleStore chainWorld "wf1"
                   moveAndSetArgs moveAndSet chain _ _ _ _ _) _ _);
    [reflexivity | done | reflexivity | reflexivity
    | apply integrity_wellFormed; reflexivity
    | reflexivity
    | repeat constructor].
Defined.

Lemma legacy_removeNode_clears_references_witness :
  let removal :=
    LegacyWorkflowUtils.removeNodeFromWorkflow testFixture "node2" in
  nodes removal.2 = delete 1%nat (nodes testFixture)
  ∧ connections removal.2
    = pruneSources (λ c, bool_decide (conn_node c = "node2"))
                   (Obj.remove "node2" (connections testFixture))
  ∧ "node2" ∉ mentionedNames (connections removal.2).
Proof.
  apply (legacy_removeNode_clears_references testFixture "node2" 1
           (mkNode "node2" "HTTP Request" "n8n-nodes-base.httpRequest" 1
                   (300, 200)%Z [("url", "https://api.example.com");
                                 ("method", "GET")]));
    [compute_done | reflexivity].
Defined.

Lemma connection_edits_touch_one_edge_witness :
  ∃ tn pre edge post,
    getNodeNameById chain "b" = Some tn
    ∧ sameEdge tn 0 "main" edge = true
    ∧ edgesOf (connections chain) = pre ++ edge :: post
    ∧ edgesOf (connections
                 (removeConnectionFromWorkflow chain specAB).2)
      = pre ++ post.
Proof.
  refine (proj1 (connection_edits_touch_one_edge chain specAB _)
                (removeConnectionFromWorkflow chain specAB).2 _);
    [compute_done | reflexivity].
Defined.

End node_tools_on_samples.

(** ** The properties of update_workflow and of the poller on samples *)

Section update_and_poll_on_samples.
Import UpdateWorkflow.


Lemma activation_follows_update_witness :
  let body :=
    applyUpdates (cleanWorkflowForUpdate tenNodeWorkflow) activateArgs
                 "merge" in
  let res :=
    execute noActivation renderError activateArgs
            (mkWorld tenNodeWorkflow []) in
  res.2 = mkWorld body
                  ([] ++ [CallGet "wf1"; CallUpdate "wf1" body]
                   ++ [CallActivate "wf1"])
  ∧ (∀ final,
       (toggleAnswer noActivation true "wf1" body).1 = inr final →
       res.1 = inr final)
  ∧ (∀ e,
       (toggleAnswer noActivation true "wf1" body).1 = inl e →
       res.1 = inl (updateFailed renderError e)).
Proof.
  refine (proj2 (activation_follows_update noActivation renderError
                   activateArgs "wf1" (mkWorld tenNodeWorkflow [])
                   tenNodeWorkflow
                   (applyUpdates (cleanWorkflowForUpdate tenNodeWorkflow)
                                 activateArgs "merge")
                   "merge"
                   (applyUpdates (cleanWorkflowForUpdate tenNodeWorkflow)
                                 activateArgs "merge")
                   _ _ _ _ _ _ _ _) true _ _);
    [reflexivity | reflexivity | reflexivity | by left | reflexivity
    | reflexivity | by left | reflexivity | reflexivity | done].
Defined.

Lemma mergeConnections_by_type_witness :
  typeAt (mergeConnections currentLinks newLinks) "A" "error"
  = match typeAt newLinks "A" "error" with
    | Some arrays =>
        if isArray arrays then Some arrays
        else typeAt currentLinks "A" "error"
    | None => typeAt currentLinks "A" "error"
    end.
Proof.
  apply (mergeConnections_by_type currentLinks newLinks "A" "error");
    [|compute_done..].
  repeat (apply Forall_cons; split; [|try apply Forall_nil_2]);
    try apply Forall_nil_2; compute_done.
Defined.

Lemma mergeNodes_keeps_ids_distinct_witness :
  NoDup (map idOf (mergeNodes tenNodes someNodes))
  ∧ Forall hasStringId (mergeNodes tenNodes someNodes).
Proof.
  apply (mergeNodes_keeps_ids_distinct tenNodes someNodes).
  - unfold tenNodes. apply Forall_fmap, Forall_forall. intros i _.
    eexists. split; reflexivity.
  - repeat (apply Forall_cons;
            split; [split; [eexists; split; reflexivity|compute_done]|]).
    apply Forall_nil_2.
  - vm_compute.
    repeat (apply NoDup_cons; split;
            [intros H;
             repeat (apply elem_of_cons in H as [H|H]; [done|]);
             by apply elem_of_nil in H|]).
    apply NoDup_nil_2.
Defined.

Lemma replace_guard_decides_witness :
  blockedWith (execute anyStore renderError (shrinkArgs None)
                       (mkWorld tenNodeWorkflow []))
              (mkWorld tenNodeWorkflow []) "wf1"
    (N8nApiError
       (warningMessage
          (uv_warnings
             (validateWorkflowUpdate tenNodeWorkflow
                (arg_nodes (shrinkArgs None))
                (arg_connections (shrinkArgs None)) "replace")))).
Proof.
  refine (proj1 (proj2 (replace_guard_decides anyStore renderError
                          (shrinkArgs None) "wf1"
                          (mkWorld tenNodeWorkflow []) tenNodeWorkflow
                          _ _ _ _)) _ _ _);
    [reflexivity | reflexivity | reflexivity | reflexivity
    | | | done].
  - intros H. apply Exists_cons in H as [[_ H]|H]; [done|].
    by apply Exists_nil in H.
  - apply Exists_cons. left. split; simpl; lia.
Defined.

End update_and_poll_on_samples.

Section poller_on_samples.
Import ExecuteWorkflow.

Lemma poll_outcome_sound_witness :
  (∃ endTime,
     (timeoutMs 60 ≤ endTime - 0)%Z
     ∧ completedResult "exec-1" 0 4300 finishedExecution
       = timeoutResult "exec-1" 60 0 endTime)
  ∨ (∃ n sentAt answeredAt execution,
       (sentAt - 0 < timeoutMs 60)%Z
       ∧ getExecution quickRun n "exec-1" sentAt
         = (inr execution, answeredAt)
       ∧ completed execution = true
       ∧ completedResult "exec-1" 0 4300 finishedExecution
         = completedResult "exec-1" 0 answeredAt execution).
Proof.
  apply (poll_outcome_sound quickRun "exec-1" 60 0 10
           (inr (completedResult "exec-1" 0 4300 finishedExecution))).
  reflexivity.
Defined.

Lemma poll_terminates_witness :
  is_Some (pollExecutionCompletion 10 slowRun "exec-1" 5 0).
Proof.
  apply (poll_terminates slowRun "exec-1" 5 0 10).
  - intros n executionId t. simpl. lia.
  - intros t d. simpl. lia.
  - vm_compute. reflexivity.
Defined.

Lemma executeWorkflow_reports_timeout_as_result_witness :
  ∃ fuel0 endTime,
    (timeoutMs 5 ≤ endTime - 0)%Z
    ∧ ∀ fuel, (fuel0 ≤ fuel)%nat →
        executeWorkflow fuel slowRun startsAtOnce renderError (Some "wf1")
                        None None (Some 5%Z) 0
        = Some (mkToolCallResult
                  (Polled (timeoutResult "exec-1" 5 0 endTime)) None).
Proof.
  refine (proj1 (executeWorkflow_reports_timeout_as_result slowRun
                   startsAtOnce renderError (Some "wf1") None None
                   (Some 5%Z) 0 "wf1" "exec-1" 0 _ _ _) _ _).
  - reflexivity.
  - reflexivity.
  - intros t d. simpl. lia.
  - done.
  - intros n t _. exists runningExecution, (t + 100)%Z.
    split; [reflexivity|]. split; [reflexivity|lia].
Defined.

End poller_on_samples.
